(** * measuringringbuffer: a ring buffer between one reader and one writer

    Shallow embedding of package [measuringringbuffer] (type [Buffer] with
    [New], [Stats], [ReadFrom], [WriteTo] and [Copy]) and of [printStats]
    of the binary [fv], which shows what [Stats] returns.

    The shared [Buffer] is a record.  Every field of it is read and written
    under [b.mtx] only, so each stretch of code between acquiring the mutex and
    releasing it (by [Unlock], by [cond.Wait] or by the deferred [Unlock] of a
    return) is one atomic function on the record.  The two goroutines of
    [Copy] are the two program counters [PState] and [CState] of a [World];
    the step relation interleaves their critical sections with the calls
    [r.Read] and [w.Write], which run without the mutex, and with [Stats].

    Numbers.  [int64] values ([sum], [totalBytesRead], [time.Duration]) are
    integers with the wrap-around of [+=] written out ([add64]), and
    [Time.Sub] saturates as in Go.  The [int] values ([readIndex], [ready],
    counts and slice bounds) are unbounded integers: the index invariants
    [Shape] and [Fits] keep every one of them, and every intermediate result
    of the index arithmetic, between [-C] and [C], the capacity
    ([index_arithmetic_in_range]), so they cannot wrap.  Clock readings are integers (nanoseconds of the monotonic clock);
    time never runs backwards.

    The file has two parts: the program and the vocabulary of the
    statements first, the proofs after. *)

From Stdlib Require Import ZArith Lia String.
From stdpp Require Import base tactics option list relations.

Local Open Scope Z_scope.

(** * The program *)

(** ** Machine integers, time and errors *)

(** [int64] two's complement wrap-around ([sum], [totalBytesRead] and
    [time.Duration] are int64). *)
Definition wrap64 (z : Z) : Z := (z + 2 ^ 63) mod 2 ^ 64 - 2 ^ 63.

Definition add64 (a b : Z) : Z := wrap64 (a + b).

Definition maxDuration : Z := 2 ^ 63 - 1.

Definition minDuration : Z := - 2 ^ 63.

(** [time.Time]: the zero value [time.Time{}], or a reading of the monotonic
    clock in nanoseconds ([time.Now()] is never the zero value). *)
Inductive Time := TimeZero | At (ns : Z).

Definition IsZero (t : Time) : bool :=
  match t with TimeZero => true | At _ => false end.

(** [now.Sub(t)] and [time.Since(t)] for a clock reading [now]: the
    difference, saturated to the range of [time.Duration]. *)
Definition Since (now : Z) (t : Time) : Z :=
  match t with
  | At u => Z.max minDuration (Z.min maxDuration (now - u))
  | TimeZero => maxDuration
  end.

(** Go [error] values: the sentinel [io.EOF], any other error of a reader or
    writer, and [fmt.Errorf("<tag>: %w", cause)]. [option error] is an
    [error] that may be [nil]. *)
Inductive error :=
| EOF
| Failure (msg : string)
| Errorf (tag : string) (cause : error).

(** [err == io.EOF] *)
Definition is_EOF (e : error) : bool :=
  match e with EOF => true | _ => false end.

(** ** The buffer *)

Record Buffer := mkBuffer {
  buf : list Byte.byte;
  readIndex : Z;
  ready : Z;
  totalBytesRead : Z;
  readError : option error;
  writeError : option error;
  timeStarted : Time;
  lastReadStarted : Time;
  lastWriteStarted : Time;
  timeSpentReading : Z;
  timeSpentWriting : Z;
  totalTimeSpent : Z
}.

(** [len(b.buf)] *)
Definition len (b : Buffer) : Z := Z.of_nat (length (buf b)).

(** The value [New] builds: [make([]byte, size)] and zero values. *)
Definition fresh (size : Z) : Buffer :=
  {| buf := replicate (Z.to_nat size) Byte.x00;
     readIndex := 0; ready := 0; totalBytesRead := 0;
     readError := None; writeError := None;
     timeStarted := TimeZero; lastReadStarted := TimeZero;
     lastWriteStarted := TimeZero;
     timeSpentReading := 0; timeSpentWriting := 0; totalTimeSpent := 0 |}.

(** [New(size)]; [make] panics on a negative length. *)
Definition New (size : Z) : option Buffer :=
  if size <? 0 then None else Some (fresh size).

(** ** Stats *)

Record StatsT := mkStats {
  BufferCapacity : Z;
  BufferedBytes : Z;
  BytesRead : Z;
  TotalTime : Z;
  TimeSpentReading : Z;
  TimeSpentWriting : Z
}.

(** One in-flight phase added to an accumulated duration:
    [if !t.IsZero() { acc += now.Sub(t) }]. *)
Definition with_open_phase (acc : Z) (now : Z) (t : Time) : Z :=
  if IsZero t then acc else add64 acc (Since now t).

(** [b.Stats()], with [now] the one reading of [time.Now()]. *)
Definition Stats (b : Buffer) (now : Z) : StatsT :=
  {| BufferCapacity := len b;
     BufferedBytes := ready b;
     BytesRead := totalBytesRead b;
     TotalTime := with_open_phase (totalTimeSpent b) now (timeStarted b);
     TimeSpentReading := with_open_phase (timeSpentReading b) now (lastReadStarted b);
     TimeSpentWriting := with_open_phase (timeSpentWriting b) now (lastWriteStarted b) |}.

(** ** Slices of [b.buf] *)

(** A slice expression [b.buf[lo:hi]] is kept as its bounds; it panics unless
    [0 <= lo <= hi <= cap(b.buf)]. *)
Definition slice_ok (b : Buffer) (lo hi : Z) : bool :=
  (0 <=? lo) && (lo <=? hi) && (hi <=? len b).

(** The bytes a slice [b.buf[lo:hi]] shows. *)
Definition view (l : list Byte.byte) (lo hi : Z) : list Byte.byte :=
  take (Z.to_nat (hi - lo)) (drop (Z.to_nat lo) l).

(** Storing [xs] through a slice that starts at [lo]. *)
Definition store (l : list Byte.byte) (lo : Z) (xs : list Byte.byte) : list Byte.byte :=
  take (Z.to_nat lo) l ++ xs ++ drop (Z.to_nat lo + length xs) l.

(** ** ReadFrom *)

(** Where the goroutine running [ReadFrom] stands. *)
Inductive PState :=
| PInit                                   (* not yet called *)
| PRead (lo hi : Z)                       (* inside r.Read(b.buf[lo:hi]) *)
| PGot (n : Z) (err : option error) (dur : Z)  (* Read returned, b.mtx.Lock() pending *)
| PWait                                   (* asleep in b.cond.Wait() *)
| PWoken                                  (* signalled, re-acquiring the mutex *)
| PDone (sum : Z) (err : option error)    (* returned sum, err *)
| PPanic.

Definition set_lastReadStarted (b : Buffer) (t : Time) : Buffer :=
  {| buf := buf b; readIndex := readIndex b; ready := ready b;
     totalBytesRead := totalBytesRead b;
     readError := readError b; writeError := writeError b;
     timeStarted := timeStarted b; lastReadStarted := t;
     lastWriteStarted := lastWriteStarted b;
     timeSpentReading := timeSpentReading b;
     timeSpentWriting := timeSpentWriting b;
     totalTimeSpent := totalTimeSpent b |}.

(** [if b.timeStarted.IsZero() { b.timeStarted = time.Now() }] *)
Definition start_clock (b : Buffer) (now : Z) : Buffer :=
  {| buf := buf b; readIndex := readIndex b; ready := ready b;
     totalBytesRead := totalBytesRead b;
     readError := readError b; writeError := writeError b;
     timeStarted :=
       if IsZero (timeStarted b) then At now else timeStarted b;
     lastReadStarted := lastReadStarted b;
     lastWriteStarted := lastWriteStarted b;
     timeSpentReading := timeSpentReading b;
     timeSpentWriting := timeSpentWriting b;
     totalTimeSpent := totalTimeSpent b |}.

(** Top of the loop of [ReadFrom] up to [b.mtx.Unlock()]: the bound [until],
    the slice [b.buf[b.readIndex:until]] and the start of the read phase. *)
Definition until_of (b : Buffer) : Z :=
  if readIndex b >? ready b then len b
  else readIndex b - ready b + len b.

Definition offer_free (b : Buffer) (now : Z) : Buffer * PState :=
  let until := until_of b in
  if slice_ok b (readIndex b) until
  then (set_lastReadStarted b (At now), PRead (readIndex b) until)
  else (b, PPanic).

(** [for b.ready == len(b.buf) { b.cond.Wait() ... }], up to the wait or to
    the next read. *)
Definition full_wait (b : Buffer) (now : Z) : Buffer * PState :=
  if ready b =? len b then (b, PWait) else offer_free b now.

(** After [b.cond.Wait()] returned: the check of [b.writeError], then the
    loop condition again. *)
Definition after_wait (b : Buffer) (now : Z) (sum : Z) : Buffer * PState :=
  match writeError b with
  | Some w => (b, PDone sum (Some w))
  | None => full_wait b now
  end.

(** From [b.mtx.Lock()] after the read to [b.cond.Signal()]; [%] is Go's
    truncated remainder. *)
Definition read_accounted (b : Buffer) (n dur : Z) : Buffer :=
  {| buf := buf b;
     readIndex := Z.rem (readIndex b + n) (len b);
     ready := ready b + n;
     totalBytesRead := add64 (totalBytesRead b) n;
     readError := readError b; writeError := writeError b;
     timeStarted := timeStarted b; lastReadStarted := TimeZero;
     lastWriteStarted := lastWriteStarted b;
     timeSpentReading := add64 (timeSpentReading b) dur;
     timeSpentWriting := timeSpentWriting b;
     totalTimeSpent := totalTimeSpent b |}.

(** [%] panics on a zero divisor. *)
Definition read_commit (b : Buffer) (n dur : Z) : option Buffer :=
  if len b =? 0 then None else Some (read_accounted b n dur).

Definition set_readError (b : Buffer) (e : error) : Buffer :=
  {| buf := buf b; readIndex := readIndex b; ready := ready b;
     totalBytesRead := totalBytesRead b;
     readError := Some e; writeError := writeError b;
     timeStarted := timeStarted b; lastReadStarted := lastReadStarted b;
     lastWriteStarted := lastWriteStarted b;
     timeSpentReading := timeSpentReading b;
     timeSpentWriting := timeSpentWriting b;
     totalTimeSpent := totalTimeSpent b |}.

(** After the signal: [if err != nil ...], [if b.writeError != nil ...] and
    the wait loop. *)
Definition after_read (b : Buffer) (now : Z) (sum : Z) (err : option error)
  : Buffer * PState :=
  match err with
  | Some e =>
      (set_readError b e, PDone sum (if is_EOF e then None else Some e))
  | None =>
      match writeError b with
      | Some w => (b, PDone sum (Some w))
      | None => full_wait b now
      end
  end.

(** ** WriteTo *)

Inductive CState :=
| CInit
| CWrite (lo hi : Z)                      (* inside w.Write(b.buf[lo:hi]) *)
| CGot (n : Z) (err : option error) (dur : Z)
| CWait
| CWoken
| CDone (sum : Z) (err : option error)
| CPanic.

(** [maxWrite], from [len(b.buf)]; [/] on [int] truncates. *)
Definition maxWrite (c : Z) : Z :=
  let m := Z.quot c 8 in
  if m <? 1 then 1 else m.

(** The deferred function of [WriteTo]. *)
Definition stop_clock (b : Buffer) (now : Z) : Buffer :=
  {| buf := buf b; readIndex := readIndex b; ready := ready b;
     totalBytesRead := totalBytesRead b;
     readError := readError b; writeError := writeError b;
     timeStarted := TimeZero; lastReadStarted := lastReadStarted b;
     lastWriteStarted := lastWriteStarted b;
     timeSpentReading := timeSpentReading b;
     timeSpentWriting := timeSpentWriting b;
     totalTimeSpent := add64 (totalTimeSpent b) (Since now (timeStarted b)) |}.

Definition set_lastWriteStarted (b : Buffer) (t : Time) : Buffer :=
  {| buf := buf b; readIndex := readIndex b; ready := ready b;
     totalBytesRead := totalBytesRead b;
     readError := readError b; writeError := writeError b;
     timeStarted := timeStarted b; lastReadStarted := lastReadStarted b;
     lastWriteStarted := t;
     timeSpentReading := timeSpentReading b;
     timeSpentWriting := timeSpentWriting b;
     totalTimeSpent := totalTimeSpent b |}.

(** The bounds of the filled sub-range the consumer takes:
    [b.buf[b.readIndex-b.ready : b.readIndex]] or
    [b.buf[b.readIndex-b.ready+len(b.buf):]]. *)
Definition filled_range (b : Buffer) : Z * Z :=
  if readIndex b - ready b >=? 0
  then (readIndex b - ready b, readIndex b)
  else (readIndex b - ready b + len b, len b).

(** [if len(buf) > maxWrite { buf = buf[:maxWrite] }] *)
Definition cap_write (b : Buffer) (r : Z * Z) : Z * Z :=
  if snd r - fst r >? maxWrite (len b)
  then (fst r, fst r + maxWrite (len b)) else r.

(** The body of the outer loop of [WriteTo] up to the call of [w.Write],
    to the wait, or to the return (with the deferred function run). *)
Definition drain (b : Buffer) (now : Z) (sum : Z) : Buffer * CState :=
  if ready b =? 0 then
    match readError b with
    | Some e =>
        (stop_clock b now,
         CDone sum (if is_EOF e then None else Some (Errorf "read error" e)))
    | None => (b, CWait)
    end
  else
    let r := filled_range b in
    if slice_ok b (fst r) (snd r)
    then let r' := cap_write b r in
         (set_lastWriteStarted b (At now), CWrite (fst r') (snd r'))
    else (stop_clock b now, CPanic).

(** From [b.mtx.Lock()] after the write to [b.cond.Signal()]. *)
Definition write_commit (b : Buffer) (n dur : Z) : Buffer :=
  {| buf := buf b; readIndex := readIndex b; ready := ready b - n;
     totalBytesRead := totalBytesRead b;
     readError := readError b; writeError := writeError b;
     timeStarted := timeStarted b; lastReadStarted := lastReadStarted b;
     lastWriteStarted := TimeZero;
     timeSpentReading := timeSpentReading b;
     timeSpentWriting := add64 (timeSpentWriting b) dur;
     totalTimeSpent := totalTimeSpent b |}.

Definition set_writeError (b : Buffer) (e : error) : Buffer :=
  {| buf := buf b; readIndex := readIndex b; ready := ready b;
     totalBytesRead := totalBytesRead b;
     readError := readError b; writeError := Some e;
     timeStarted := timeStarted b; lastReadStarted := lastReadStarted b;
     lastWriteStarted := lastWriteStarted b;
     timeSpentReading := timeSpentReading b;
     timeSpentWriting := timeSpentWriting b;
     totalTimeSpent := totalTimeSpent b |}.

(** After the signal: [if err != nil { ... return sum, err }], else the loop. *)
Definition after_write (b : Buffer) (now : Z) (sum : Z) (err : option error)
  : Buffer * CState :=
  match err with
  | Some e =>
      let e' := Errorf "write error" e in
      (stop_clock (set_writeError b e') now, CDone sum (Some e'))
  | None => drain b now sum
  end.

(** ** The two goroutines of Copy, the reader, the writer and the clock *)

(** A world: the shared buffer, the monotonic clock, the two goroutines with
    their local [sum], and what the reader [r] and the writer [w] have seen:
    the bytes [r] has handed over, the bytes [w] has accepted, and every
    slice [w.Write] was called with. *)
Record World := mkWorld {
  shared : Buffer;
  clock : Z;
  producer : PState;
  psum : Z;
  consumer : CState;
  csum : Z;
  src_given : list Byte.byte;
  snk_taken : list Byte.byte;
  snk_reqs : list (list Byte.byte)
}.

(** [Copy] on a buffer [b] at clock reading [t0]: [go b.ReadFrom(r)] and
    [b.WriteTo(w)] are both about to start. *)
Definition boot (b : Buffer) (t0 : Z) : World :=
  {| shared := b; clock := t0;
     producer := PInit; psum := 0;
     consumer := CInit; csum := 0;
     src_given := []; snk_taken := []; snk_reqs := [] |}.

(** [b.cond.Signal()] wakes the goroutine asleep in [b.cond.Wait()], if any;
    the signalling goroutine is awake, so that can only be the other one. *)
Definition wake_consumer (c : CState) : CState :=
  match c with CWait => CWoken | _ => c end.

Definition wake_producer (p : PState) : PState :=
  match p with PWait => PWoken | _ => p end.

Definition producer_moves (w : World) (now : Z) (bp : Buffer * PState)
    (c : CState) : World :=
  {| shared := fst bp; clock := now;
     producer := snd bp; psum := psum w;
     consumer := c; csum := csum w;
     src_given := src_given w; snk_taken := snk_taken w;
     snk_reqs := snk_reqs w |}.

Definition consumer_moves (w : World) (now : Z) (bc : Buffer * CState)
    (p : PState) : World :=
  {| shared := fst bc; clock := now;
     producer := p; psum := psum w;
     consumer := snd bc; csum := csum w;
     src_given := src_given w; snk_taken := snk_taken w;
     snk_reqs := snk_reqs w |}.

(** Entry of [ReadFrom] up to the first [b.mtx.Unlock()]; the two readings of
    the clock are [now] and [now']. *)
Definition ReadFrom_enter (w : World) (now now' : Z) : World :=
  producer_moves w now' (offer_free (start_clock (shared w) now) now')
    (consumer w).

Definition set_buf (b : Buffer) (l : list Byte.byte) : Buffer :=
  {| buf := l; readIndex := readIndex b; ready := ready b;
     totalBytesRead := totalBytesRead b;
     readError := readError b; writeError := writeError b;
     timeStarted := timeStarted b; lastReadStarted := lastReadStarted b;
     lastWriteStarted := lastWriteStarted b;
     timeSpentReading := timeSpentReading b;
     timeSpentWriting := timeSpentWriting b;
     totalTimeSpent := totalTimeSpent b |}.

(** [n, err := r.Read(buf)] returns with [n = len(data)] bytes stored at the
    front of the slice (the rest of the slice, [junk], may have been used
    as scratch space), then [dur := time.Since(b.lastReadStarted)] and
    [sum += int64(n)]. *)
Definition Read_returns (w : World) (lo now : Z) (data junk : list Byte.byte)
    (err : option error) : World :=
  let n := Z.of_nat (length data) in
  {| shared := set_buf (shared w) (store (buf (shared w)) lo (data ++ junk));
     clock := now;
     producer := PGot n err (Since now (lastReadStarted (shared w)));
     psum := add64 (psum w) n;
     consumer := consumer w; csum := csum w;
     src_given := src_given w ++ data;
     snk_taken := snk_taken w; snk_reqs := snk_reqs w |}.

(** The critical section after the read. *)
Definition Read_commit (w : World) (n : Z) (err : option error) (dur now : Z)
  : World :=
  match read_commit (shared w) n dur with
  | None => producer_moves w now (shared w, PPanic) (consumer w)
  | Some b =>
      producer_moves w now (after_read b now (psum w) err)
        (wake_consumer (consumer w))
  end.

(** The critical section after [b.cond.Wait()] returned. *)
Definition ReadFrom_wakes (w : World) (now : Z) : World :=
  producer_moves w now (after_wait (shared w) now (psum w)) (consumer w).

(** Entry of [WriteTo] up to the first release of the mutex. *)
Definition WriteTo_enter (w : World) (now now' : Z) : World :=
  consumer_moves w now' (drain (start_clock (shared w) now) now' (csum w))
    (producer w).

(** [n, err := w.Write(buf)] returns having accepted the first [n] bytes of
    the slice, then [dur := time.Since(b.lastWriteStarted)] and
    [sum += int64(n)]. *)
Definition Write_returns (w : World) (lo hi now n : Z) (err : option error)
  : World :=
  let req := view (buf (shared w)) lo hi in
  {| shared := shared w; clock := now;
     producer := producer w; psum := psum w;
     consumer := CGot n err (Since now (lastWriteStarted (shared w)));
     csum := add64 (csum w) n;
     src_given := src_given w;
     snk_taken := snk_taken w ++ take (Z.to_nat n) req;
     snk_reqs := snk_reqs w ++ [req] |}.

(** The critical section after the write. *)
Definition Write_commit (w : World) (n : Z) (err : option error) (dur now : Z)
  : World :=
  consumer_moves w now
    (after_write (write_commit (shared w) n dur) now (csum w) err)
    (wake_producer (producer w)).

(** The critical section after [b.cond.Wait()] returned in [WriteTo]. *)
Definition WriteTo_wakes (w : World) (now : Z) : World :=
  consumer_moves w now (drain (shared w) now (csum w)) (producer w).

(** A call of [b.Stats()] at clock reading [now]: it returns
    [Stats (shared w) now] and changes no field. *)
Definition Stats_called (w : World) (now : Z) : World :=
  {| shared := shared w; clock := now;
     producer := producer w; psum := psum w;
     consumer := consumer w; csum := csum w;
     src_given := src_given w; snk_taken := snk_taken w;
     snk_reqs := snk_reqs w |}.

(** What the reader and the writer may answer: given the bytes handed over so
    far and the length of the slice, the bytes and the error [r.Read]
    returns; given the bytes accepted so far and the slice, the count and the
    error [w.Write] returns. *)
Record Env := mkEnv {
  src_rule : list Byte.byte -> Z -> list Byte.byte -> option error -> Prop;
  snk_rule : list Byte.byte -> list Byte.byte -> Z -> option error -> Prop
}.

(** Any reader and writer that return counts within the slice they got. *)
Definition any_env : Env :=
  {| src_rule := fun _ _ _ _ => True; snk_rule := fun _ _ _ _ => True |}.

Section Steps.

Variable E : Env.

(** Steps of the transfer: the critical sections and the returns of
    [r.Read] and [w.Write]. Time never runs backwards. *)
Inductive tstep : World -> World -> Prop :=
| step_ReadFrom_enter w now now' :
    producer w = PInit ->
    clock w <= now -> now <= now' ->
    tstep w (ReadFrom_enter w now now')
| step_Read_returns w lo hi now data junk err :
    producer w = PRead lo hi ->
    clock w <= now ->
    Z.of_nat (length data) + Z.of_nat (length junk) = hi - lo ->
    src_rule E (src_given w) (hi - lo) data err ->
    tstep w (Read_returns w lo now data junk err)
| step_Read_commit w n err dur now :
    producer w = PGot n err dur ->
    clock w <= now ->
    tstep w (Read_commit w n err dur now)
| step_ReadFrom_wakes w now :
    producer w = PWoken ->
    clock w <= now ->
    tstep w (ReadFrom_wakes w now)
| step_WriteTo_enter w now now' :
    consumer w = CInit ->
    clock w <= now -> now <= now' ->
    tstep w (WriteTo_enter w now now')
| step_Write_returns w lo hi now n err :
    consumer w = CWrite lo hi ->
    clock w <= now ->
    0 <= n <= hi - lo ->
    snk_rule E (snk_taken w) (view (buf (shared w)) lo hi) n err ->
    tstep w (Write_returns w lo hi now n err)
| step_Write_commit w n err dur now :
    consumer w = CGot n err dur ->
    clock w <= now ->
    tstep w (Write_commit w n err dur now)
| step_WriteTo_wakes w now :
    consumer w = CWoken ->
    clock w <= now ->
    tstep w (WriteTo_wakes w now).

(** All steps: the transfer and the calls of [Stats]. *)
Inductive step : World -> World -> Prop :=
| step_transfer w w' : tstep w w' -> step w w'
| step_Stats w now : clock w <= now -> step w (Stats_called w now).

Definition reachable (w0 w : World) : Prop := rtc step w0 w.

End Steps.

(** ** The binary fv: printStats *)

(** [int(100*x/total)] on [time.Duration] values: the product wraps, the
    quotient truncates, and a zero divisor panics. *)
Definition percent (x total : Z) : option Z :=
  if total =? 0 then None
  else Some (wrap64 (Z.quot (wrap64 (100 * x)) total)).

(** The formatting done by [fmt], [humanize] and [time.Duration.String],
    which are not part of this repository: one function per element of
    [parts], from the fields of [Stats] it shows ([fmt_speed] gets
    [BytesRead] and [TotalTime], [fmt_reading] and [fmt_writing] the
    percentage). *)
Record Formatters := {
  fmt_buffer : Z -> Z -> list Byte.byte;
  fmt_total : Z -> list Byte.byte;
  fmt_bytes : Z -> list Byte.byte;
  fmt_speed : Z -> Z -> list Byte.byte;
  fmt_reading : Z -> list Byte.byte;
  fmt_writing : Z -> list Byte.byte
}.

(** The loop [for i, p := range parts]: it raises [widths[i]] to [len(p)],
    writes [p] and, for all but the last part, [widths[i] + 1 - len(p)]
    spaces; [bytes.Repeat] panics on a negative count, and so does indexing
    [widths] out of range. *)
Fixpoint write_parts (widths : list Z) (parts : list (list Byte.byte))
  {struct parts} : option (list Z * list Byte.byte) :=
  match parts with
  | [] => Some (widths, [])
  | p :: rest =>
      match widths with
      | [] => None
      | wd :: wds =>
          let wd' := if Z.of_nat (length p) >? wd
                     then Z.of_nat (length p) else wd in
          match rest with
          | [] => Some (wd' :: wds, p)
          | _ =>
              let padding := wd' + 1 - Z.of_nat (length p) in
              if padding <? 0 then None
              else
                match write_parts wds rest with
                | None => None
                | Some (wds', out) =>
                    Some (wd' :: wds',
                          p ++ replicate (Z.to_nat padding) Byte.x20 ++ out)
                end
          end
      end
  end.

(** The six elements of [parts], given the two percentages. *)
Definition parts (F : Formatters) (s : StatsT) (r wr : Z)
  : list (list Byte.byte) :=
  [fmt_buffer F (BufferedBytes s) (BufferCapacity s);
   fmt_total F (TotalTime s);
   fmt_bytes F (BytesRead s);
   fmt_speed F (BytesRead s) (TotalTime s);
   fmt_reading F r;
   fmt_writing F wr].

(** [printStats(s, lineEnd)] with the global [widths] as they are before
    the call: the new [widths] and the line written to standard error, or
    a panic.  [printBuffer] is empty at every call, since every call ends
    with [printBuffer.Reset()]. *)
Definition printStats (F : Formatters) (widths : list Z) (s : StatsT)
    (lineEnd : Byte.byte) : option (list Z * list Byte.byte) :=
  match percent (TimeSpentReading s) (TotalTime s) with
  | None => None
  | Some r =>
      match percent (TimeSpentWriting s) (TotalTime s) with
      | None => None
      | Some wr =>
          match write_parts widths (parts F s r wr) with
          | None => None
          | Some (widths', out) => Some (widths', out ++ [lineEnd])
          end
      end
  end.

(** * Vocabulary of the statements

    The definitions below are not part of the program: they name the cases
    of its critical sections, the invariants of a transfer, the quantities
    the statements are about, and the readers, writers and schedules they
    are stated for. *)

(** *** Cases of the critical sections *)

(** What [ReadFrom] does once it holds the mutex and no read error is
    pending: return the write error, wait, or offer the next sub-range. *)
Inductive proceeded (b : Buffer) (now sum : Z) : Buffer * PState -> Prop :=
| proceeded_werr e :
    writeError b = Some e ->
    proceeded b now sum (b, PDone sum (Some e))
| proceeded_full :
    writeError b = None -> ready b = len b ->
    proceeded b now sum (b, PWait)
| proceeded_next :
    writeError b = None -> ready b < len b ->
    proceeded b now sum
      (set_lastReadStarted b (At now), PRead (readIndex b) (until_of b)).

(** What [WriteTo] does at the top of its loop: return, wait, or write. *)
Inductive drained (b : Buffer) (now sum : Z) : Buffer * CState -> Prop :=
| drained_done e :
    ready b = 0 -> readError b = Some e ->
    drained b now sum
      (stop_clock b now,
       CDone sum (if is_EOF e then None else Some (Errorf "read error" e)))
| drained_wait :
    ready b = 0 -> readError b = None ->
    drained b now sum (b, CWait)
| drained_write lo hi :
    0 < ready b ->
    cap_write b (filled_range b) = (lo, hi) ->
    lo = (readIndex b - ready b) mod len b ->
    drained b now sum (set_lastWriteStarted b (At now), CWrite lo hi).

(** *** The steps, case by case

    Under the index invariant no slice expression panics, and every step of
    the transfer is one of the following, with the world after it spelled
    out. *)
Section Moved.

Variable E : Env.

Inductive moved : World -> World -> Prop :=
| mv_ReadFrom_enter w now now' :
    producer w = PInit -> clock w <= now -> now <= now' ->
    moved w
      (producer_moves w now'
         (set_lastReadStarted (start_clock (shared w) now) (At now'),
          PRead (readIndex (shared w)) (until_of (shared w)))
         (consumer w))
| mv_Read_returns w lo hi now data junk err :
    producer w = PRead lo hi -> clock w <= now ->
    Z.of_nat (length data) + Z.of_nat (length junk) = hi - lo ->
    src_rule E (src_given w) (hi - lo) data err ->
    moved w (Read_returns w lo now data junk err)
| mv_Read_failed w n e dur now :
    producer w = PGot n (Some e) dur -> clock w <= now ->
    moved w
      (producer_moves w now
         (set_readError (read_accounted (shared w) n dur) e,
          PDone (psum w) (if is_EOF e then None else Some e))
         (wake_consumer (consumer w)))
| mv_Read_proceeds w n dur now bp :
    producer w = PGot n None dur -> clock w <= now ->
    proceeded (read_accounted (shared w) n dur) now (psum w) bp ->
    moved w (producer_moves w now bp (wake_consumer (consumer w)))
| mv_ReadFrom_wakes w now bp :
    producer w = PWoken -> clock w <= now ->
    proceeded (shared w) now (psum w) bp ->
    moved w (producer_moves w now bp (consumer w))
| mv_WriteTo_enter w now now' bc :
    consumer w = CInit -> clock w <= now -> now <= now' ->
    drained (start_clock (shared w) now) now' (csum w) bc ->
    moved w (consumer_moves w now' bc (producer w))
| mv_Write_returns w lo hi now n err :
    consumer w = CWrite lo hi -> clock w <= now ->
    0 <= n <= hi - lo ->
    snk_rule E (snk_taken w) (view (buf (shared w)) lo hi) n err ->
    moved w (Write_returns w lo hi now n err)
| mv_Write_failed w n e dur now :
    consumer w = CGot n (Some e) dur -> clock w <= now ->
    moved w
      (consumer_moves w now
         (stop_clock
            (set_writeError (write_commit (shared w) n dur)
               (Errorf "write error" e)) now,
          CDone (csum w) (Some (Errorf "write error" e)))
         (wake_producer (producer w)))
| mv_Write_drains w n dur now bc :
    consumer w = CGot n None dur -> clock w <= now ->
    drained (write_commit (shared w) n dur) now (csum w) bc ->
    moved w (consumer_moves w now bc (wake_producer (producer w)))
| mv_WriteTo_wakes w now bc :
    consumer w = CWoken -> clock w <= now ->
    drained (shared w) now (csum w) bc ->
    moved w (consumer_moves w now bc (producer w)).

End Moved.

(** *** Invariants *)

(** Bytes of a call that has returned but is not yet accounted for in
    [b.ready]. *)
Definition pending_p (p : PState) : Z :=
  match p with PGot n _ _ => n | _ => 0 end.

Definition pending_c (c : CState) : Z :=
  match c with CGot n _ _ => n | _ => 0 end.

Definition pend_p (w : World) : Z := pending_p (producer w).

Definition pend_c (w : World) : Z := pending_c (consumer w).

(** Index invariant: the fields stay in range, the slices in flight lie
    inside the storage, nobody has panicked. *)
Record Shape (w : World) : Prop := {
  shape_cap : 1 <= len (shared w);
  shape_idx : 0 <= readIndex (shared w) < len (shared w);
  shape_pend_c : 0 <= pend_c w <= ready (shared w);
  shape_pend_p : 0 <= pend_p w;
  shape_room : ready (shared w) + pend_p w <= len (shared w);
  shape_init : producer w = PInit -> ready (shared w) = 0;
  shape_read : forall lo hi, producer w = PRead lo hi ->
      lo = readIndex (shared w) /\ lo < hi <= len (shared w) /\
      hi - lo <= len (shared w) - ready (shared w);
  shape_write : forall lo hi, consumer w = CWrite lo hi ->
      0 <= lo < hi /\ hi <= len (shared w) /\
      hi - lo <= ready (shared w) /\ hi - lo <= maxWrite (len (shared w));
  shape_no_panic_p : producer w <> PPanic;
  shape_no_panic_c : consumer w <> CPanic
}.

(** The bytes of a read that has returned fit between [readIndex] and the
    end of the storage, so [b.readIndex + n] stays within the capacity. *)
Definition Fits (w : World) : Prop :=
  readIndex (shared w) + pend_p w <= len (shared w).

Definition produced (w : World) : Z := Z.of_nat (length (src_given w)).

Definition delivered (w : World) : Z := Z.of_nat (length (snk_taken w)).

Record Ring (w : World) : Prop := {
  ring_head :
    readIndex (shared w) = (produced w - pend_p w) mod len (shared w);
  ring_ready :
    ready (shared w) = produced w - pend_p w - (delivered w - pend_c w);
  ring_fifo : snk_taken w = take (length (snk_taken w)) (src_given w);
  ring_data : forall i, delivered w <= i < produced w ->
    buf (shared w) !! Z.to_nat (i mod len (shared w))
    = src_given w !! Z.to_nat i;
  ring_tail : forall lo hi, consumer w = CWrite lo hi ->
    lo = delivered w mod len (shared w)
}.

(** Who may be where: an error field is set only by the side that has
    returned because of it; a side asleep in [cond.Wait] has the condition
    it waits on; and [WriteTo] cannot get past an empty ring before
    [ReadFrom] has started. *)
Record Protocol (w : World) : Prop := {
  proto_rerr : forall e, readError (shared w) = Some e ->
    exists sum err, producer w = PDone sum err;
  proto_werr : forall e, writeError (shared w) = Some e ->
    exists sum e0, e = Errorf "write error" e0 /\
                   consumer w = CDone sum (Some e);
  proto_pdone : forall sum err, producer w = PDone sum err ->
    (exists e, readError (shared w) = Some e /\
               err = if is_EOF e then None else Some e) \/
    (readError (shared w) = None /\
     exists e, writeError (shared w) = Some e /\ err = Some e);
  proto_cdone : forall sum err, consumer w = CDone sum err ->
    (exists e, writeError (shared w) = Some e /\ err = Some e) \/
    (writeError (shared w) = None /\ ready (shared w) = 0 /\
     exists e, readError (shared w) = Some e /\
       err = if is_EOF e then None else Some (Errorf "read error" e));
  proto_pwait : producer w = PWait ->
    ready (shared w) = len (shared w) /\ writeError (shared w) = None;
  proto_cwait : consumer w = CWait ->
    ready (shared w) = 0 /\ readError (shared w) = None;
  proto_pinit : producer w = PInit ->
    readError (shared w) = None /\ writeError (shared w) = None /\
    (consumer w = CInit \/ consumer w = CWait)
}.

(** The counters count, modulo 2^64: [totalBytesRead] the bytes accounted
    for, the local [sum] of each side the bytes its calls returned, and the
    writer was never handed an empty slice or one above [maxWrite]. *)
Record Ledger (w : World) : Prop := {
  led_total : totalBytesRead (shared w) = wrap64 (produced w - pend_p w);
  led_psum : psum w = wrap64 (produced w);
  led_csum : csum w = wrap64 (delivered w);
  led_pdone : forall sum err, producer w = PDone sum err -> sum = psum w;
  led_cdone : forall sum err, consumer w = CDone sum err -> sum = csum w;
  led_reqs : Forall (fun req : list Byte.byte =>
                 1 <= Z.of_nat (length req) <= maxWrite (len (shared w)))
               (snk_reqs w)
}.

(** The start of an open phase, or the clock reading when it is closed. *)
Definition phase_base (clk : Z) (t : Time) : Z :=
  match t with At u => u | TimeZero => clk end.

(** [lastReadStarted] is set exactly while a read is in flight or waits to
    be accounted for; [dur] was measured inside the phase. *)
Definition read_phase (t0 clk : Z) (p : PState) (t : Time) : Prop :=
  match p with
  | PRead _ _ => exists u, t = At u /\ t0 <= u <= clk
  | PGot _ _ dur => exists u, t = At u /\ t0 <= u /\ 0 <= dur /\ u + dur <= clk
  | _ => t = TimeZero
  end.

Definition write_phase (t0 clk : Z) (c : CState) (t : Time) : Prop :=
  match c with
  | CWrite _ _ => exists u, t = At u /\ t0 <= u <= clk
  | CGot _ _ dur => exists u, t = At u /\ t0 <= u /\ 0 <= dur /\ u + dur <= clk
  | _ => t = TimeZero
  end.

(** The total timer runs from the entry of [WriteTo] to its return. *)
Definition total_phase (c : CState) (t : Time) : Prop :=
  match c with
  | CWrite _ _ | CGot _ _ _ | CWait | CWoken => t <> TimeZero
  | _ => True
  end.

Record Timing (t0 : Z) (w : World) : Prop := {
  tm_clock : t0 <= clock w;
  tm_started : forall u, timeStarted (shared w) = At u -> t0 <= u <= clock w;
  tm_running : total_phase (consumer w) (timeStarted (shared w));
  tm_read : read_phase t0 (clock w) (producer w) (lastReadStarted (shared w));
  tm_write :
    write_phase t0 (clock w) (consumer w) (lastWriteStarted (shared w));
  tm_reading :
    0 <= timeSpentReading (shared w)
      <= phase_base (clock w) (lastReadStarted (shared w)) - t0;
  tm_writing :
    0 <= timeSpentWriting (shared w)
      <= phase_base (clock w) (lastWriteStarted (shared w)) - t0;
  tm_total :
    0 <= totalTimeSpent (shared w)
      <= phase_base (clock w) (timeStarted (shared w)) - t0
}.

(** The accounting is exact as long as the transfer has not lasted longer
    than a [time.Duration] can hold (about 292 years). *)
Definition Timed (t0 : Z) (w : World) : Prop :=
  clock w - t0 <= maxDuration -> Timing t0 w.

(** All invariants together. *)
Record Inv (t0 : Z) (w : World) : Prop := {
  inv_shape : Shape w;
  inv_ring : Ring w;
  inv_proto : Protocol w;
  inv_ledger : Ledger w;
  inv_timed : Timed t0 w
}.

(** *** Layout, snapshots and clocks *)

(** The index of the next byte to be consumed: where the filled sub-range
    taken by [WriteTo] starts. *)
Definition fillStart (b : Buffer) : Z := fst (filled_range b).

(** Time in an open phase at clock reading [now]; zero when closed. *)
Definition elapsed (now : Z) (t : Time) : Z :=
  match t with At u => now - u | TimeZero => 0 end.

(** What a call of [Stats] returns in world [w], made at its clock
    reading. *)
Definition stats_at (w : World) : StatsT := Stats (shared w) (clock w).

(** Time inside the call in flight: the open phase while it runs, the
    measured duration once it has returned and waits to be accounted for. *)
Definition reading_now (clk : Z) (p : PState) (t : Time) : Z :=
  match p with
  | PRead _ _ => elapsed clk t
  | PGot _ _ dur => dur
  | _ => 0
  end.

Definition writing_now (clk : Z) (c : CState) (t : Time) : Z :=
  match c with
  | CWrite _ _ => elapsed clk t
  | CGot _ _ dur => dur
  | _ => 0
  end.

(** Time spent inside [r.Read] and inside [w.Write] so far, time since the
    transfer started, and bytes accounted for. *)
Definition read_time (w : World) : Z :=
  timeSpentReading (shared w)
  + reading_now (clock w) (producer w) (lastReadStarted (shared w)).

Definition write_time (w : World) : Z :=
  timeSpentWriting (shared w)
  + writing_now (clock w) (consumer w) (lastWriteStarted (shared w)).

Definition total_time (w : World) : Z :=
  totalTimeSpent (shared w) + elapsed (clock w) (timeStarted (shared w)).

Definition accounted (w : World) : Z := produced w - pend_p w.

(** The accumulated durations of one buffer state against a later one. *)
Definition accumulated_le (b b' : Buffer) : Prop :=
  timeSpentReading b <= timeSpentReading b' /\
  timeSpentWriting b <= timeSpentWriting b' /\
  totalTimeSpent b <= totalTimeSpent b'.

(** *** A finite source and a writer that does not fail *)

(** The reader hands over the bytes of [D] in order, in chunks of its
    choice but at least one byte per call while no error is reported, and
    reports [fin] ([io.EOF], or a failure) once all of [D] has been handed
    over, with the last bytes or after them.  The writer reports no error
    and accepts at least one byte per call. *)
Definition script_env (D : list Byte.byte) (fin : error) : Env :=
  {| src_rule given _ data err :=
       exists rest, D = given ++ data ++ rest /\
         match err with
         | None => data <> []
         | Some e => e = fin /\ rest = []
         end;
     snk_rule _ _ n err := err = None /\ 1 <= n |}.

Record Script (D : list Byte.byte) (fin : error) (w : World) : Prop := {
  sc_prefix : exists rest, D = src_given w ++ rest;
  sc_sink : writeError (shared w) = None;
  sc_cgot : forall n err dur, consumer w = CGot n err dur ->
    err = None /\ 1 <= n;
  sc_pgot : forall n err dur, producer w = PGot n err dur ->
    match err with
    | None => 1 <= n
    | Some e => e = fin /\ src_given w = D
    end;
  sc_rerr : forall e, readError (shared w) = Some e ->
    e = fin /\ src_given w = D
}.

(** Work left: bytes the reader has yet to hand over, bytes the writer has
    yet to accept, and the steps each goroutine can take on its own before
    it needs one of the two.  A signal costs the sender less than it gives
    the sleeper. *)
Definition rank_p (p : PState) : Z :=
  match p with
  | PInit => 5
  | PRead _ _ => 4
  | PGot _ None _ => 7
  | PGot _ (Some _) _ => 3
  | PWoken => 5
  | PWait | PDone _ _ | PPanic => 0
  end.

Definition rank_c (c : CState) : Z :=
  match c with
  | CInit => 2
  | CWrite _ _ => 1
  | CGot _ _ _ => 7
  | CWoken => 2
  | CWait | CDone _ _ | CPanic => 0
  end.

Definition todo (D : list Byte.byte) (w : World) : Z :=
  4 * (Z.of_nat (length D) - produced w)
  + 7 * (Z.of_nat (length D) - delivered w)
  + rank_p (producer w) + rank_c (consumer w).

(** [inevitably R Ok w]: from [w], whatever steps of [R] are taken, no run
    gets stuck or goes on forever before it reaches a world where [Ok]
    holds. *)
Inductive inevitably (R : relation World) (Ok : World -> Prop)
  : World -> Prop :=
| inevitably_now w : Ok w -> inevitably R Ok w
| inevitably_later w :
    (exists w', R w w') ->
    (forall w', R w w' -> inevitably R Ok w') ->
    inevitably R Ok w.

(** What [Copy] returns: [return b.WriteTo(w)]. *)
Definition Copy_result (w : World) : option (Z * option error) :=
  match consumer w with
  | CDone sum err => Some (sum, err)
  | _ => None
  end.

Record Scripted (D : list Byte.byte) (fin : error) (t0 : Z) (w : World)
  : Prop := {
  scripted_inv : Inv t0 w;
  scripted_script : Script D fin w
}.

(** The bytes of "HELLO WORLD!!!!!". *)
Definition hello : list Byte.byte :=
  [Byte.x48; Byte.x45; Byte.x4c; Byte.x4c; Byte.x4f; Byte.x20; Byte.x57;
   Byte.x4f; Byte.x52; Byte.x4c; Byte.x44; Byte.x21; Byte.x21; Byte.x21;
   Byte.x21; Byte.x21].

(** *** One schedule, as a function *)

(** A reader over the bytes [D] that fills the slice as far as it can and
    reports [io.EOF] once nothing is left; it leaves the rest of the slice
    as it was. *)
Definition greedy_read (D : list Byte.byte) (w : World) (lo hi : Z)
  : list Byte.byte * list Byte.byte * option error :=
  let left := drop (length (src_given w)) D in
  let data := take (Z.to_nat (hi - lo)) left in
  let junk := view (buf (shared w)) (lo + Z.of_nat (length data)) hi in
  (data, junk, match left with [] => Some EOF | _ => None end).

(** One turn of a scheduler that runs [ReadFrom] while it can move and
    [WriteTo] otherwise; every turn takes one unit of time, and the writer
    accepts the whole slice. *)
Definition turn (D : list Byte.byte) (w : World) : option World :=
  let now := clock w + 1 in
  match producer w with
  | PInit => Some (ReadFrom_enter w now now)
  | PRead lo hi =>
      let '(data, junk, err) := greedy_read D w lo hi in
      Some (Read_returns w lo now data junk err)
  | PGot n err dur => Some (Read_commit w n err dur now)
  | PWoken => Some (ReadFrom_wakes w now)
  | PWait | PDone _ _ | PPanic =>
      match consumer w with
      | CInit => Some (WriteTo_enter w now now)
      | CWrite lo hi => Some (Write_returns w lo hi now (hi - lo) None)
      | CGot n err dur => Some (Write_commit w n err dur now)
      | CWoken => Some (WriteTo_wakes w now)
      | CWait | CDone _ _ | CPanic => None
      end
  end.

Fixpoint run (fuel : nat) (D : list Byte.byte) (w : World) : World :=
  match fuel with
  | O => w
  | S fuel' =>
      match turn D w with
      | Some w' => run fuel' D w'
      | None => w
      end
  end.

(** *** A short run, for examples

    Capacity 4 at clock 0.  [ReadFrom] starts at 10; the reader returns one
    byte at 20; [Stats] is called at 25; the read is accounted for at 25 and
    the next read starts; [WriteTo] starts at 30 and finds one byte; the
    writer fails at 40; [WriteTo] returns at 41; the reader returns another
    byte at 50. *)
Module Demo.

Definition w0 : World := boot (fresh 4) 0.

Definition w1 : World := ReadFrom_enter w0 10 10.

Definition w2 : World :=
  Read_returns w1 0 20 [Byte.x61] [Byte.x00; Byte.x00; Byte.x00] None.

Definition w3 : World := Stats_called w2 25.

Definition w4 : World := Read_commit w3 1 None 10 25.

Definition w5 : World := WriteTo_enter w4 30 30.

Definition w6 : World :=
  Write_returns w5 0 1 40 0 (Some (Failure "disk full")).

Definition w7 : World :=
  Write_commit w6 0 (Some (Failure "disk full")) 10 41.

Definition w8 : World :=
  Read_returns w7 1 50 [Byte.x62] [Byte.x00; Byte.x00] None.
End Demo.

(** *** Further invariants *)

(** The bytes of a call not yet accounted for are among those the reader
    has handed over, or the writer has accepted. *)
Definition Counted (w : World) : Prop :=
  pend_p w <= produced w /\ pend_c w <= delivered w.

(** The write timer is open only around a call of [w.Write], and the total
    timer is stopped once [WriteTo] has returned. *)
Definition Stopped (w : World) : Prop :=
  match consumer w with
  | CWrite _ _ | CGot _ _ _ => True
  | CDone _ _ =>
      lastWriteStarted (shared w) = TimeZero /\
      timeStarted (shared w) = TimeZero
  | _ => lastWriteStarted (shared w) = TimeZero
  end.

(** The timers against the total timer: while it runs, from [u], nothing
    has been added to [totalTimeSpent] yet and the read and write timers
    have accumulated no more than the time from [u] to the start of their
    open phase; it does not run only before both calls, or after [WriteTo]
    has returned, and then the write timer is within the total, and so is
    the read timer unless [WriteTo] returned because the writer failed. *)
Record Budget (w : World) : Prop := {
  bd_running : forall u, timeStarted (shared w) = At u ->
    totalTimeSpent (shared w) = 0 /\
    timeSpentReading (shared w)
      <= phase_base (clock w) (lastReadStarted (shared w)) - u /\
    timeSpentWriting (shared w)
      <= phase_base (clock w) (lastWriteStarted (shared w)) - u;
  bd_idle : timeStarted (shared w) = TimeZero ->
    match consumer w with
    | CInit =>
        producer w = PInit /\ timeSpentReading (shared w) = 0 /\
        timeSpentWriting (shared w) = 0 /\ totalTimeSpent (shared w) = 0
    | CDone _ _ =>
        timeSpentWriting (shared w) <= totalTimeSpent (shared w) /\
        (writeError (shared w) = None ->
         timeSpentReading (shared w) <= totalTimeSpent (shared w))
    | _ => False
    end
}.

Definition Budgeted (t0 : Z) (w : World) : Prop :=
  clock w - t0 <= maxDuration -> Budget w.

(** A read was offered room, and the room is still there when it has
    returned. *)
Definition Spare (w : World) : Prop :=
  match producer w with
  | PGot _ _ _ => ready (shared w) < len (shared w)
  | _ => True
  end.

(** A goroutine that is neither asleep in [cond.Wait] nor gone: it is
    about to take the mutex, or inside its call of [r.Read] or [w.Write]. *)
Definition p_active (p : PState) : bool :=
  match p with
  | PInit | PRead _ _ | PGot _ _ _ | PWoken => true
  | _ => false
  end.

Definition c_active (c : CState) : bool :=
  match c with
  | CInit | CWrite _ _ | CGot _ _ _ | CWoken => true
  | _ => false
  end.

(** *** A buffer without storage *)

(** A transfer through [New(0)]: nothing is ever buffered, [ReadFrom] can
    only offer the empty slice, [WriteTo] can only wait. *)
Definition Hollow (w : World) : Prop :=
  len (shared w) = 0 /\ ready (shared w) = 0 /\ readIndex (shared w) = 0 /\
  readError (shared w) = None /\
  match producer w with
  | PInit | PGot _ _ _ | PPanic => True
  | PRead lo hi => lo = 0 /\ hi = 0
  | _ => False
  end /\
  match consumer w with CInit | CWait => True | _ => False end.

Definition hollow_rank (w : World) : Z :=
  match producer w with
  | PInit => 3 | PRead _ _ => 2 | PGot _ _ _ => 1 | _ => 0
  end
  + match consumer w with CInit => 1 | _ => 0 end.

(** *** A finite source and a writer that may fail *)

(** The reader of [script_env]; the writer accepts at least one byte per
    call unless it reports an error, which it may do at any call. *)
Definition faulty_env (D : list Byte.byte) (fin : error) : Env :=
  {| src_rule := src_rule (script_env D fin);
     snk_rule _ _ n err := err = None -> 1 <= n |}.

Record Faulty (D : list Byte.byte) (fin : error) (w : World) : Prop := {
  fa_prefix : exists rest, D = src_given w ++ rest;
  fa_cgot : forall n dur, consumer w = CGot n None dur -> 1 <= n;
  fa_pgot : forall n err dur, producer w = PGot n err dur ->
    match err with
    | None => 1 <= n
    | Some e => e = fin /\ src_given w = D
    end;
  fa_rerr : forall e, readError (shared w) = Some e ->
    e = fin /\ src_given w = D
}.

(** Work left, as in [todo]; a failed write leaves [WriteTo] one step from
    its return. *)
Definition rank_c' (c : CState) : Z :=
  match c with
  | CGot _ (Some _) _ => 0
  | _ => rank_c c
  end.

Definition todo' (D : list Byte.byte) (w : World) : Z :=
  4 * (Z.of_nat (length D) - produced w)
  + 7 * (Z.of_nat (length D) - delivered w)
  + rank_p (producer w) + rank_c' (consumer w).

(** *** Lines of fv *)

(** Where column [i] starts in a line laid out with [widths]. *)
Definition column_start (widths : list Z) (i : nat) : Z :=
  foldr (fun wd acc => wd + 1 + acc) 0 (take i widths).

(** Formatters that show every element as one letter. *)
Definition tags : Formatters :=
  {| fmt_buffer _ _ := [Byte.x42];
     fmt_total _ := [Byte.x54];
     fmt_bytes _ := [Byte.x4e];
     fmt_speed _ _ := [Byte.x53];
     fmt_reading _ := [Byte.x52];
     fmt_writing _ := [Byte.x57] |}.

(** *** More runs, for examples *)

(** Where the schedule [run] leaves the transfer of "HELLO WORLD!!!!!"
    through a ring of capacity 16. *)
Definition hello_end : World := run 100 hello (boot (fresh 16) 0).

(** [WriteTo] called first, at 1, on a new buffer of capacity 4: it finds
    nothing and waits. *)
Definition waiting : World := WriteTo_enter (boot (fresh 4) 0) 1 1.

(** The first read of [Demo], had it returned no byte and no error at
    15. *)
Definition stalled : World :=
  Read_returns Demo.w1 0 15 [] [Byte.x00; Byte.x00; Byte.x00; Byte.x00] None.

(** A run in which the reader fails.  Capacity 4 at clock 0.  [ReadFrom]
    starts at 1; at 5 the reader returns two bytes together with an error;
    the read is accounted for at 6 and [ReadFrom] returns; [WriteTo] starts
    at 7 and writes the two bytes in two writes of one byte; at 11 it finds
    the ring empty and returns. *)
Module Crash.

Definition bad : error := Failure "bad sector".

Definition r0 : World := boot (fresh 4) 0.

Definition r1 : World := ReadFrom_enter r0 1 1.

Definition r2 : World :=
  Read_returns r1 0 5 [Byte.x61; Byte.x62] [Byte.x00; Byte.x00] (Some bad).

Definition r3 : World := Read_commit r2 2 (Some bad) 4 6.

Definition r4 : World := WriteTo_enter r3 7 7.

Definition r5 : World := Write_returns r4 0 1 8 1 None.

Definition r6 : World := Write_commit r5 1 None 1 9.

Definition r7 : World := Write_returns r6 1 2 10 1 None.

Definition r8 : World := Write_commit r7 1 None 1 11.
End Crash.

(** * Proofs *)

(** ** Case analysis of the critical sections *)

Ltac bools :=
  repeat match goal with
  | H : _ && _ = true |- _ => apply andb_prop in H; destruct H
  | H : (_ <=? _) = true |- _ => apply Z.leb_le in H
  | H : (_ <=? _) = false |- _ => apply Z.leb_gt in H
  | H : (_ <? _) = true |- _ => apply Z.ltb_lt in H
  | H : (_ <? _) = false |- _ => apply Z.ltb_ge in H
  | H : (_ =? _) = true |- _ => apply Z.eqb_eq in H
  | H : (_ =? _) = false |- _ => apply Z.eqb_neq in H
  | H : (_ >? _) = true |- _ => apply Z.gtb_lt in H
  | H : (_ >? _) = false |- _ => rewrite Z.gtb_ltb in H; apply Z.ltb_ge in H
  | H : (_ >=? _) = true |- _ => rewrite Z.geb_leb in H; apply Z.leb_le in H
  | H : (_ >=? _) = false |- _ => rewrite Z.geb_leb in H; apply Z.leb_gt in H
  end.

Lemma maxWrite_pos c : 1 <= maxWrite c.
Proof. unfold maxWrite. case_match; bools; lia. Qed.

(** The free sub-range offered to [r.Read] when the ring is not full. *)
Lemma until_of_bounds b :
  0 <= readIndex b < len b -> 0 <= ready b < len b ->
  readIndex b < until_of b <= len b /\
  until_of b - readIndex b <= len b - ready b.
Proof. intros. unfold until_of. case_match; bools; lia. Qed.

Lemma offer_free_ok b now :
  0 <= readIndex b < len b -> 0 <= ready b < len b ->
  offer_free b now =
    (set_lastReadStarted b (At now), PRead (readIndex b) (until_of b)).
Proof.
  intros Hr Hk. destruct (until_of_bounds b Hr Hk) as [? ?].
  unfold offer_free, slice_ok.
  replace (0 <=? readIndex b) with true by (symmetry; apply Z.leb_le; lia).
  replace (readIndex b <=? until_of b) with true
    by (symmetry; apply Z.leb_le; lia).
  replace (until_of b <=? len b) with true by (symmetry; apply Z.leb_le; lia).
  reflexivity.
Qed.

Lemma after_wait_proceeded b now sum :
  0 <= readIndex b < len b -> 0 <= ready b <= len b ->
  proceeded b now sum (after_wait b now sum).
Proof.
  intros Hr Hk. unfold after_wait, full_wait.
  destruct (writeError b) eqn:Hw; [by constructor|].
  destruct (ready b =? len b) eqn:Hf; bools; [by constructor|].
  rewrite offer_free_ok by lia. constructor; [done | lia].
Qed.

(** The filled sub-range handed to [w.Write] when the ring is not empty. *)
Lemma filled_range_bounds b :
  0 <= readIndex b < len b -> 0 < ready b <= len b ->
  let r := cap_write b (filled_range b) in
  fst r = (readIndex b - ready b) mod len b /\
  0 <= fst r < snd r /\ snd r <= len b /\
  snd r - fst r <= ready b /\ snd r - fst r <= maxWrite (len b) /\
  slice_ok b (fst (filled_range b)) (snd (filled_range b)) = true.
Proof.
  intros Hr Hk. pose proof (maxWrite_pos (len b)) as Hm.
  unfold cap_write, filled_range, slice_ok.
  destruct (readIndex b - ready b >=? 0) eqn:Hge; simpl; bools.
  - rewrite Z.mod_small by lia.
    case_match; simpl; bools;
      (split_and!; [try lia ..| repeat (apply andb_true_intro; split); apply Z.leb_le; lia]).
  - replace ((readIndex b - ready b) mod len b)
      with (readIndex b - ready b + len b).
    2:{ rewrite <- (Z.mod_small (readIndex b - ready b + len b) (len b)) by lia.
        rewrite <- (Z_mod_plus_full (readIndex b - ready b) 1 (len b)).
        f_equal. lia. }
    case_match; simpl; bools;
      (split_and!; [try lia ..| repeat (apply andb_true_intro; split); apply Z.leb_le; lia]).
Qed.

Lemma drain_drained b now sum :
  0 <= readIndex b < len b -> 0 <= ready b <= len b ->
  drained b now sum (drain b now sum).
Proof.
  intros Hr Hk. unfold drain.
  destruct (ready b =? 0) eqn:Hz; bools.
  - destruct (readError b) eqn:He; by constructor.
  - destruct (filled_range_bounds b Hr) as (Hlo & _ & _ & _ & _ & ->); [lia|].
    destruct (cap_write b (filled_range b)) as [lo hi] eqn:Hcw.
    by apply drained_write; [lia | |].
Qed.

(** ** Invariants of a transfer *)

Lemma pending_wake_p p : pending_p (wake_producer p) = pending_p p.
Proof. by destruct p. Qed.

Lemma pending_wake_c c : pending_c (wake_consumer c) = pending_c c.
Proof. by destruct c. Qed.

Lemma wake_producer_PRead p lo hi :
  wake_producer p = PRead lo hi -> p = PRead lo hi.
Proof. by destruct p. Qed.

Lemma wake_consumer_CWrite c lo hi :
  wake_consumer c = CWrite lo hi -> c = CWrite lo hi.
Proof. by destruct c. Qed.

(** Reduction of the field projections over the updates of a step. *)
Ltac fields :=
  unfold len in *;
  cbn [shared clock producer psum consumer csum src_given snk_taken snk_reqs
       buf readIndex ready totalBytesRead readError writeError timeStarted
       lastReadStarted lastWriteStarted timeSpentReading timeSpentWriting
       totalTimeSpent fst snd producer_moves consumer_moves
       set_lastReadStarted set_lastWriteStarted set_readError set_writeError
       set_buf read_accounted write_commit stop_clock start_clock
       Read_returns Write_returns Stats_called boot fresh] in *;
  unfold len in *.

Lemma store_length l lo xs :
  0 <= lo -> lo + Z.of_nat (length xs) <= Z.of_nat (length l) ->
  length (store l lo xs) = length l.
Proof.
  intros. unfold store.
  rewrite !length_app, length_take, length_drop. lia.
Qed.

Lemma Shape_boot size t0 : 1 <= size -> Shape (boot (fresh size) t0).
Proof.
  intros. split; unfold pend_p, pend_c, pending_p, pending_c; fields;
    rewrite ?length_replicate; try lia; done.
Qed.

Ltac zsolve :=
  repeat match goal with
  | |- context [Z.rem ?a ?c] =>
      lazymatch goal with
      | _ : 0 <= Z.rem a c < c |- _ => fail
      | _ => assert (0 <= Z.rem a c < c) by (apply Z.rem_bound_pos; lia)
      end
  | _ : context [Z.rem ?a ?c] |- _ =>
      lazymatch goal with
      | _ : 0 <= Z.rem a c < c |- _ => fail
      | _ => assert (0 <= Z.rem a c < c) by (apply Z.rem_bound_pos; lia)
      end
  end; lia.

Ltac shape_fin :=
  try match goal with H : ?x = ?x -> _ |- _ => specialize (H eq_refl) end;
  split; unfold pend_p, pend_c, pending_p, pending_c in *; fields; cbn [wake_consumer wake_producer];
  intros; simplify_eq/=; try done; try zsolve.

Ltac other_side w :=
  match goal with
  | Hp : producer w = _, Hwr : forall lo hi, consumer w = CWrite lo hi -> _ |- _ =>
      rewrite Hp in *; destruct (consumer w) eqn:?;
      try (destruct (Hwr _ _ eq_refl) as (? & ? & ? & ?)); clear Hwr
  | Hc : consumer w = _, Hrd : forall lo hi, producer w = PRead lo hi -> _ |- _ =>
      rewrite Hc in *; destruct (producer w) eqn:?;
      try (destruct (Hrd _ _ eq_refl) as (? & ? & ?)); clear Hrd
  end.

Ltac case_proceeded w :=
  match goal with |- context [after_wait ?b ?t ?s] =>
    let H := fresh in
    assert (H : proceeded b t s (after_wait b t s))
      by (apply after_wait_proceeded; other_side w; fields; zsolve);
    destruct H
  end;
  try match goal with |- context [until_of ?b] =>
    destruct (until_of_bounds b) as [? ?]; [other_side w; fields; zsolve ..|];
    generalize dependent (until_of b); intros ? ? ?
  end.

Ltac case_drained w :=
  match goal with |- context [drain ?b ?t ?s] =>
    let H := fresh in
    assert (H : drained b t s (drain b t s))
      by (apply drain_drained; other_side w; fields; zsolve);
    destruct H
  end;
  try match goal with H : cap_write ?b (filled_range ?b) = _ |- _ =>
    destruct (filled_range_bounds b) as (? & ? & ? & ? & ? & _);
      [other_side w; fields; zsolve ..|];
    rewrite H in *
  end.

Lemma Shape_tstep E w w' : Shape w -> tstep E w w' -> Shape w'.
Proof.
  intros [Hcap Hidx Hpc Hpp Hroom Hinit Hrd Hwr Hnp Hnc] Hstep.
  unfold pend_p, pend_c, pending_p, pending_c in *.
  destruct Hstep as
    [w now now' Hp | w lo hi now data junk err Hp ? Hlen ?
    | w n err dur now Hp | w now Hp
    | w now now' Hc | w lo hi now n err Hc ? Hn ?
    | w n err dur now Hc | w now Hc].
  - specialize (Hinit Hp); unfold ReadFrom_enter;
    rewrite offer_free_ok by (fields; lia);
    match goal with |- context [until_of ?b] =>
           destruct (until_of_bounds b) as [? ?]; [fields; lia ..|] end;
    other_side w; shape_fin.
  - destruct (Hrd _ _ Hp) as (-> & ? & ?). unfold Read_returns.
    other_side w; shape_fin; rewrite ?store_length; rewrite ?length_app; try lia.
  - unfold Read_commit, read_commit.
    destruct (len (shared w) =? 0) eqn:Hz; bools; [fields; lia|].
    destruct err as [e|].
    + unfold after_read. other_side w; shape_fin.
    + change (after_read ?b ?t ?s None) with (after_wait b t s).
      case_proceeded w; other_side w; shape_fin.
  - unfold ReadFrom_wakes. case_proceeded w; other_side w; shape_fin.
  - unfold WriteTo_enter. case_drained w; other_side w; shape_fin.
  - destruct (Hwr _ _ Hc) as (? & ? & ? & ?). unfold Write_returns.
    other_side w; shape_fin.
  - unfold Write_commit. destruct err as [e|].
    + unfold after_write. other_side w; shape_fin.
    + change (after_write ?b ?t ?s None) with (drain b t s).
      case_drained w; other_side w; shape_fin.
     
  - unfold WriteTo_wakes. case_drained w; other_side w; shape_fin.
Qed.

Lemma Shape_step E w w' : Shape w -> step E w w' -> Shape w'.
Proof.
  intros Hs Hstep. destruct Hstep as [w w' Ht | w now Hnow];
    [by eapply Shape_tstep|].
  destruct Hs. by split.
Qed.

Lemma Shape_reachable E w0 w : Shape w0 -> reachable E w0 w -> Shape w.
Proof.
  intros H0 Hr. unfold reachable in Hr.
  induction Hr as [|x y z Hxy _ IH]; [done|].
  apply IH. by eapply Shape_step.
Qed.

Lemma until_of_start_clock b now :
  until_of (start_clock b now) = until_of b.
Proof. reflexivity. Qed.

Lemma tstep_moved E w w' : Shape w -> tstep E w w' -> moved E w w'.
Proof.
  intros [Hcap Hidx Hpc Hpp Hroom Hinit Hrd Hwr Hnp Hnc] Hstep.
  unfold pend_p, pend_c, pending_p, pending_c in *.
  destruct Hstep as
    [w now now' Hp | w lo hi now data junk err Hp ? Hlen ?
    | w n err dur now Hp | w now Hp
    | w now now' Hc | w lo hi now n err Hc ? Hn ?
    | w n err dur now Hc | w now Hc].
  - specialize (Hinit Hp). unfold ReadFrom_enter.
    rewrite offer_free_ok by (fields; lia).
    rewrite until_of_start_clock. by constructor.
  - by econstructor.
  - unfold Read_commit, read_commit.
    destruct (len (shared w) =? 0) eqn:Hz; bools; [fields; lia|].
    destruct err as [e|]; [by apply (mv_Read_failed E w n e dur now)|].
    apply mv_Read_proceeds with (n := n) (dur := dur); [done..|].
    rewrite Hp in *. apply after_wait_proceeded; fields; zsolve.
  - apply mv_ReadFrom_wakes; [done..|].
    apply after_wait_proceeded; fields; zsolve.
  - apply mv_WriteTo_enter with (now := now); [done..|].
    apply drain_drained; fields; lia.
  - by econstructor.
  - unfold Write_commit.
    destruct err as [e|]; [by apply (mv_Write_failed E w n e dur now)|].
    apply mv_Write_drains with (n := n) (dur := dur); [done..|].
    rewrite Hc in *. apply drain_drained; fields; lia.
  - apply mv_WriteTo_wakes; [done..|].
    apply drain_drained; fields; lia.
Qed.

(** ** Arithmetic of positions in the ring *)

Lemma mod_offset P C j :
  0 < C -> 0 <= j -> P mod C + j < C -> (P + j) mod C = P mod C + j.
Proof.
  intros. rewrite <- Zplus_mod_idemp_l. apply Z.mod_small.
  pose proof (Z.mod_pos_bound P C). lia.
Qed.

Lemma mod_outside P Q C i L :
  0 < C -> Q <= i < P -> P - Q + L <= C -> P mod C + L <= C ->
  ~ (P mod C <= i mod C < P mod C + L).
Proof.
  intros HC Hi HL Hfit [Hlo Hhi].
  pose proof (Z.mod_pos_bound P C HC) as HP.
  pose proof (Z.mod_pos_bound i C HC) as Hi'.
  pose proof (Z.div_mod P C) as EP. pose proof (Z.div_mod i C) as Ei.
  set (a := P / C) in *. set (b := i / C) in *.
  set (p := P mod C) in *. set (q := i mod C) in *.
  assert (a = b \/ a + 1 <= b \/ b + 1 <= a) as [Heq|[Hlt|Hgt]] by lia.
  - subst a. rewrite Heq in EP. lia.
  - assert (C * (a + 1) <= C * b) by (apply Z.mul_le_mono_nonneg_l; lia). lia.
  - assert (C * (b + 1) <= C * a) by (apply Z.mul_le_mono_nonneg_l; lia). lia.
Qed.

Lemma mod_tail P Q C : 0 < C -> (P mod C - (P - Q)) mod C = Q mod C.
Proof.
  intros. rewrite Zminus_mod_idemp_l. f_equal. lia.
Qed.

Lemma mod_head P n C : 0 < C -> 0 <= n -> 0 <= P - n ->
  Z.rem ((P - n) mod C + n) C = P mod C.
Proof.
  intros. rewrite Z.rem_mod_nonneg by (try lia; pose proof (Z.mod_pos_bound (P - n) C); lia).
  rewrite Zplus_mod_idemp_l. f_equal. lia.
Qed.

(** ** Reading and writing through slices *)

Lemma view_lookup l lo hi j :
  0 <= lo -> 0 <= j < hi - lo ->
  view l lo hi !! Z.to_nat j = l !! Z.to_nat (lo + j).
Proof.
  intros. unfold view. rewrite lookup_take_lt by lia.
  rewrite lookup_drop. f_equal. lia.
Qed.

Lemma store_lookup_in l lo xs j :
  0 <= lo -> lo + Z.of_nat (length xs) <= Z.of_nat (length l) ->
  0 <= j < Z.of_nat (length xs) ->
  store l lo xs !! Z.to_nat (lo + j) = xs !! Z.to_nat j.
Proof.
  intros. unfold store.
  rewrite lookup_app_r by (rewrite length_take; lia).
  rewrite length_take, lookup_app_l by lia. f_equal. lia.
Qed.

Lemma store_lookup_out l lo xs i :
  0 <= lo -> lo + Z.of_nat (length xs) <= Z.of_nat (length l) ->
  0 <= i -> ~ (lo <= i < lo + Z.of_nat (length xs)) ->
  store l lo xs !! Z.to_nat i = l !! Z.to_nat i.
Proof.
  intros ? ? ? Hout. unfold store.
  destruct (decide (i < lo)).
  - rewrite lookup_app_l by (rewrite length_take; lia).
    by rewrite lookup_take_lt by lia.
  - rewrite lookup_app_r by (rewrite length_take; lia).
    rewrite lookup_app_r by (rewrite length_take; lia).
    rewrite lookup_drop, length_take. f_equal. lia.
Qed.

Lemma view_length l lo hi :
  0 <= lo -> lo <= hi -> hi <= Z.of_nat (length l) ->
  Z.of_nat (length (view l lo hi)) = hi - lo.
Proof. intros. unfold view. rewrite length_take, length_drop. lia. Qed.

(** Storing a chunk in the free region leaves the filled region as it was
    and extends it by the bytes read. *)
Lemma receive_chunk (st src data junk : list Byte.byte) Q lo i :
  let C := Z.of_nat (length st) in
  let P := Z.of_nat (length src) in
  0 < C -> 0 <= Q ->
  (forall i, Q <= i < P -> st !! Z.to_nat (i mod C) = src !! Z.to_nat i) ->
  lo = P mod C ->
  lo + Z.of_nat (length (data ++ junk)) <= C ->
  P - Q + Z.of_nat (length (data ++ junk)) <= C ->
  Q <= i < P + Z.of_nat (length data) ->
  store st lo (data ++ junk) !! Z.to_nat (i mod C)
  = (src ++ data) !! Z.to_nat i.
Proof.
  intros C P HC HQ Hdata Hlo Hfit Hroom Hi.
  pose proof (Z.mod_pos_bound P C HC) as HP.
  pose proof (Z.mod_pos_bound i C HC) as Him.
  rewrite length_app in *.
  destruct (decide (i < P)) as [Hlt|Hge].
  - rewrite lookup_app_l by lia.
    rewrite store_lookup_out; [apply Hdata; lia|lia|rewrite length_app; lia|lia|].
    rewrite length_app, Hlo. apply (mod_outside P Q C i); lia.
  - replace i with (P + (i - P)) by lia.
    rewrite mod_offset by lia. rewrite <- Hlo.
    rewrite store_lookup_in by (rewrite ?length_app; lia).
    rewrite lookup_app_l by lia.
    rewrite lookup_app_r by lia. f_equal. lia.
Qed.

(** The bytes the writer accepts from the filled sub-range are the next
    bytes of the source, in order. *)
Lemma deliver_chunk (st src snk : list Byte.byte) lo hi n :
  let C := Z.of_nat (length st) in
  let P := Z.of_nat (length src) in
  let Q := Z.of_nat (length snk) in
  0 < C ->
  snk = take (length snk) src ->
  (forall i, Q <= i < P -> st !! Z.to_nat (i mod C) = src !! Z.to_nat i) ->
  lo = Q mod C -> 0 <= n <= hi - lo -> hi <= C -> n <= P - Q ->
  snk ++ take (Z.to_nat n) (view st lo hi)
  = take (length snk + length (take (Z.to_nat n) (view st lo hi))) src.
Proof.
  intros C P Q HC Hfifo Hdata Hlo Hn Hhi HnP.
  pose proof (Z.mod_pos_bound Q C HC) as HQ.
  assert (Hchunk : take (Z.to_nat n) (view st lo hi)
                   = take (Z.to_nat n) (drop (length snk) src)).
  { apply list_eq. intros j.
    destruct (decide (j < Z.to_nat n)%nat) as [Hj|Hj].
    - rewrite !lookup_take_lt by done.
      replace j with (Z.to_nat (Z.of_nat j)) at 1 by lia.
      rewrite view_lookup by lia.
      rewrite lookup_drop.
      replace (length snk + j)%nat with (Z.to_nat (Q + Z.of_nat j)) by lia.
      rewrite <- Hdata by lia. f_equal. f_equal.
      rewrite mod_offset; lia.
    - by rewrite !lookup_take_ge by lia. }
  rewrite Hchunk, length_take, length_drop.
  rewrite Hfifo at 1. rewrite take_take_drop. f_equal. lia.
Qed.

Ltac invert_moved H :=
  destruct H as
    [w now now' Hp Hnow Hnow' | w lo hi now data junk err Hp Hnow Hlen Hrule
    | w n e dur now Hp Hnow | w n dur now bp Hp Hnow Hbp
    | w now bp Hp Hnow Hbp
    | w now now' bc Hc Hnow Hnow' Hbc | w lo hi now n err Hc Hnow Hn Hrule
    | w n e dur now Hc Hnow | w n dur now bc Hc Hnow Hbc
    | w now bc Hc Hnow Hbc];
  try (destruct Hbp as [e Hwe | Hwe Hfull | Hwe Hnotfull]);
  try (destruct Hbc as [e Hz Hre | Hz Hre | lo hi Hpos Hcw Hlo]).

(** Once both program counters are known, instantiate or drop the
    hypotheses that are conditional on them. *)
Ltac settle :=
  repeat match goal with
  | H : forall lo hi, ?x = ?f lo hi -> _ |- _ =>
      lazymatch x with
      | producer _ => fail
      | consumer _ => fail
      | _ => first [ specialize (H _ _ eq_refl) | clear H ]
      end
  | H : ?x = ?y -> _ |- _ =>
      lazymatch x with
      | producer _ => fail
      | consumer _ => fail
      | _ => first [ specialize (H eq_refl) | clear H ]
      end
  end.

Ltac known_pcs w :=
  first
    [ match goal with Hp : producer w = _ |- _ => rewrite Hp in * end;
      destruct (consumer w) eqn:?
    | match goal with Hc : consumer w = _ |- _ => rewrite Hc in * end;
      destruct (producer w) eqn:? ];
  cbn [wake_consumer wake_producer] in *; settle.

Ltac own_pc w :=
  repeat match goal with
  | Hp : producer w = _ |- _ => rewrite Hp in *; clear Hp
  | Hc : consumer w = _ |- _ => rewrite Hc in *; clear Hc
  end.

Ltac ring_open :=
  unfold pend_p, pend_c, produced, delivered, Read_returns, Write_returns,
    producer_moves, consumer_moves in *; fields;
  rewrite ?pending_wake_p, ?pending_wake_c in *;
  cbn [pending_p pending_c] in *;
  rewrite ?Z.sub_0_r, ?Z.add_0_r in *.

Ltac unwake :=
  repeat match goal with
  | H : wake_consumer _ = CWrite _ _ |- _ => apply wake_consumer_CWrite in H
  | H : wake_producer _ = PRead _ _ |- _ => apply wake_producer_PRead in H
  | H : wake_consumer ?c = CDone _ _ |- _ => destruct c; simplify_eq/=
  | H : wake_producer ?p = PDone _ _ |- _ => destruct p; simplify_eq/=
  end.

Ltac ring_fin :=
  split; ring_open; intros; unwake; simplify_eq/=; try done; try lia; eauto.

Lemma Ring_moved E w w' :
  Shape w -> Shape w' -> Ring w -> moved E w w' -> Ring w'.
Proof.
  intros Hs Hs' Hr Hm.
  invert_moved Hm;
    destruct Hs as [Hcap Hidx Hpc Hpp Hroom Hinit Hrd Hwr Hnp Hnc];
    destruct Hs' as [Hcap' Hidx' Hpc' Hpp' Hroom' Hinit' Hrd' Hwr' Hnp' Hnc'];
    destruct Hr as [Hhead Hrdy Hfifo Hdata Htail];
    ring_open; settle.
  all: try (pose proof Hp as Hp'; rewrite Hp' in * ).
  all: try (pose proof Hc as Hc'; rewrite Hc' in * ).
  all: ring_open; settle.
  all: split; ring_open; intros; unwake.
  all: rewrite ?store_length, ?length_app in * by (rewrite ?length_app; lia).
  all: simplify_eq/=; try done; try lia; eauto.
  all: try (rewrite Hhead; first
         [ rewrite mod_head by lia; f_equal; lia
         | rewrite Zminus_mod_idemp_l; f_equal; lia
         | f_equal; lia ]).
  all: try (rewrite take_app_le by lia; done).
  - destruct Hrd as (-> & ? & ?).
    apply receive_chunk with (Q := Z.of_nat (length (snk_taken w)));
      rewrite ?length_app; solve [lia | done].
  - destruct Hwr as (? & ? & ? & ?).
    match goal with |- context [view ?l ?a ?b] =>
      pose proof (view_length l a b ltac:(lia) ltac:(lia) ltac:(lia)) end.
    rewrite length_take. lia.
  - destruct Hwr as (? & ? & ? & ?).
    apply deliver_chunk; solve [lia | done].
  - destruct Hwr as (? & ? & ? & ?).
    match goal with H : context [view ?l ?a ?b] |- _ =>
      pose proof (view_length l a b ltac:(lia) ltac:(lia) ltac:(lia)) end.
    apply Hdata. rewrite length_take in *. lia.
Qed.

(** ** Errors and waiting *)

Lemma Protocol_boot size t0 : Protocol (boot (fresh size) t0).
Proof. split; fields; intros; simplify_eq/=; auto. Qed.

Ltac proto_open :=
  unfold Read_returns, Write_returns, producer_moves, consumer_moves in *;
  fields.

Lemma Protocol_moved E w w' :
  Shape w -> Protocol w -> moved E w w' -> Protocol w'.
Proof.
  intros Hs Hq Hm.
  invert_moved Hm;
    destruct Hs as [Hcap Hidx Hpc Hpp Hroom Hinit Hrd Hwr Hnp Hnc];
    destruct Hq as [Hrerr Hwerr Hpdone Hcdone Hpwait Hcwait Hpinit];
    proto_open; known_pcs w; proto_open.
  all: split; proto_open; intros; simplify_eq/=; try done.
  all: try (exfalso; lia).
  all: try (destruct (readError (shared w)) eqn:?;
    try (edestruct Hrerr as (? & ? & ?); [done|]; discriminate)).
  all: try (destruct (writeError (shared w)) eqn:?;
    try (edestruct Hwerr as (? & ? & ? & ?); [done|]; discriminate)).
  all: try done.
  all: try (exfalso; lia).
  all: try solve [intuition (simplify_eq/=; eauto 8)].
  all: try (destruct Hcdone as [(? & ? & ?)|(? & ? & ? & ? & ?)]; discriminate).
  all: try (destruct Hpdone as [(? & ? & ?)|(? & ? & ? & ?)]; discriminate).
Qed.

(** ** Counters *)

Lemma wrap64_small z : - 2 ^ 63 <= z < 2 ^ 63 -> wrap64 z = z.
Proof. intros. unfold wrap64. rewrite Z.mod_small; lia. Qed.

Lemma add64_wrap a b : add64 (wrap64 a) b = wrap64 (a + b).
Proof.
  unfold add64, wrap64. f_equal.
  replace ((a + 2 ^ 63) mod 2 ^ 64 - 2 ^ 63 + b + 2 ^ 63)
    with ((a + 2 ^ 63) mod 2 ^ 64 + b) by lia.
  rewrite Zplus_mod_idemp_l. f_equal. lia.
Qed.

Lemma add64_small a b : - 2 ^ 63 <= a + b < 2 ^ 63 -> add64 a b = a + b.
Proof. intros. by apply wrap64_small. Qed.

Lemma Ledger_boot size t0 : Ledger (boot (fresh size) t0).
Proof.
  split; unfold produced, delivered, pend_p, pend_c; fields;
    intros; simplify_eq/=; auto.
Qed.

Lemma Ledger_moved E w w' :
  Shape w -> Ledger w -> moved E w w' -> Ledger w'.
Proof.
  intros Hs Hl Hm.
  invert_moved Hm;
    destruct Hs as [Hcap Hidx Hpc Hpp Hroom Hinit Hrd Hwr Hnp Hnc];
    destruct Hl as [Htot Hps Hcs Hpd Hcd Hrq];
    ring_open; settle.
  all: try (pose proof Hp as Hp'; rewrite Hp' in * ).
  all: try (pose proof Hc as Hc'; rewrite Hc' in * ).
  all: ring_open; settle.
  all: split; ring_open; intros; unwake.
  all: rewrite ?store_length, ?length_app in * by (rewrite ?length_app; lia).
  all: simplify_eq/=; try done; eauto.
  all: try (rewrite ?Htot, ?Hps, ?Hcs, ?add64_wrap; f_equal; lia).
  - destruct Hwr as (? & ? & ? & ?).
    rewrite Hcs, add64_wrap. f_equal.
    pose proof (view_length (buf (shared w)) lo hi ltac:(lia) ltac:(lia) ltac:(lia)).
    rewrite length_take. lia.
  - destruct Hwr as (? & ? & ? & ?).
    apply Forall_app. split; [done|]. apply Forall_singleton.
    pose proof (view_length (buf (shared w)) lo hi ltac:(lia) ltac:(lia) ltac:(lia)).
    lia.
Qed.

(** ** Time accounting *)

Lemma Timing_boot size t0 : Timing t0 (boot (fresh size) t0).
Proof. split; fields; cbn; intros; simplify_eq/=; auto; lia. Qed.

Lemma read_phase_wake t0 clk p t :
  read_phase t0 clk (wake_producer p) t <-> read_phase t0 clk p t.
Proof. by destruct p. Qed.

Lemma write_phase_wake t0 clk c t :
  write_phase t0 clk (wake_consumer c) t <-> write_phase t0 clk c t.
Proof. by destruct c. Qed.

Lemma total_phase_wake c t : total_phase (wake_consumer c) t <-> total_phase c t.
Proof. by destruct c. Qed.

Lemma read_phase_later t0 clk clk' p t :
  clk <= clk' -> read_phase t0 clk p t -> read_phase t0 clk' p t.
Proof.
  intros ?. destruct p; cbn; try done.
  - intros (u & ? & ?). exists u. split; [done|lia].
  - intros (u & ? & ? & ? & ?). exists u. repeat split; try done; lia.
Qed.

Lemma write_phase_later t0 clk clk' c t :
  clk <= clk' -> write_phase t0 clk c t -> write_phase t0 clk' c t.
Proof.
  intros ?. destruct c; cbn; try done.
  - intros (u & ? & ?). exists u. split; [done|lia].
  - intros (u & ? & ? & ? & ?). exists u. repeat split; try done; lia.
Qed.

Lemma phase_base_later clk clk' t :
  clk <= clk' -> phase_base clk t <= phase_base clk' t.
Proof. intros. destruct t; cbn; lia. Qed.

Lemma Since_exact now u :
  0 <= now - u <= maxDuration -> Since now (At u) = now - u.
Proof. unfold Since, maxDuration, minDuration. lia. Qed.

Lemma moved_clock E w w' : moved E w w' -> clock w <= clock w'.
Proof. intros Hm. invert_moved Hm; fields; cbn; lia. Qed.

Ltac time_fin :=
  lazymatch goal with Hnow : clock ?w <= ?now |- _ =>
    try (by destruct (consumer w));
    repeat match goal with
    | H : exists u, _ |- _ => destruct H as (? & ? & ?)
    | H : _ /\ _ |- _ => destruct H
    end;
    repeat match goal with
    | H : clock w <= ?t |- _ =>
        lazymatch goal with
        | _ : phase_base (clock w) (timeStarted (shared w)) <= phase_base t _ |- _ => fail
        | _ =>
          pose proof (phase_base_later (clock w) t (timeStarted (shared w)) H);
          pose proof (phase_base_later (clock w) t (lastReadStarted (shared w)) H);
          pose proof (phase_base_later (clock w) t (lastWriteStarted (shared w)) H)
        end
    end;
    try lia;
    repeat match goal with
    | H : lastReadStarted (shared w) = _ |- _ => rewrite H in *; clear H
    | H : lastWriteStarted (shared w) = _ |- _ => rewrite H in *; clear H
    end;
    destruct (timeStarted (shared w)) eqn:?;
    repeat match goal with
    | H : forall u, At _ = At u -> _ |- _ => specialize (H _ eq_refl)
    end;
    unfold Since, maxDuration, minDuration in *;
    cbn [IsZero phase_base total_phase] in *; simplify_eq/=;
    try done; try lia;
    try (eexists; split; [reflexivity|]);
    try (rewrite add64_small by lia);
    try lia;
    try (by destruct (consumer w))
  end.

Lemma Timing_moved E t0 w w' :
  Shape w -> Timed t0 w -> moved E w w' -> Timed t0 w'.
Proof.
  intros Hs Ht Hm Hclk.
  pose proof (moved_clock _ _ _ Hm) as Hmono.
  destruct Ht as [Hck Hst Hrun Hrp Hwp Hrt Hwt Htt]; [lia|].
  destruct Hs as [Hcap Hidx Hpc Hpp Hroom Hinit Hrd Hwr Hnp Hnc].
  invert_moved Hm; proto_open.
  all: try (pose proof Hp as Hp'; rewrite Hp' in * ).
  all: try (pose proof Hc as Hc'; rewrite Hc' in * ).
  all: cbn [read_phase write_phase total_phase] in *.
  all: split; proto_open;
    rewrite ?read_phase_wake, ?write_phase_wake, ?total_phase_wake;
    cbn [read_phase write_phase total_phase phase_base IsZero];
    intros; simplify_eq/=; try done; try lia.
  all: eauto using read_phase_later, write_phase_later.
  all: time_fin.
Qed.

Lemma Ring_boot size t0 : Ring (boot (fresh size) t0).
Proof.
  split; unfold produced, delivered, pend_p, pend_c; fields;
    intros; simplify_eq/=; auto; lia.
Qed.

Lemma Inv_boot size t0 : 1 <= size -> Inv t0 (boot (fresh size) t0).
Proof.
  intros. split.
  - by apply Shape_boot.
  - apply Ring_boot.
  - apply Protocol_boot.
  - apply Ledger_boot.
  - intros _. apply Timing_boot.
Qed.

Lemma Timed_Stats t0 w now :
  clock w <= now -> Timed t0 w -> Timed t0 (Stats_called w now).
Proof.
  intros Hnow Ht Hclk. fields.
  destruct Ht as [Hck Hst Hrun Hrp Hwp Hrt Hwt Htt]; [lia|].
  pose proof (phase_base_later (clock w) now (timeStarted (shared w)) Hnow).
  pose proof (phase_base_later (clock w) now (lastReadStarted (shared w)) Hnow).
  pose proof (phase_base_later (clock w) now (lastWriteStarted (shared w)) Hnow).
  split; fields; eauto using read_phase_later, write_phase_later; try lia.
  intros u Hu. specialize (Hst u Hu). lia.
Qed.

Lemma Inv_step E t0 w w' : Inv t0 w -> step E w w' -> Inv t0 w'.
Proof.
  intros [Hs Hr Hq Hl Ht] Hstep.
  destruct Hstep as [w w' Hts | w now Hnow].
  - pose proof (tstep_moved E w w' Hs Hts) as Hm.
    pose proof (Shape_tstep E w w' Hs Hts) as Hs'.
    split; eauto using Ring_moved, Protocol_moved, Ledger_moved, Timing_moved.
  - split.
    + destruct Hs. by split.
    + destruct Hr. by split.
    + destruct Hq. by split.
    + destruct Hl. by split.
    + by apply Timed_Stats.
Qed.

Lemma Inv_reachable E t0 w0 w :
  Inv t0 w0 -> reachable E w0 w -> Inv t0 w.
Proof.
  intros H0 Hr. unfold reachable in Hr.
  induction Hr as [|x y z Hxy _ IH]; [done|].
  apply IH. by eapply Inv_step.
Qed.

(** Every world a [Copy] on a new buffer of capacity at least one can be
    in satisfies the invariants. *)
Lemma Copy_Inv E size b t0 w :
  New size = Some b -> 1 <= size -> reachable E (boot b t0) w -> Inv t0 w.
Proof.
  unfold New. intros Hnew Hsize Hr.
  destruct (size <? 0); simplify_eq.
  eapply Inv_reachable; [|done]. by apply Inv_boot.
Qed.

(** ** The capacity never changes *)

Lemma len_step E w w' : Shape w -> step E w w' -> len (shared w') = len (shared w).
Proof.
  intros Hs Hstep. destruct Hstep as [w w' Hts | w now Hnow]; [|done].
  pose proof (tstep_moved E _ _ Hs Hts) as Hm.
  destruct Hs as [Hcap Hidx Hpc Hpp Hroom Hinit Hrd Hwr Hnp Hnc].
  invert_moved Hm; proto_open; try done.
  destruct (Hrd _ _ Hp) as (-> & ? & ?).
  rewrite store_length; rewrite ?length_app; lia.
Qed.

Lemma len_reachable E w0 w :
  Shape w0 -> reachable E w0 w -> len (shared w) = len (shared w0).
Proof.
  intros H0 Hr. unfold reachable in Hr.
  induction Hr as [|x y z Hxy _ IH]; [done|].
  rewrite IH by (by eapply Shape_step). by eapply len_step.
Qed.

Lemma Copy_len E size b t0 w :
  New size = Some b -> 1 <= size -> reachable E (boot b t0) w ->
  len (shared w) = size.
Proof.
  unfold New. intros Hnew Hsize Hr. destruct (size <? 0); simplify_eq.
  erewrite len_reachable; [|by apply Shape_boot|done].
  fields. rewrite length_replicate. lia.
Qed.

(** ** The index arithmetic stays in range *)

Lemma Fits_step E w w' : Shape w -> Fits w -> step E w w' -> Fits w'.
Proof.
  intros Hs Hf Hstep. destruct Hstep as [w w' Hts | w now Hnow]; [|done].
  pose proof (tstep_moved E _ _ Hs Hts) as Hm.
  pose proof (Shape_tstep E _ _ Hs Hts) as Hs'.
  destruct Hs' as [_ Hidx' _ _ _ _ _ _ _ _].
  destruct Hs as [Hcap Hidx Hpc Hpp Hroom Hinit Hrd Hwr Hnp Hnc].
  unfold Fits, pend_p, pending_p in *.
  invert_moved Hm; proto_open; fields; try lia.
  all: try (destruct (producer w); cbn [wake_producer]; lia).
  destruct (Hrd _ _ Hp) as (-> & ? & ?).
  rewrite store_length in *; rewrite ?length_app; lia.
Qed.

Lemma Fits_reachable E w0 w :
  Shape w0 -> Fits w0 -> reachable E w0 w -> Fits w.
Proof.
  intros Hs Hf Hr. unfold reachable in Hr.
  induction Hr as [|x y z Hxy _ IH]; [done|].
  apply IH; [by eapply Shape_step | by eapply Fits_step].
Qed.

(** No [int] expression of [ReadFrom] and [WriteTo] leaves the range from
    [-C] to [C]. *)
Lemma index_arithmetic_in_range E size b t0 w :
  New size = Some b -> 1 <= size -> reachable E (boot b t0) w ->
  let sh := shared w in
  0 <= readIndex sh + pend_p w <= size /\
  0 <= ready sh + pend_p w <= size /\
  0 <= ready sh - pend_c w /\
  - size <= readIndex sh - ready sh < size /\
  (readIndex sh <= ready sh -> 0 <= readIndex sh - ready sh + size <= size).
Proof.
  intros Hnew Hsize Hr sh. subst sh.
  pose proof (Copy_len E size b t0 w Hnew Hsize Hr) as Hsz.
  destruct (Copy_Inv E size b t0 w Hnew Hsize Hr) as [Hs _ _ _ _].
  assert (Hf : Fits w).
  { unfold New in Hnew. destruct (size <? 0); simplify_eq.
    eapply Fits_reachable; [by apply Shape_boot| |done].
    unfold Fits, pend_p. fields. cbn. rewrite length_replicate. lia. }
  destruct Hs as [Hcap Hidx Hpc Hpp Hroom Hinit Hrd Hwr Hnp Hnc].
  unfold Fits in Hf. lia.
Qed.

Lemma maxWrite_spec c : 0 <= c -> maxWrite c = Z.max 1 (c / 8).
Proof.
  intros. unfold maxWrite. rewrite Z.quot_div_nonneg by lia.
  case_match; bools; lia.
Qed.

(** ** The short run is a run *)

Module DemoRun.
Lemma step01 : step any_env Demo.w0 Demo.w1.
Proof. apply step_transfer. by apply step_ReadFrom_enter. Qed.

Lemma step12 : step any_env Demo.w1 Demo.w2.
Proof. apply step_transfer. by apply step_Read_returns with (hi := 4). Qed.

Lemma step23 : step any_env Demo.w2 Demo.w3.
Proof. by apply step_Stats. Qed.

Lemma step34 : step any_env Demo.w3 Demo.w4.
Proof. apply step_transfer. by apply step_Read_commit. Qed.

Lemma step45 : step any_env Demo.w4 Demo.w5.
Proof. apply step_transfer. by apply step_WriteTo_enter. Qed.

Lemma step56 : step any_env Demo.w5 Demo.w6.
Proof. apply step_transfer. by apply step_Write_returns. Qed.

Lemma step67 : step any_env Demo.w6 Demo.w7.
Proof. apply step_transfer. by apply step_Write_commit. Qed.

Lemma step78 : step any_env Demo.w7 Demo.w8.
Proof. apply step_transfer. by apply step_Read_returns with (hi := 4). Qed.

Lemma reach3 : reachable any_env Demo.w0 Demo.w3.
Proof.
  eapply rtc_l; [apply step01|]. eapply rtc_l; [apply step12|].
  eapply rtc_l; [apply step23|]. apply rtc_refl.
Qed.

Lemma reach4 : reachable any_env Demo.w0 Demo.w4.
Proof. eapply rtc_r; [apply reach3|apply step34]. Qed.

Lemma reach5 : reachable any_env Demo.w0 Demo.w5.
Proof. eapply rtc_r; [apply reach4|apply step45]. Qed.

Lemma reach6 : reachable any_env Demo.w0 Demo.w6.
Proof. eapply rtc_r; [apply reach5|apply step56]. Qed.

Lemma reach7 : reachable any_env Demo.w0 Demo.w7.
Proof. eapply rtc_r; [apply reach6|apply step67]. Qed.

Lemma reach8 : reachable any_env Demo.w0 Demo.w8.
Proof. eapply rtc_r; [apply reach7|apply step78]. Qed.

Example w4_state :
  producer Demo.w4 = PRead 1 4 /\ readIndex (shared Demo.w4) = 1 /\
  ready (shared Demo.w4) = 1 /\ timeSpentReading (shared Demo.w4) = 10.
Proof. by vm_compute. Qed.

Example w7_state :
  consumer Demo.w7 = CDone 0 (Some (Errorf "write error" (Failure "disk full"))).
Proof. by vm_compute. Qed.
End DemoRun.

(** ** Capacity bound, chunking cap, slices *)

(** C4. In every world of a transfer the count of buffered bytes [ready]
    stays within [0, C]; so do the bytes read from the source and not yet
    accepted by the sink; and every step of [ReadFrom], [WriteTo] and
    [Stats] keeps it so. *)
Theorem ready_within_capacity E size b t0 w :
  New size = Some b -> 1 <= size -> reachable E (boot b t0) w ->
  len (shared w) = size /\
  0 <= ready (shared w) <= size /\
  0 <= produced w - delivered w <= size /\
  (forall w', step E w w' -> 0 <= ready (shared w') <= size).
Proof.
  intros Hnew Hsize Hr.
  assert (Hgen : forall w, reachable E (boot b t0) w ->
    len (shared w) = size /\ 0 <= ready (shared w) <= size /\
    0 <= produced w - delivered w <= size).
  { clear w Hr. intros w Hr.
    pose proof (Copy_len E size b t0 w Hnew Hsize Hr) as Hlen.
    destruct (Copy_Inv E size b t0 w Hnew Hsize Hr) as [Hs Hring _ _ _].
    destruct Hs as [Hcap Hidx Hpc Hpp Hroom Hinit Hrd Hwr Hnp Hnc].
    destruct Hring as [Hhead Hrdy Hfifo Hdata Htail]. lia. }
  destruct (Hgen w Hr) as (? & ? & ?). split_and!; try done; try lia.
  intros w' Hstep. apply Hgen. by eapply rtc_r.
Qed.

Lemma ready_within_capacity_witness :
  len (shared Demo.w5) = 4 /\
  0 <= ready (shared Demo.w5) <= 4 /\
  0 <= produced Demo.w5 - delivered Demo.w5 <= 4 /\
  (forall w', step any_env Demo.w5 w' -> 0 <= ready (shared w') <= 4).
Proof.
  apply (ready_within_capacity any_env 4 (fresh 4) 0 Demo.w5).
  - reflexivity.
  - lia.
  - apply DemoRun.reach5.
Defined.

(** C3. Every slice [WriteTo] passes to [w.Write] has length at most
    [max(1, C/8)]. *)
Theorem write_chunk_cap E size b t0 w :
  New size = Some b -> 1 <= size -> reachable E (boot b t0) w ->
  Forall (fun req : list Byte.byte =>
            Z.of_nat (length req) <= Z.max 1 (size / 8)) (snk_reqs w) /\
  (forall lo hi, consumer w = CWrite lo hi ->
     Z.of_nat (length (view (buf (shared w)) lo hi)) <= Z.max 1 (size / 8)).
Proof.
  intros Hnew Hsize Hr.
  pose proof (Copy_len E size b t0 w Hnew Hsize Hr) as Hlen.
  destruct (Copy_Inv E size b t0 w Hnew Hsize Hr) as [Hs _ _ Hl _].
  rewrite <- maxWrite_spec, <- Hlen by lia. split.
  - eapply Forall_impl; [apply (led_reqs _ Hl)|]. intros req ?. cbn in *. lia.
  - intros lo hi Hc.
    destruct (shape_write _ Hs lo hi Hc) as (? & ? & ? & ?).
    unfold len in *. rewrite view_length; lia.
Qed.

Lemma write_chunk_cap_witness :
  Forall (fun req : list Byte.byte =>
            Z.of_nat (length req) <= Z.max 1 (4 / 8)) (snk_reqs Demo.w6) /\
  (forall lo hi, consumer Demo.w6 = CWrite lo hi ->
     Z.of_nat (length (view (buf (shared Demo.w6)) lo hi)) <= Z.max 1 (4 / 8)).
Proof.
  apply (write_chunk_cap any_env 4 (fresh 4) 0 Demo.w6).
  - reflexivity.
  - lia.
  - apply DemoRun.reach6.
Defined.

(** C10. With capacity at least one, no slice expression or remainder
    panics; the slice handed to [r.Read] and the slice handed to [w.Write]
    are never empty and lie inside the storage; and a free sub-range is
    computed only when the ring is not full, a filled sub-range only when
    it is not empty. *)
Theorem slices_nonempty_in_bounds E size b t0 w :
  New size = Some b -> 1 <= size -> reachable E (boot b t0) w ->
  producer w <> PPanic /\ consumer w <> CPanic /\
  (forall lo hi, producer w = PRead lo hi -> 0 <= lo < hi /\ hi <= size) /\
  (forall lo hi, consumer w = CWrite lo hi -> 0 <= lo < hi /\ hi <= size) /\
  Forall (fun req : list Byte.byte => 1 <= Z.of_nat (length req))
    (snk_reqs w) /\
  (forall w' lo hi, tstep E w w' -> producer w' = PRead lo hi ->
     producer w <> PRead lo hi -> ready (shared w') < size) /\
  (forall w' lo hi, tstep E w w' -> consumer w' = CWrite lo hi ->
     consumer w <> CWrite lo hi -> 0 < ready (shared w')).
Proof.
  intros Hnew Hsize Hr.
  pose proof (Copy_len E size b t0 w Hnew Hsize Hr) as Hsz.
  destruct (Copy_Inv E size b t0 w Hnew Hsize Hr) as [Hs _ _ Hl _].
  split_and!.
  - apply (shape_no_panic_p _ Hs).
  - apply (shape_no_panic_c _ Hs).
  - intros lo hi Hp. destruct (shape_read _ Hs lo hi Hp) as (? & ? & ?).
    pose proof (shape_idx _ Hs). lia.
  - intros lo hi Hc. destruct (shape_write _ Hs lo hi Hc) as (? & ? & ? & ?).
    lia.
  - eapply Forall_impl; [apply (led_reqs _ Hl)|]. intros req ?. cbn in *. lia.
  - intros w' lo' hi' Hts Hp' Hne. rewrite <- Hsz.
    pose proof (tstep_moved E _ _ Hs Hts) as Hm. clear Hr Hl Hts.
    destruct Hs as [Hcap Hidx Hpc Hpp Hroom Hinit Hrd Hwr Hnp Hnc].
    unfold pend_p, pend_c in *.
    invert_moved Hm; proto_open; simplify_eq/=; unwake; try done; try lia.
    specialize (Hinit Hp). lia.
  - intros w' lo' hi' Hts Hc' Hne.
    pose proof (tstep_moved E _ _ Hs Hts) as Hm. clear Hr Hl Hts.
    destruct Hs as [Hcap Hidx Hpc Hpp Hroom Hinit Hrd Hwr Hnp Hnc].
    invert_moved Hm; proto_open; simplify_eq/=; unwake; try done; try lia.
Qed.

Lemma slices_nonempty_in_bounds_witness :
  producer Demo.w5 <> PPanic /\ consumer Demo.w5 <> CPanic /\
  (forall lo hi, producer Demo.w5 = PRead lo hi -> 0 <= lo < hi /\ hi <= 4) /\
  (forall lo hi, consumer Demo.w5 = CWrite lo hi -> 0 <= lo < hi /\ hi <= 4) /\
  Forall (fun req : list Byte.byte => 1 <= Z.of_nat (length req))
    (snk_reqs Demo.w5) /\
  (forall w' lo hi, tstep any_env Demo.w5 w' -> producer w' = PRead lo hi ->
     producer Demo.w5 <> PRead lo hi -> ready (shared w') < 4) /\
  (forall w' lo hi, tstep any_env Demo.w5 w' -> consumer w' = CWrite lo hi ->
     consumer Demo.w5 <> CWrite lo hi -> 0 < ready (shared w')).
Proof.
  apply (slices_nonempty_in_bounds any_env 4 (fresh 4) 0 Demo.w5).
  - reflexivity.
  - lia.
  - apply DemoRun.reach5.
Defined.

(** ** Layout of the ring *)

Lemma fillStart_mod b :
  0 <= readIndex b < len b -> 0 <= ready b <= len b ->
  fillStart b = (readIndex b - ready b) mod len b.
Proof.
  intros Hr Hk. unfold fillStart, filled_range.
  destruct (readIndex b - ready b >=? 0) eqn:Hge; bools; cbn [fst].
  - by rewrite Z.mod_small by lia.
  - rewrite <- (Z.mod_small (readIndex b - ready b + len b) (len b)) by lia.
    rewrite <- (Z_mod_plus_full (readIndex b - ready b) 1 (len b)).
    f_equal. lia.
Qed.

(** C9, as the code has it. [readIndex] is the index where the next byte
    from the source is stored; the next byte to be consumed is at
    [fillStart = (readIndex - ready) mod C]; so the free region starts at
    [readIndex = (fillStart + ready) mod C] and has length [C - ready].
    The sub-range offered to [r.Read] starts there and is the contiguous
    part of the free region up to the end of the storage; the sub-range
    taken by [WriteTo] starts at [fillStart] and is the contiguous part of
    the filled region. *)
Theorem ring_layout E size b t0 w :
  New size = Some b -> 1 <= size -> reachable E (boot b t0) w ->
  let sh := shared w in
  fillStart sh = (readIndex sh - ready sh) mod size /\
  readIndex sh = (fillStart sh + ready sh) mod size /\
  (forall lo hi, producer w = PRead lo hi ->
     lo = (fillStart sh + ready sh) mod size /\
     hi - lo <= size - ready sh /\ hi <= size) /\
  (forall lo hi, consumer w = CWrite lo hi ->
     lo = fillStart sh /\ hi - lo <= ready sh /\ hi <= size) /\
  (ready sh < size ->
     until_of sh - readIndex sh
     = Z.min (size - ready sh) (size - readIndex sh)) /\
  (snd (filled_range sh) - fst (filled_range sh)
     = Z.min (ready sh) (size - fillStart sh)).
Proof.
  intros Hnew Hsize Hr sh. subst sh.
  pose proof (Copy_len E size b t0 w Hnew Hsize Hr) as Hsz.
  destruct (Copy_Inv E size b t0 w Hnew Hsize Hr) as [Hs Hring _ _ _].
  destruct Hs as [Hcap Hidx Hpc Hpp Hroom Hinit Hrd Hwr Hnp Hnc].
  destruct Hring as [Hhead Hrdy Hfifo Hdata Htail].
  assert (Hfs : fillStart (shared w)
                = (readIndex (shared w) - ready (shared w)) mod size).
  { rewrite <- Hsz. apply fillStart_mod; lia. }
  assert (Hri : readIndex (shared w)
                = (fillStart (shared w) + ready (shared w)) mod size).
  { rewrite Hfs, Zplus_mod_idemp_l.
    rewrite <- (Z.mod_small (readIndex (shared w)) size) at 1 by lia.
    f_equal. lia. }
  split_and!; try done.
  - intros lo hi Hp. destruct (Hrd lo hi Hp) as (-> & ? & ?).
    split; [done|lia].
  - intros lo hi Hc. destruct (Hwr lo hi Hc) as (? & ? & ? & ?).
    split; [|lia]. rewrite (Htail lo hi Hc), Hfs, Hhead, Hrdy, <- Hsz.
    unfold pend_c. rewrite Hc. cbn [pending_c].
    rewrite Zminus_mod_idemp_l. f_equal. lia.
  - intros Hroom'. unfold until_of. rewrite Hsz. case_match; bools; lia.
  - pose proof (Z.mod_pos_bound (readIndex (shared w) - ready (shared w)) size).
    unfold fillStart in *. unfold filled_range in *. rewrite Hsz in *.
    destruct (readIndex (shared w) - ready (shared w) >=? 0) eqn:Hge;
      bools; cbn [fst snd] in *; lia.
Qed.

Lemma ring_layout_witness :
  let sh := shared Demo.w4 in
  fillStart sh = (readIndex sh - ready sh) mod 4 /\
  readIndex sh = (fillStart sh + ready sh) mod 4 /\
  (forall lo hi, producer Demo.w4 = PRead lo hi ->
     lo = (fillStart sh + ready sh) mod 4 /\
     hi - lo <= 4 - ready sh /\ hi <= 4) /\
  (forall lo hi, consumer Demo.w4 = CWrite lo hi ->
     lo = fillStart sh /\ hi - lo <= ready sh /\ hi <= 4) /\
  (ready sh < 4 ->
     until_of sh - readIndex sh = Z.min (4 - ready sh) (4 - readIndex sh)) /\
  (snd (filled_range sh) - fst (filled_range sh)
     = Z.min (ready sh) (4 - fillStart sh)).
Proof.
  apply (ring_layout any_env 4 (fresh 4) 0 Demo.w4).
  - reflexivity.
  - lia.
  - apply DemoRun.reach4.
Defined.

(** C9 as the claim words it fails: after one byte has been read into a
    ring of capacity 4, the next byte to be consumed is at index 0 and one
    byte is buffered; the claim puts the free region at [(0 - 1) mod 4 = 3],
    but [ReadFrom] offers [b.buf[1:4]].  Reading [fillStart] as the field
    [readIndex] does not help: [(1 - 1) mod 4 = 0] is where the filled
    region starts. *)
Lemma ring_layout_counterexample :
  reachable any_env (boot (fresh 4) 0) Demo.w4 /\
  producer Demo.w4 = PRead 1 4 /\
  readIndex (shared Demo.w4) = 1 /\
  fillStart (shared Demo.w4) = 0 /\
  ready (shared Demo.w4) = 1 /\
  (fillStart (shared Demo.w4) - ready (shared Demo.w4))
    mod len (shared Demo.w4) = 3 /\
  (readIndex (shared Demo.w4) - ready (shared Demo.w4))
    mod len (shared Demo.w4) = 0.
Proof. split; [apply DemoRun.reach4|]. by vm_compute. Qed.

(** ** Snapshots *)

Lemma with_open_phase_exact acc now t :
  0 <= acc -> 0 <= elapsed now t -> acc + elapsed now t <= maxDuration ->
  with_open_phase acc now t = acc + elapsed now t.
Proof.
  intros. unfold with_open_phase. destruct t as [|u]; cbn in *; [lia|].
  unfold maxDuration, minDuration in *.
  rewrite add64_small; lia.
Qed.

(** C7. [Stats] reads the clock once and reports, for each of the three
    timers, the accumulated duration plus the time in the open phase, if
    any; and the buffered byte count, the capacity and the bytes read.  On
    a new buffer all of these but the capacity are zero. *)
Theorem Stats_snapshot E size b t0 w now :
  New size = Some b -> 1 <= size -> reachable E (boot b t0) w ->
  clock w <= now -> now - t0 <= maxDuration ->
  let sh := shared w in
  TotalTime (Stats sh now)
    = totalTimeSpent sh + elapsed now (timeStarted sh) /\
  TimeSpentReading (Stats sh now)
    = timeSpentReading sh + elapsed now (lastReadStarted sh) /\
  TimeSpentWriting (Stats sh now)
    = timeSpentWriting sh + elapsed now (lastWriteStarted sh) /\
  BufferedBytes (Stats sh now) = ready sh /\
  BufferCapacity (Stats sh now) = size /\
  BytesRead (Stats sh now) = totalBytesRead sh /\
  (forall t, Stats b t = mkStats size 0 0 0 0 0).
Proof.
  intros Hnew Hsize Hr Hnow Hclk sh. subst sh.
  pose proof (Copy_len E size b t0 w Hnew Hsize Hr) as Hsz.
  destruct (Copy_Inv E size b t0 w Hnew Hsize Hr) as [_ _ _ _ Ht].
  destruct Ht as [Hck Hst Hrun Hrp Hwp Hrt Hwt Htt]; [lia|].
  cbn [Stats TotalTime TimeSpentReading TimeSpentWriting BufferedBytes
       BufferCapacity BytesRead].
  assert (Hr' : exists u, lastReadStarted (shared w) = At u /\ t0 <= u <= clock w
                \/ lastReadStarted (shared w) = TimeZero).
  { destruct (producer w); cbn in Hrp; try (exists 0; by right).
    - destruct Hrp as (u & ? & ?). exists u. by left.
    - destruct Hrp as (u & ? & ? & ? & ?). exists u. left. split; [done|lia]. }
  assert (Hw' : exists u, lastWriteStarted (shared w) = At u /\ t0 <= u <= clock w
                \/ lastWriteStarted (shared w) = TimeZero).
  { destruct (consumer w); cbn in Hwp; try (exists 0; by right).
    - destruct Hwp as (u & ? & ?). exists u. by left.
    - destruct Hwp as (u & ? & ? & ? & ?). exists u. left. split; [done|lia]. }
  destruct Hr' as (ur & Hr'). destruct Hw' as (uw & Hw').
  split_and!; try done.
  - destruct (timeStarted (shared w)) as [|u] eqn:Ets.
    + cbn. lia.
    + specialize (Hst u eq_refl). cbn [phase_base] in Htt.
      apply with_open_phase_exact; cbn; lia.
  - destruct Hr' as [[Hx ?]|Hx]; rewrite Hx in *; cbn [phase_base] in *.
    + apply with_open_phase_exact; cbn; lia.
    + cbn. lia.
  - destruct Hw' as [[Hx ?]|Hx]; rewrite Hx in *; cbn [phase_base] in *.
    + apply with_open_phase_exact; cbn; lia.
    + cbn. lia.
  - unfold New in Hnew. destruct (size <? 0) eqn:?; simplify_eq.
    intros t. unfold Stats, fresh, len. cbn. rewrite length_replicate.
    f_equal. lia.
Qed.

Lemma Stats_snapshot_witness :
  let sh := shared Demo.w3 in
  TotalTime (Stats sh 25)
    = totalTimeSpent sh + elapsed 25 (timeStarted sh) /\
  TimeSpentReading (Stats sh 25)
    = timeSpentReading sh + elapsed 25 (lastReadStarted sh) /\
  TimeSpentWriting (Stats sh 25)
    = timeSpentWriting sh + elapsed 25 (lastWriteStarted sh) /\
  BufferedBytes (Stats sh 25) = ready sh /\
  BufferCapacity (Stats sh 25) = 4 /\
  BytesRead (Stats sh 25) = totalBytesRead sh /\
  (forall t, Stats (fresh 4) t = mkStats 4 0 0 0 0 0).
Proof.
  apply (Stats_snapshot any_env 4 (fresh 4) 0 Demo.w3 25).
  - reflexivity.
  - lia.
  - apply DemoRun.reach3.
  - by vm_compute.
  - by vm_compute.
Defined.

Lemma reading_now_wake clk p t :
  reading_now clk (wake_producer p) t = reading_now clk p t.
Proof. by destruct p. Qed.

Lemma writing_now_wake clk c t :
  writing_now clk (wake_consumer c) t = writing_now clk c t.
Proof. by destruct c. Qed.

Lemma reading_now_later t0 clk clk' p t :
  clk <= clk' -> read_phase t0 clk p t ->
  reading_now clk p t <= reading_now clk' p t.
Proof.
  intros ?. destruct p; cbn; try lia.
  intros (u & -> & ?). cbn. lia.
Qed.

Lemma writing_now_later t0 clk clk' c t :
  clk <= clk' -> write_phase t0 clk c t ->
  writing_now clk c t <= writing_now clk' c t.
Proof.
  intros ?. destruct c; cbn; try lia.
  intros (u & -> & ?). cbn. lia.
Qed.

Ltac clock_fin :=
  lazymatch goal with Hnow : clock ?w <= ?now |- _ =>
    repeat match goal with
    | H : exists u, _ |- _ => destruct H as (? & ? & ?)
    | H : _ /\ _ |- _ => destruct H
    end;
    repeat match goal with
    | H : lastReadStarted (shared w) = _ |- _ => rewrite H in *; clear H
    | H : lastWriteStarted (shared w) = _ |- _ => rewrite H in *; clear H
    end;
    destruct (timeStarted (shared w)) eqn:?;
    repeat match goal with
    | H : forall u, At _ = At u -> _ |- _ => specialize (H _ eq_refl)
    end;
    unfold Since, maxDuration, minDuration in *;
    cbn [IsZero phase_base total_phase elapsed] in *; simplify_eq/=;
    try done; try lia;
    repeat (rewrite add64_small by lia);
    try lia
  end.

(** Along a step the three clocks and the byte count only grow. *)
Lemma times_moved E t0 w w' :
  Shape w -> Timed t0 w -> moved E w w' -> clock w' - t0 <= maxDuration ->
  read_time w <= read_time w' /\ write_time w <= write_time w' /\
  total_time w <= total_time w' /\ accounted w <= accounted w'.
Proof.
  intros Hs Ht Hm Hclk.
  pose proof (moved_clock _ _ _ Hm) as Hmono.
  destruct Ht as [Hck Hst Hrun Hrp Hwp Hrt Hwt Htt]; [lia|].
  destruct Hs as [Hcap Hidx Hpc Hpp Hroom Hinit Hrd Hwr Hnp Hnc].
  unfold read_time, write_time, total_time, accounted, produced, pend_p,
    pend_c in *.
  invert_moved Hm; proto_open.
  all: try (pose proof (reading_now_later t0 (clock w) now _ _ Hnow Hrp)).
  all: try (pose proof (writing_now_later t0 (clock w) now _ _ Hnow Hwp)).
  all: try (pose proof (reading_now_later t0 (clock w) now' _ _ Hmono Hrp)).
  all: try (pose proof (writing_now_later t0 (clock w) now' _ _ Hmono Hwp)).
  all: try (pose proof Hp as Hp'; rewrite Hp' in * ).
  all: try (pose proof Hc as Hc'; rewrite Hc' in * ).
  all: cbn [read_phase write_phase total_phase pending_p pending_c
            reading_now writing_now] in *.
  all: rewrite ?pending_wake_p, ?pending_wake_c, ?length_app,
         ?reading_now_wake, ?writing_now_wake.
  all: cbn [read_phase write_phase total_phase pending_p pending_c
            reading_now writing_now] in *.
  all: clock_fin.
Qed.

Lemma step_clock E w w' : Shape w -> step E w w' -> clock w <= clock w'.
Proof.
  intros Hs Hstep. destruct Hstep as [w w' Hts | w now Hnow]; [|done].
  eapply moved_clock. by apply tstep_moved.
Qed.

Lemma times_step E t0 w w' :
  Inv t0 w -> step E w w' -> clock w' - t0 <= maxDuration ->
  read_time w <= read_time w' /\ write_time w <= write_time w' /\
  total_time w <= total_time w' /\ accounted w <= accounted w'.
Proof.
  intros [Hs _ _ _ Ht] Hstep Hclk.
  destruct Hstep as [w w' Hts | w now Hnow].
  - eapply times_moved; eauto using tstep_moved.
  - destruct Ht as [Hck Hst Hrun Hrp Hwp Hrt Hwt Htt]; [fields; lia|].
    unfold read_time, write_time, total_time, accounted, produced, pend_p.
    fields.
    pose proof (reading_now_later t0 (clock w) now _ _ Hnow Hrp).
    pose proof (writing_now_later t0 (clock w) now _ _ Hnow Hwp).
    destruct (timeStarted (shared w)) as [|u]; cbn; lia.
Qed.

Lemma times_run E t0 w w' :
  Inv t0 w -> rtc (step E) w w' -> clock w' - t0 <= maxDuration ->
  clock w <= clock w' /\
  read_time w <= read_time w' /\ write_time w <= write_time w' /\
  total_time w <= total_time w' /\ accounted w <= accounted w'.
Proof.
  intros Hinv Hrun. induction Hrun as [x|x y z Hxy Hyz IH]; intros Hclk.
  - lia.
  - pose proof (Inv_step E t0 x y Hinv Hxy) as Hinv'.
    destruct (IH Hinv' Hclk) as (? & ? & ? & ? & ?).
    pose proof (step_clock E x y (inv_shape _ _ Hinv) Hxy).
    destruct (times_step E t0 x y Hinv Hxy) as (? & ? & ? & ?); lia.
Qed.

(** What [Stats] reports, in terms of the quantities above. *)
Lemma stats_at_times t0 w :
  Inv t0 w -> clock w - t0 <= maxDuration ->
  TotalTime (stats_at w) = total_time w /\
  read_time w <= TimeSpentReading (stats_at w) /\
  write_time w <= TimeSpentWriting (stats_at w) /\
  ((forall n e d, producer w <> PGot n e d) ->
     TimeSpentReading (stats_at w) = read_time w) /\
  ((forall n e d, consumer w <> CGot n e d) ->
     TimeSpentWriting (stats_at w) = write_time w).
Proof.
  intros [_ _ _ _ Ht] Hclk.
  destruct Ht as [Hck Hst Hrun Hrp Hwp Hrt Hwt Htt]; [lia|].
  unfold stats_at, read_time, write_time, total_time.
  cbn [Stats TotalTime TimeSpentReading TimeSpentWriting].
  assert (HT : with_open_phase (totalTimeSpent (shared w)) (clock w)
                 (timeStarted (shared w))
               = totalTimeSpent (shared w)
                 + elapsed (clock w) (timeStarted (shared w))).
  { destruct (timeStarted (shared w)) as [|u] eqn:Ets; [cbn; lia|].
    specialize (Hst u eq_refl). cbn [phase_base] in Htt.
    apply with_open_phase_exact; cbn; lia. }
  assert (HR : with_open_phase (timeSpentReading (shared w)) (clock w)
                 (lastReadStarted (shared w))
               = timeSpentReading (shared w)
                 + elapsed (clock w) (lastReadStarted (shared w))
               /\ reading_now (clock w) (producer w)
                    (lastReadStarted (shared w))
                  <= elapsed (clock w) (lastReadStarted (shared w))
               /\ ((forall n e d, producer w <> PGot n e d) ->
                   elapsed (clock w) (lastReadStarted (shared w))
                   = reading_now (clock w) (producer w)
                       (lastReadStarted (shared w)))).
  { destruct (producer w) eqn:Hp; cbn in Hrp;
      try (rewrite Hrp in *; cbn; split_and!; [lia..|done]).
    - destruct Hrp as (u & Hu & ?). rewrite Hu in *. cbn [phase_base] in *.
      split_and!; [apply with_open_phase_exact; cbn; lia|cbn; lia|done].
    - destruct Hrp as (u & Hu & ? & ? & ?). rewrite Hu in *.
      cbn [phase_base] in *.
      split_and!; [apply with_open_phase_exact; cbn; lia|cbn; lia|].
      intros Hne. by destruct (Hne n err dur). }
  assert (HW : with_open_phase (timeSpentWriting (shared w)) (clock w)
                 (lastWriteStarted (shared w))
               = timeSpentWriting (shared w)
                 + elapsed (clock w) (lastWriteStarted (shared w))
               /\ writing_now (clock w) (consumer w)
                    (lastWriteStarted (shared w))
                  <= elapsed (clock w) (lastWriteStarted (shared w))
               /\ ((forall n e d, consumer w <> CGot n e d) ->
                   elapsed (clock w) (lastWriteStarted (shared w))
                   = writing_now (clock w) (consumer w)
                       (lastWriteStarted (shared w)))).
  { destruct (consumer w) eqn:Hc; cbn in Hwp;
      try (rewrite Hwp in *; cbn; split_and!; [lia..|done]).
    - destruct Hwp as (u & Hu & ?). rewrite Hu in *. cbn [phase_base] in *.
      split_and!; [apply with_open_phase_exact; cbn; lia|cbn; lia|done].
    - destruct Hwp as (u & Hu & ? & ? & ?). rewrite Hu in *.
      cbn [phase_base] in *.
      split_and!; [apply with_open_phase_exact; cbn; lia|cbn; lia|].
      intros Hne. by destruct (Hne n err dur). }
  destruct HR as (-> & ? & HRe). destruct HW as (-> & ? & HWe).
  split_and!; try lia.
  - intros Hne. rewrite (HRe Hne). lia.
  - intros Hne. rewrite (HWe Hne). lia.
Qed.

Lemma accumulated_moved E t0 w w' :
  Shape w -> Timed t0 w -> moved E w w' -> clock w' - t0 <= maxDuration ->
  accumulated_le (shared w) (shared w').
Proof.
  intros Hs Ht Hm Hclk.
  pose proof (moved_clock _ _ _ Hm) as Hmono.
  destruct Ht as [Hck Hst Hrun Hrp Hwp Hrt Hwt Htt]; [lia|].
  destruct Hs as [Hcap Hidx Hpc Hpp Hroom Hinit Hrd Hwr Hnp Hnc].
  unfold accumulated_le.
  invert_moved Hm; proto_open.
  all: try (pose proof Hp as Hp'; rewrite Hp' in * ).
  all: try (pose proof Hc as Hc'; rewrite Hc' in * ).
  all: cbn [read_phase write_phase total_phase] in *.
  all: clock_fin.
Qed.

Lemma accumulated_run E t0 w w' :
  Inv t0 w -> rtc (step E) w w' -> clock w' - t0 <= maxDuration ->
  accumulated_le (shared w) (shared w').
Proof.
  intros Hinv Hrun. induction Hrun as [x|x y z Hxy Hyz IH]; intros Hclk.
  - unfold accumulated_le. lia.
  - pose proof (Inv_step E t0 x y Hinv Hxy) as Hinv'.
    specialize (IH Hinv' Hclk).
    destruct (times_run E t0 y z Hinv' Hyz Hclk) as (Hck & _).
    assert (Hxy' : accumulated_le (shared x) (shared y)).
    { destruct Hxy as [x y Hts|x now Hnow].
      - eapply accumulated_moved;
          [apply Hinv|apply Hinv|by apply tstep_moved; [apply Hinv|]|lia].
      - unfold accumulated_le. fields. lia. }
    unfold accumulated_le in *. lia.
Qed.

(** C8, as the code has it.  Between two calls of [Stats] during a transfer
    [BytesRead] and [TotalTime] never decrease, [BufferedBytes] never
    exceeds the capacity, and the accumulated fields [timeSpentReading],
    [timeSpentWriting] and [totalTimeSpent] never decrease.  The reported
    [TimeSpentReading] does not decrease either, unless the earlier call
    came while a finished [r.Read] was waiting for the mutex to be accounted
    for: [Stats] then still counts the wait as reading time, and the [dur]
    accounted later is shorter.  Likewise for [TimeSpentWriting] and
    [w.Write]. *)
Theorem Stats_monotone E size b t0 w w' :
  New size = Some b -> 1 <= size -> reachable E (boot b t0) w ->
  rtc (step E) w w' ->
  clock w' - t0 <= maxDuration -> produced w' < 2 ^ 63 ->
  BytesRead (stats_at w) <= BytesRead (stats_at w') /\
  TotalTime (stats_at w) <= TotalTime (stats_at w') /\
  BufferedBytes (stats_at w') <= BufferCapacity (stats_at w') /\
  accumulated_le (shared w) (shared w') /\
  ((forall n e d, producer w <> PGot n e d) ->
     TimeSpentReading (stats_at w) <= TimeSpentReading (stats_at w')) /\
  ((forall n e d, consumer w <> CGot n e d) ->
     TimeSpentWriting (stats_at w) <= TimeSpentWriting (stats_at w')).
Proof.
  intros Hnew Hsize Hr Hrun Hclk Hbytes.
  pose proof (Copy_Inv E size b t0 w Hnew Hsize Hr) as Hinv.
  assert (Hr' : reachable E (boot b t0) w') by (by eapply rtc_trans).
  pose proof (Copy_Inv E size b t0 w' Hnew Hsize Hr') as Hinv'.
  destruct (times_run E t0 w w' Hinv Hrun Hclk) as (Hck & HR & HW & HT & HA).
  destruct (stats_at_times t0 w Hinv) as (HT1 & HR1 & HW1 & HRe & HWe); [lia|].
  destruct (stats_at_times t0 w' Hinv' Hclk) as (HT2 & HR2 & HW2 & _ & _).
  split_and!.
  - cbn [stats_at Stats BytesRead].
    rewrite (led_total _ (inv_ledger _ _ Hinv)).
    rewrite (led_total _ (inv_ledger _ _ Hinv')).
    unfold accounted in *.
    pose proof (shape_pend_p _ (inv_shape _ _ Hinv)).
    pose proof (shape_pend_p _ (inv_shape _ _ Hinv')).
    pose proof (shape_room _ (inv_shape _ _ Hinv)).
    pose proof (shape_pend_c _ (inv_shape _ _ Hinv)).
    pose proof (ring_ready _ (inv_ring _ _ Hinv)).
    pose proof (shape_pend_c _ (inv_shape _ _ Hinv')).
    pose proof (ring_ready _ (inv_ring _ _ Hinv')).
    unfold produced, delivered in *.
    rewrite !wrap64_small; lia.
  - lia.
  - cbn [stats_at Stats BufferedBytes BufferCapacity].
    pose proof (shape_pend_p _ (inv_shape _ _ Hinv')).
    pose proof (shape_room _ (inv_shape _ _ Hinv')). lia.
  - by eapply accumulated_run.
  - intros Hne. rewrite (HRe Hne). lia.
  - intros Hne. rewrite (HWe Hne). lia.
Qed.

Lemma Stats_monotone_witness :
  BytesRead (stats_at Demo.w2) <= BytesRead (stats_at Demo.w5) /\
  TotalTime (stats_at Demo.w2) <= TotalTime (stats_at Demo.w5) /\
  BufferedBytes (stats_at Demo.w5) <= BufferCapacity (stats_at Demo.w5) /\
  accumulated_le (shared Demo.w2) (shared Demo.w5) /\
  ((forall n e d, producer Demo.w2 <> PGot n e d) ->
     TimeSpentReading (stats_at Demo.w2)
     <= TimeSpentReading (stats_at Demo.w5)) /\
  ((forall n e d, consumer Demo.w2 <> CGot n e d) ->
     TimeSpentWriting (stats_at Demo.w2)
     <= TimeSpentWriting (stats_at Demo.w5)).
Proof.
  apply (Stats_monotone any_env 4 (fresh 4) 0 Demo.w2 Demo.w5).
  - reflexivity.
  - lia.
  - eapply rtc_l; [apply DemoRun.step01|]. eapply rtc_l; [apply DemoRun.step12|].
    apply rtc_refl.
  - eapply rtc_l; [apply DemoRun.step23|]. eapply rtc_l; [apply DemoRun.step34|].
    eapply rtc_l; [apply DemoRun.step45|]. apply rtc_refl.
  - by vm_compute.
  - by vm_compute.
Defined.

(** C8 as the claim words it fails for [TimeSpentReading].  The read that
    started at 10 returns at 20 ([dur] is 10), and the reading goroutine
    waits for the mutex.  [Stats] at 25 reports 15 (the phase is still
    open); the read is then accounted for with 10 and the next one starts
    at 25, so a second [Stats] at 25 reports 10. *)
Lemma Stats_monotone_counterexample :
  reachable any_env (boot (fresh 4) 0) Demo.w3 /\
  rtc (step any_env) Demo.w3 Demo.w4 /\
  TimeSpentReading (stats_at Demo.w3) = 15 /\
  TimeSpentReading (stats_at Demo.w4) = 10.
Proof.
  split_and!; [apply DemoRun.reach3| |by vm_compute..].
  eapply rtc_l; [apply DemoRun.step34|]. apply rtc_refl.
Qed.

(** ** Failure of the writer *)

(** Once [w.Write] has returned an error, nothing but the return of
    [WriteTo] with that error can happen on the consumer side. *)
Lemma failed_write_step E w w' k x d :
  Shape w -> step E w w' ->
  consumer w = CGot k (Some x) d \/
    (consumer w = CDone (csum w) (Some (Errorf "write error" x)) /\
     writeError (shared w) = Some (Errorf "write error" x)) ->
  snk_reqs w' = snk_reqs w /\ snk_taken w' = snk_taken w /\
  csum w' = csum w /\
  (consumer w' = CGot k (Some x) d \/
   (consumer w' = CDone (csum w') (Some (Errorf "write error" x)) /\
    writeError (shared w') = Some (Errorf "write error" x))).
Proof.
  intros Hs Hstep Hc0.
  destruct Hstep as [w w' Hts | w now Hnow]; [|by fields].
  pose proof (tstep_moved E _ _ Hs Hts) as Hm. clear Hts Hs.
  invert_moved Hm; proto_open; split_and!; try done.
  all: try (destruct Hc0 as [Hc0|[Hc0 ?]]; rewrite Hc0 in *; cbn; eauto;
            simplify_eq/=; fail).
  all: try (destruct Hc0 as [Hc0|[Hc0 ?]]; simplify_eq/=; eauto; fail).
  destruct Hc0 as [Hc0|[Hc0 ?]]; rewrite Hc0 in Hc; simplify_eq/=. by right.
Qed.

(** C5. When [w.Write] returns an error [e], [WriteTo] records
    [fmt.Errorf("write error: %w", e)] in [b.writeError] and returns it at
    once, with the count of bytes the writer has accepted; it calls
    [w.Write] no more. *)
Theorem write_error_is_fatal E size b t0 w n e dur :
  New size = Some b -> 1 <= size -> reachable E (boot b t0) w ->
  consumer w = CGot n (Some e) dur ->
  let err := Errorf "write error" e in
  writeError (shared w) = None /\
  (forall now, clock w <= now ->
     let w' := Write_commit w n (Some e) dur now in
     tstep E w w' /\
     consumer w' = CDone (wrap64 (delivered w)) (Some err) /\
     writeError (shared w') = Some err) /\
  (forall w2, rtc (step E) w w2 ->
     snk_reqs w2 = snk_reqs w /\ snk_taken w2 = snk_taken w /\
     (consumer w2 = CGot n (Some e) dur \/
      (consumer w2 = CDone (wrap64 (delivered w)) (Some err) /\
       writeError (shared w2) = Some err))).
Proof.
  intros Hnew Hsize Hr Hc err.
  pose proof (Copy_Inv E size b t0 w Hnew Hsize Hr) as Hinv.
  pose proof (led_csum _ (inv_ledger _ _ Hinv)) as Hcs.
  split_and!.
  - destruct (writeError (shared w)) as [we|] eqn:Hwe; [|done].
    destruct (proto_werr _ (inv_proto _ _ Hinv) we Hwe) as (? & ? & ? & ?).
    congruence.
  - intros now Hnow w'. subst w'. split_and!.
    + by apply step_Write_commit.
    + unfold Write_commit. fields. by rewrite Hcs.
    + unfold Write_commit. by fields.
  - intros w2 Hrun. rewrite <- Hcs.
    assert (Hgen : snk_reqs w2 = snk_reqs w /\ snk_taken w2 = snk_taken w /\
      csum w2 = csum w /\
      (consumer w2 = CGot n (Some e) dur \/
       (consumer w2 = CDone (csum w2) (Some err) /\
        writeError (shared w2) = Some err))).
    { assert (Hs : Shape w) by apply Hinv.
      assert (Hstart : consumer w = CGot n (Some e) dur \/
        (consumer w = CDone (csum w) (Some err) /\
         writeError (shared w) = Some err)) by (by left).
      clear Hinv Hcs Hr Hc.
      induction Hrun as [x|x y z Hxy Hyz IH]; [by split_and!|].
      destruct (failed_write_step E x y n e dur Hs Hxy Hstart)
        as (Hq & Ht & Hsum & Hcy).
      destruct IH as (? & ? & ? & ?); [by eapply Shape_step|done|].
      split_and!; congruence. }
    destruct Hgen as (? & ? & Hsum & Hcw). rewrite Hsum in Hcw.
    by split_and!.
Qed.

Lemma write_error_is_fatal_witness :
  let err := Errorf "write error" (Failure "disk full") in
  writeError (shared Demo.w6) = None /\
  (forall now, clock Demo.w6 <= now ->
     let w' := Write_commit Demo.w6 0 (Some (Failure "disk full")) 10 now in
     tstep any_env Demo.w6 w' /\
     consumer w' = CDone (wrap64 (delivered Demo.w6)) (Some err) /\
     writeError (shared w') = Some err) /\
  (forall w2, rtc (step any_env) Demo.w6 w2 ->
     snk_reqs w2 = snk_reqs Demo.w6 /\ snk_taken w2 = snk_taken Demo.w6 /\
     (consumer w2 = CGot 0 (Some (Failure "disk full")) 10 \/
      (consumer w2 = CDone (wrap64 (delivered Demo.w6)) (Some err) /\
       writeError (shared w2) = Some err))).
Proof.
  apply (write_error_is_fatal any_env 4 (fresh 4) 0 Demo.w6 0
           (Failure "disk full") 10).
  - reflexivity.
  - lia.
  - apply DemoRun.reach6.
  - reflexivity.
Defined.

(** C6. Once [b.writeError] is recorded, [ReadFrom] is neither about to
    start nor asleep in [cond.Wait] (the failing [WriteTo] has signalled);
    after a read that returned no error, and after waking from the wait,
    it returns that write error; and it starts no further read. *)
Theorem write_error_stops_reader E size b t0 w werr :
  New size = Some b -> 1 <= size -> reachable E (boot b t0) w ->
  writeError (shared w) = Some werr ->
  producer w <> PInit /\ producer w <> PWait /\
  (forall k d t, producer w = PGot k None d -> clock w <= t ->
     tstep E w (Read_commit w k None d t) /\
     producer (Read_commit w k None d t) = PDone (psum w) (Some werr)) /\
  (forall t, producer w = PWoken -> clock w <= t ->
     tstep E w (ReadFrom_wakes w t) /\
     producer (ReadFrom_wakes w t) = PDone (psum w) (Some werr)) /\
  (forall w' lo hi, step E w w' -> producer w' = PRead lo hi ->
     producer w = PRead lo hi).
Proof.
  intros Hnew Hsize Hr Hrec.
  pose proof (Copy_Inv E size b t0 w Hnew Hsize Hr) as Hinv.
  destruct Hinv as [Hs _ Hq _ _].
  destruct Hq as [Hrerr Hrecrr Hpdone Hcdone Hpwait Hcwait Hpinit].
  split_and!.
  - intros Hp. destruct (Hpinit Hp) as (_ & ? & _). congruence.
  - intros Hp. destruct (Hpwait Hp) as (_ & ?). congruence.
  - intros k d t Hp Hnow. split; [by apply step_Read_commit|].
    pose proof (shape_cap _ Hs).
    unfold Read_commit, read_commit.
    destruct (len (shared w) =? 0) eqn:Hz; bools; [lia|].
    unfold after_read. fields. by rewrite Hrec.
  - intros t Hp Hnow. split; [by apply step_ReadFrom_wakes|].
    unfold ReadFrom_wakes, after_wait. by rewrite Hrec.
  - intros w' lo' hi' Hstep Hp'.
    destruct Hstep as [w w' Hts | w t Hnow]; [|done].
    pose proof (tstep_moved E _ _ Hs Hts) as Hm. clear Hts Hs.
    invert_moved Hm; proto_open; simplify_eq/=; unwake; try done.
    destruct (Hpinit Hp) as (_ & ? & _). congruence.
Qed.

Lemma write_error_stops_reader_witness :
  let werr := Errorf "write error" (Failure "disk full") in
  producer Demo.w8 <> PInit /\ producer Demo.w8 <> PWait /\
  (forall k d t, producer Demo.w8 = PGot k None d -> clock Demo.w8 <= t ->
     tstep any_env Demo.w8 (Read_commit Demo.w8 k None d t) /\
     producer (Read_commit Demo.w8 k None d t)
     = PDone (psum Demo.w8) (Some werr)) /\
  (forall t, producer Demo.w8 = PWoken -> clock Demo.w8 <= t ->
     tstep any_env Demo.w8 (ReadFrom_wakes Demo.w8 t) /\
     producer (ReadFrom_wakes Demo.w8 t) = PDone (psum Demo.w8) (Some werr)) /\
  (forall w' lo hi, step any_env Demo.w8 w' -> producer w' = PRead lo hi ->
     producer Demo.w8 = PRead lo hi).
Proof.
  apply (write_error_stops_reader any_env 4 (fresh 4) 0 Demo.w8).
  - reflexivity.
  - lia.
  - apply DemoRun.reach8.
  - reflexivity.
Defined.

Example reader_stops_in_demo :
  producer Demo.w8 = PGot 1 None 25 /\
  producer (Read_commit Demo.w8 1 None 25 60)
  = PDone 2 (Some (Errorf "write error" (Failure "disk full"))).
Proof. by vm_compute. Qed.

(** ** A finite source and a writer that does not fail *)

Lemma Script_boot D fin size t0 : Script D fin (boot (fresh size) t0).
Proof. split; fields; intros; simplify_eq/=; eauto. Qed.

Ltac unwake' :=
  unwake;
  repeat match goal with
  | H : wake_consumer ?c = CGot _ _ _ |- _ => destruct c; simplify_eq/=
  | H : wake_producer ?p = PGot _ _ _ |- _ => destruct p; simplify_eq/=
  end.

Lemma Script_moved D fin w w' :
  Script D fin w -> moved (script_env D fin) w w' -> Script D fin w'.
Proof.
  intros [Hpre Hsk Hcg Hpg Hrer] Hm.
  invert_moved Hm; proto_open.
  all: split; proto_open; intros; unwake'; simplify_eq/=; try done; eauto.
  all: try (destruct Hrule as (rest & -> & Hrest)).
  all: try (edestruct Hcg as [? ?]; [done|]; discriminate).
  all: try (by eapply Hpg).
  all: try (by eapply (Hpg _ (Some _))).
  - exists rest. by rewrite app_assoc.
  - destruct err0 as [e|].
    + destruct Hrest as [-> ->]. by rewrite app_nil_r.
    + destruct data; [done|]. cbn. lia.
  - destruct (Hrer _ H) as [? Hd]. split; [done|].
    rewrite <- (app_nil_r (src_given w)) in Hd at 1.
    apply app_inv_head in Hd. symmetry in Hd.
    apply app_eq_nil in Hd as [-> ->]. done.
Qed.

(** *** Every schedule ends *)

Lemma rank_wake_p p : rank_p (wake_producer p) <= rank_p p + 5.
Proof. destruct p as [| | ? [?|] ?| | | |]; cbn; lia. Qed.

Lemma rank_wake_c c : rank_c (wake_consumer c) <= rank_c c + 2.
Proof. destruct c; cbn; lia. Qed.

Lemma rank_p_nonneg p : 0 <= rank_p p.
Proof. destruct p as [| | ? [?|] ?| | | |]; cbn; lia. Qed.

Lemma rank_c_nonneg c : 0 <= rank_c c.
Proof. destruct c; cbn; lia. Qed.

Lemma todo_nonneg D fin w : Ring w -> Shape w -> Script D fin w -> 0 <= todo D w.
Proof.
  intros Hr Hs Hsc. destruct Hsc as [[rest Hrest] _ _ _ _].
  pose proof (ring_ready _ Hr). pose proof (shape_pend_c _ Hs).
  pose proof (shape_pend_p _ Hs). pose proof (shape_room _ Hs).
  pose proof (rank_p_nonneg (producer w)).
  pose proof (rank_c_nonneg (consumer w)).
  unfold todo, produced, delivered in *.
  rewrite Hrest, length_app. lia.
Qed.

Lemma todo_moved D fin w w' :
  Shape w -> Script D fin w -> moved (script_env D fin) w w' ->
  todo D w' < todo D w.
Proof.
  intros Hs Hsc Hm.
  destruct Hs as [Hcap Hidx Hpc Hpp Hroom Hinit Hrd Hwr Hnp Hnc].
  destruct Hsc as [Hpre Hsk Hcg Hpg Hrer].
  unfold todo, produced, delivered.
  invert_moved Hm; proto_open.
  all: try (pose proof (rank_wake_p (producer w))).
  all: try (pose proof (rank_wake_c (consumer w))).
  all: try rewrite Hp; try rewrite Hc; cbn [rank_p rank_c]; try lia.
  - destruct Hrule as (rest & _ & Hrest). rewrite length_app.
    destruct err as [?|]; [lia|]. destruct data; [done|]. cbn in *. lia.
  - destruct (Hwr _ _ Hc) as (? & ? & ? & ?). destruct Hrule as [_ ?].
    pose proof (view_length (buf (shared w)) lo hi
                  ltac:(lia) ltac:(lia) ltac:(lia)).
    rewrite length_app, length_take. lia.
Qed.

(** The transfer is never stuck before [WriteTo] has returned. *)
Lemma script_progress D fin t0 w :
  Inv t0 w -> Script D fin w ->
  (forall sum err, consumer w <> CDone sum err) ->
  exists w', tstep (script_env D fin) w w'.
Proof.
  intros [Hs Hring Hq Hl _] Hsc Hrun.
  destruct Hsc as [[rest Hrest] Hsk Hcg Hpg Hrer].
  destruct (producer w) as [|lo hi|n err dur| | |sum err|] eqn:Hp.
  - eexists. by apply (step_ReadFrom_enter _ w (clock w) (clock w)).
  - destruct (shape_read _ Hs lo hi Hp) as (? & ? & ?).
    destruct rest as [|x rest].
    + exists (Read_returns w lo (clock w) []
                (replicate (Z.to_nat (hi - lo)) Byte.x00) (Some fin)).
      apply step_Read_returns with (hi := hi); [done|lia| |].
      * rewrite length_replicate. cbn. lia.
      * exists []. by rewrite !app_nil_r in *.
    + exists (Read_returns w lo (clock w) [x]
                (replicate (Z.to_nat (hi - lo - 1)) Byte.x00) None).
      apply step_Read_returns with (hi := hi); [done|lia| |].
      * rewrite length_replicate. cbn. lia.
      * by exists rest.
  - eexists. by apply (step_Read_commit _ w n err dur (clock w)).
  - destruct (proto_pwait _ Hq Hp) as [Hfull _].
    destruct (consumer w) as [|lo hi|n err dur| | |sum err|] eqn:Hc.
    + eexists. by apply (step_WriteTo_enter _ w (clock w) (clock w)).
    + destruct (shape_write _ Hs lo hi Hc) as (? & ? & ? & ?).
      exists (Write_returns w lo hi (clock w) (hi - lo) None).
      apply step_Write_returns; [done|lia|lia|]. split; [done|lia].
    + eexists. by apply (step_Write_commit _ w n err dur (clock w)).
    + destruct (proto_cwait _ Hq Hc) as [Hempty _].
      pose proof (shape_cap _ Hs). lia.
    + eexists. by apply (step_WriteTo_wakes _ w (clock w)).
    + by destruct (Hrun sum err).
    + by destruct (shape_no_panic_c _ Hs).
  - eexists. by apply (step_ReadFrom_wakes _ w (clock w)).
  - destruct (consumer w) as [|lo hi|n err' dur| | |sum' err'|] eqn:Hc.
    + eexists. by apply (step_WriteTo_enter _ w (clock w) (clock w)).
    + destruct (shape_write _ Hs lo hi Hc) as (? & ? & ? & ?).
      exists (Write_returns w lo hi (clock w) (hi - lo) None).
      apply step_Write_returns; [done|lia|lia|]. split; [done|lia].
    + eexists. by apply (step_Write_commit _ w n err' dur (clock w)).
    + destruct (proto_cwait _ Hq Hc) as [_ Hnone].
      destruct (proto_pdone _ Hq sum err Hp)
        as [(e & He & _)|(_ & e & He & _)]; congruence.
    + eexists. by apply (step_WriteTo_wakes _ w (clock w)).
    + by destruct (Hrun sum' err').
    + by destruct (shape_no_panic_c _ Hs).
  - by destruct (shape_no_panic_p _ Hs).
Qed.

Lemma inevitably_mono R (Ok Ok' : World -> Prop) w :
  (forall w', Ok w' -> Ok' w') -> inevitably R Ok w -> inevitably R Ok' w.
Proof.
  intros Himp H. induction H as [w H|w Hex _ IH].
  - apply inevitably_now. auto.
  - apply inevitably_later; auto.
Qed.

Lemma Copy_result_done w sum err :
  Copy_result w = Some (sum, err) <-> consumer w = CDone sum err.
Proof.
  unfold Copy_result. destruct (consumer w); split; intros; by simplify_eq.
Qed.

Lemma Scripted_tstep D fin t0 w w' :
  Scripted D fin t0 w -> tstep (script_env D fin) w w' ->
  Scripted D fin t0 w'.
Proof.
  intros [Hinv Hsc] Hts. split.
  - eapply Inv_step; [done|]. by apply step_transfer.
  - eapply Script_moved; [done|]. apply tstep_moved; [apply Hinv|done].
Qed.

Lemma Scripted_reachable D fin size b t0 w :
  New size = Some b -> 1 <= size ->
  reachable (script_env D fin) (boot b t0) w -> Scripted D fin t0 w.
Proof.
  unfold New. intros Hnew Hsize Hr. destruct (size <? 0); simplify_eq.
  unfold reachable in Hr.
  assert (H0 : Scripted D fin t0 (boot (fresh size) t0)).
  { split; [by apply Inv_boot|apply Script_boot]. }
  induction Hr as [|x y z Hxy _ IH]; [done|].
  apply IH. destruct Hxy as [x y Hts|x now Hnow].
  - by eapply Scripted_tstep.
  - destruct H0 as [Hinv Hsc]. split.
    + eapply (Inv_step (script_env D fin)); [done|]. by apply step_Stats.
    + destruct Hsc. by split.
Qed.

(** When [WriteTo] has returned and no write error is recorded, the ring is
    empty, [ReadFrom] has returned, and the writer has every byte the
    reader handed over. *)
Lemma drained_all t0 w sum err :
  Inv t0 w -> consumer w = CDone sum err -> writeError (shared w) = None ->
  snk_taken w = src_given w /\ sum = wrap64 (delivered w) /\
  exists e, readError (shared w) = Some e /\
    err = if is_EOF e then None else Some (Errorf "read error" e).
Proof.
  intros [Hs Hring Hq Hl _] Hc Hnone.
  destruct (proto_cdone _ Hq sum err Hc)
    as [(e & He & _)|(_ & Hz & e & He & Herr)]; [congruence|].
  destruct (proto_rerr _ Hq e He) as (psum' & perr & Hp).
  pose proof (ring_ready _ Hring) as Hrdy.
  pose proof (ring_fifo _ Hring) as Hfifo.
  unfold pend_p, pend_c, produced, delivered in *.
  rewrite Hp, Hc in Hrdy. cbn in Hrdy.
  split_and!.
  - rewrite Hfifo. apply take_ge. lia.
  - rewrite (led_cdone _ Hl sum err Hc). apply (led_csum _ Hl).
  - by exists e.
Qed.

Lemma script_final D fin t0 w sum err :
  Scripted D fin t0 w -> consumer w = CDone sum err ->
  snk_taken w = D /\ sum = wrap64 (Z.of_nat (length D)) /\
  err = if is_EOF fin then None else Some (Errorf "read error" fin).
Proof.
  intros [Hinv Hsc] Hc.
  destruct (drained_all t0 w sum err Hinv Hc (sc_sink _ _ _ Hsc))
    as (Hall & Hsum & e & He & Herr).
  destruct (sc_rerr _ _ _ Hsc e He) as [-> HD].
  unfold delivered in Hsum. rewrite Hall, HD in Hsum. rewrite Hall, HD.
  done.
Qed.

Lemma script_completes D fin t0 w :
  Scripted D fin t0 w ->
  inevitably (tstep (script_env D fin))
    (fun w' => Scripted D fin t0 w' /\
               exists sum err, consumer w' = CDone sum err) w.
Proof.
  intros Hw.
  assert (Hn : exists n : nat, (Z.to_nat (todo D w) < n)%nat)
    by (exists (S (Z.to_nat (todo D w))); lia).
  destruct Hn as [n Hn]. revert w Hw Hn.
  induction n as [|n IH]; intros w Hw Hn; [lia|].
  destruct (consumer w) as [|lo hi|k err dur| | |sum err|] eqn:Hc.
  6: { apply inevitably_now. eauto. }
  all: apply inevitably_later;
    [ apply (script_progress D fin t0);
        [apply Hw|apply Hw|intros ? ?; congruence]
    | intros w' Hts; apply IH; [by eapply Scripted_tstep|];
      pose proof (Scripted_tstep D fin t0 w w' Hw Hts) as Hw';
      pose proof (todo_moved D fin w w' (inv_shape _ _ (scripted_inv _ _ _ _ Hw))
                    (scripted_script _ _ _ _ Hw)
                    (tstep_moved _ w w'
                       (inv_shape _ _ (scripted_inv _ _ _ _ Hw)) Hts));
      pose proof (todo_nonneg D fin w'
                    (inv_ring _ _ (scripted_inv _ _ _ _ Hw'))
                    (inv_shape _ _ (scripted_inv _ _ _ _ Hw'))
                    (scripted_script _ _ _ _ Hw'));
      lia ].
Qed.

(** For any reader and writer: the bytes the writer has accepted are
    always the first bytes the reader handed over, in the same order. *)
Lemma relay_is_fifo E size b t0 w :
  New size = Some b -> 1 <= size -> reachable E (boot b t0) w ->
  snk_taken w `prefix_of` src_given w.
Proof.
  intros Hnew Hsize Hr.
  destruct (Copy_Inv E size b t0 w Hnew Hsize Hr) as [_ Hring _ _ _].
  rewrite (ring_fifo _ Hring). apply prefix_take.
Qed.

(** C1. [Copy] from a reader that offers the bytes [D] and then reports
    [io.EOF] or a failure, to a writer that does not fail, through a ring of
    any capacity of at least one byte: the writer only ever holds a prefix
    of [D]; when [Copy] has returned it holds exactly [D]; and [Copy] does
    return, under every schedule. *)
Theorem lossless_relay D fin size b t0 w :
  New size = Some b -> 1 <= size ->
  reachable (script_env D fin) (boot b t0) w ->
  snk_taken w `prefix_of` D /\
  (forall r, Copy_result w = Some r -> snk_taken w = D) /\
  inevitably (tstep (script_env D fin))
    (fun w' => (exists r, Copy_result w' = Some r) /\ snk_taken w' = D) w.
Proof.
  intros Hnew Hsize Hr.
  pose proof (Scripted_reachable D fin size b t0 w Hnew Hsize Hr) as Hw.
  split_and!.
  - destruct (sc_prefix _ _ _ (scripted_script _ _ _ _ Hw)) as [rest ->].
    apply prefix_app_r. by eapply relay_is_fifo.
  - intros [sum err] Hres. apply Copy_result_done in Hres.
    by destruct (script_final D fin t0 w sum err Hw Hres).
  - eapply inevitably_mono; [|by apply script_completes].
    intros w' (Hw' & sum & err & Hc). split.
    + exists (sum, err). by apply Copy_result_done.
    + by destruct (script_final D fin t0 w' sum err Hw' Hc).
Qed.

Lemma lossless_relay_witness :
  snk_taken (boot (fresh 16) 0) `prefix_of` hello /\
  (forall r, Copy_result (boot (fresh 16) 0) = Some r ->
     snk_taken (boot (fresh 16) 0) = hello) /\
  inevitably (tstep (script_env hello EOF))
    (fun w' => (exists r, Copy_result w' = Some r) /\ snk_taken w' = hello)
    (boot (fresh 16) 0).
Proof.
  apply (lossless_relay hello EOF 16 (fresh 16) 0 (boot (fresh 16) 0)).
  - reflexivity.
  - lia.
  - apply rtc_refl.
Defined.

(** C2. If the reader reports [io.EOF] after handing over the [M] bytes of
    [D] and the writer never fails, [WriteTo], and so [Copy], returns
    [M, nil]: it cannot return anything else, and it does return, under
    every schedule. *)
Theorem clean_end_of_input D size b t0 w :
  New size = Some b -> 1 <= size -> Z.of_nat (length D) < 2 ^ 63 ->
  reachable (script_env D EOF) (boot b t0) w ->
  (forall r, Copy_result w = Some r -> r = (Z.of_nat (length D), None)) /\
  inevitably (tstep (script_env D EOF))
    (fun w' => Copy_result w' = Some (Z.of_nat (length D), None)) w.
Proof.
  intros Hnew Hsize HD Hr.
  pose proof (Scripted_reachable D EOF size b t0 w Hnew Hsize Hr) as Hw.
  assert (Hfinal : forall w' sum err, Scripted D EOF t0 w' ->
            consumer w' = CDone sum err ->
            (sum, err) = (Z.of_nat (length D), None)).
  { intros w' sum err Hw' Hc.
    destruct (script_final D EOF t0 w' sum err Hw' Hc) as (_ & -> & ->).
    cbn. by rewrite wrap64_small by lia. }
  split.
  - intros [sum err] Hres. apply Copy_result_done in Hres. eauto.
  - eapply inevitably_mono; [|by apply script_completes].
    intros w' (Hw' & sum & err & Hc).
    rewrite <- (Hfinal w' sum err Hw' Hc). by apply Copy_result_done.
Qed.

Lemma clean_end_of_input_witness :
  (forall r, Copy_result (boot (fresh 16) 0) = Some r ->
     r = (Z.of_nat (length hello), None)) /\
  inevitably (tstep (script_env hello EOF))
    (fun w' => Copy_result w' = Some (Z.of_nat (length hello), None))
    (boot (fresh 16) 0).
Proof.
  apply (clean_end_of_input hello 16 (fresh 16) 0 (boot (fresh 16) 0)).
  - reflexivity.
  - by vm_compute.
  - by vm_compute.
  - apply rtc_refl.
Defined.

(** ** One schedule, run *)

(** The scenario of the specification: capacity 16, the reader yields
    "HELLO WORLD!!!!!" and then end of input.  Under this schedule [Copy]
    returns [16, nil], the writer has got the sixteen bytes in order, in
    eight writes of two bytes. *)
Example hello_copy :
  let w := run 100 hello (boot (fresh 16) 0) in
  Copy_result w = Some (16, None) /\
  producer w = PDone 16 None /\
  snk_taken w = hello /\
  map (fun req : list Byte.byte => length req) (snk_reqs w)
  = [2; 2; 2; 2; 2; 2; 2; 2]%nat /\
  turn hello w = None.
Proof. by vm_compute. Qed.

Lemma turn_tstep D t0 w w' :
  Scripted D EOF t0 w -> turn D w = Some w' ->
  tstep (script_env D EOF) w w'.
Proof.
  intros [Hinv Hsc] Hturn. unfold turn in Hturn.
  destruct Hinv as [Hs _ _ _ _].
  assert (Hcons : match consumer w with
      | CInit => Some (WriteTo_enter w (clock w + 1) (clock w + 1))
      | CWrite lo hi =>
          Some (Write_returns w lo hi (clock w + 1) (hi - lo) None)
      | CGot n err dur => Some (Write_commit w n err dur (clock w + 1))
      | CWoken => Some (WriteTo_wakes w (clock w + 1))
      | CWait | CDone _ _ | CPanic => None
      end = Some w' -> tstep (script_env D EOF) w w').
  { clear Hturn. intros Hturn.
    destruct (consumer w) as [|lo hi|n err dur| | | |] eqn:Hc; simplify_eq.
    - apply step_WriteTo_enter; [done|lia..].
    - destruct (shape_write _ Hs lo hi Hc) as (? & ? & ? & ?).
      apply step_Write_returns; [done|lia|lia|]. split; [done|lia].
    - apply step_Write_commit; [done|lia].
    - apply step_WriteTo_wakes; [done|lia]. }
  destruct (producer w) as [|lo hi|n err dur| | | |] eqn:Hp; auto.
  - simplify_eq. apply step_ReadFrom_enter; [done|lia..].
  - unfold greedy_read in Hturn. simplify_eq.
    destruct (shape_read _ Hs lo hi Hp) as (? & ? & ?).
    destruct (sc_prefix _ _ _ Hsc) as [rest Hrest].
    assert (Hleft : drop (length (src_given w)) D = rest).
    { rewrite Hrest. by rewrite drop_app_length. }
    rewrite Hleft.
    pose proof (shape_idx _ Hs).
    assert (Z.of_nat (length (take (Z.to_nat (hi - lo)) rest)) <= hi - lo)
      by (rewrite length_take; lia).
    apply step_Read_returns with (hi := hi); [done|lia| |].
    + unfold len in *. rewrite view_length; lia.
    + exists (drop (Z.to_nat (hi - lo)) rest).
      split; [by rewrite take_drop|].
      destruct rest as [|x rest]; [by rewrite drop_nil|].
      destruct (Z.to_nat (hi - lo)) eqn:Hn; [lia|done].
  - simplify_eq. apply step_Read_commit; [done|lia].
  - simplify_eq. apply step_ReadFrom_wakes; [done|lia].
Qed.

(** The runs of the scheduler are runs of the model. *)
Lemma run_reachable D t0 fuel w :
  Scripted D EOF t0 w ->
  rtc (tstep (script_env D EOF)) w (run fuel D w).
Proof.
  revert w. induction fuel as [|fuel IH]; intros w Hw; cbn; [done|].
  destruct (turn D w) as [w'|] eqn:Hturn; [|done].
  pose proof (turn_tstep D t0 w w' Hw Hturn) as Hts.
  eapply rtc_l; [done|]. apply IH. by eapply Scripted_tstep.
Qed.

(** * Further properties of the code *)

(** ** What Copy returns *)

Lemma rtc_tstep_step E w w' : rtc (tstep E) w w' -> rtc (step E) w w'.
Proof.
  induction 1 as [|x y z Hxy _ IH]; [done|].
  eapply rtc_l; [by apply step_transfer|done].
Qed.

Lemma hello_end_reachable :
  reachable (script_env hello EOF) (boot (fresh 16) 0) hello_end.
Proof.
  apply rtc_tstep_step. apply (run_reachable hello 0).
  split; [by apply Inv_boot|apply Script_boot].
Qed.

(** X1. For any reader and writer: if [Copy] returns a nil error, the
    reader has reported [io.EOF], [ReadFrom] has returned the same count and
    nil, the writer holds every byte the reader handed over, in order, the
    count is the number of those bytes (modulo 2^64), and [Stats] then
    reports no buffered byte and that count as [BytesRead]. *)
Theorem Copy_nil_all_copied E size b t0 w s :
  New size = Some b -> 1 <= size -> reachable E (boot b t0) w ->
  Copy_result w = Some (s, None) ->
  readError (shared w) = Some EOF /\
  producer w = PDone s None /\
  snk_taken w = src_given w /\
  s = wrap64 (Z.of_nat (length (src_given w))) /\
  (forall now, BufferedBytes (Stats (shared w) now) = 0 /\
               BytesRead (Stats (shared w) now) = s).
Proof.
  intros Hnew Hsize Hr Hres. apply Copy_result_done in Hres.
  pose proof (Copy_Inv E size b t0 w Hnew Hsize Hr) as Hinv.
  destruct (Hinv) as [Hs Hring Hq Hl _].
  assert (Hwn : writeError (shared w) = None).
  { destruct (proto_cdone _ Hq _ _ Hres) as [(e & _ & ?)|(? & _)]; by simplify_eq. }
  destruct (drained_all t0 w s None Hinv Hres Hwn) as (Hall & Hsum & e & He & Herr).
  destruct e; try discriminate. clear Herr.
  destruct (proto_rerr _ Hq _ He) as (ps & perr & Hp).
  destruct (proto_pdone _ Hq _ _ Hp) as [(e & He' & ->)|(? & _)]; [|congruence].
  rewrite He in He'. simplify_eq. cbn in Hp.
  pose proof (led_pdone _ Hl _ _ Hp) as Hps.
  pose proof (led_psum _ Hl) as Hps'.
  pose proof (led_total _ Hl) as Htot.
  pose proof (proto_cdone _ Hq _ _ Hres) as [(? & ? & ?)|(_ & Hz & _)]; [done|].
  unfold delivered, produced, pend_p in *. rewrite Hp in Htot. cbn in Htot.
  rewrite Z.sub_0_r in Htot. rewrite Hall in *.
  split_and!; try done. congruence.
Qed.

Lemma Copy_nil_all_copied_witness :
  readError (shared hello_end) = Some EOF /\
  producer hello_end = PDone 16 None /\
  snk_taken hello_end = src_given hello_end /\
  16 = wrap64 (Z.of_nat (length (src_given hello_end))) /\
  (forall now, BufferedBytes (Stats (shared hello_end) now) = 0 /\
               BytesRead (Stats (shared hello_end) now) = 16).
Proof.
  apply (Copy_nil_all_copied (script_env hello EOF) 16 (fresh 16) 0 hello_end 16).
  - reflexivity.
  - lia.
  - apply hello_end_reachable.
  - by vm_compute.
Defined.

Lemma crash_reach2 : reachable any_env Crash.r0 Crash.r2.
Proof.
  apply (rtc_l _ _ Crash.r1);
    [apply step_transfer; by apply step_ReadFrom_enter|].
  apply (rtc_l _ _ Crash.r2);
    [apply step_transfer; by apply step_Read_returns with (hi := 4)|].
  apply rtc_refl.
Qed.

Lemma crash_reach8 : reachable any_env Crash.r0 Crash.r8.
Proof.
  eapply rtc_trans; [apply crash_reach2|].
  apply (rtc_l _ _ Crash.r3);
    [apply step_transfer; by apply step_Read_commit|].
  apply (rtc_l _ _ Crash.r4);
    [apply step_transfer; by apply step_WriteTo_enter|].
  apply (rtc_l _ _ Crash.r5);
    [apply step_transfer; by apply step_Write_returns|].
  apply (rtc_l _ _ Crash.r6);
    [apply step_transfer; by apply step_Write_commit|].
  apply (rtc_l _ _ Crash.r7);
    [apply step_transfer; by apply step_Write_returns|].
  apply (rtc_l _ _ Crash.r8);
    [apply step_transfer; by apply step_Write_commit|].
  apply rtc_refl.
Qed.

Example crash_result :
  producer Crash.r3 = PDone 2 (Some Crash.bad) /\
  Copy_result Crash.r8 = Some (2, Some (Errorf "read error" Crash.bad)) /\
  snk_taken Crash.r8 = [Byte.x61; Byte.x62].
Proof. by vm_compute. Qed.

(** X2. For any reader and writer: an error returned by [Copy] is either
    the reader's error [e] (not [io.EOF]) wrapped as "read error", and then
    [ReadFrom] has returned [e] itself, the ring is empty and the writer
    holds every byte the reader handed over; or the writer's error wrapped
    as "write error", as recorded in [b.writeError], and then the writer
    holds a prefix of those bytes.  In both cases the count is the number of
    bytes the writer accepted (modulo 2^64). *)
Theorem Copy_error_origin E size b t0 w s err :
  New size = Some b -> 1 <= size -> reachable E (boot b t0) w ->
  Copy_result w = Some (s, Some err) ->
  s = wrap64 (Z.of_nat (length (snk_taken w))) /\
  ((exists e, err = Errorf "read error" e /\ is_EOF e = false /\
      readError (shared w) = Some e /\ writeError (shared w) = None /\
      producer w = PDone s (Some e) /\ snk_taken w = src_given w /\
      ready (shared w) = 0) \/
   (exists e, err = Errorf "write error" e /\
      writeError (shared w) = Some err /\
      snk_taken w `prefix_of` src_given w)).
Proof.
  intros Hnew Hsize Hr Hres. apply Copy_result_done in Hres.
  pose proof (Copy_Inv E size b t0 w Hnew Hsize Hr) as Hinv.
  destruct (Hinv) as [Hs Hring Hq Hl _].
  split.
  { rewrite (led_cdone _ Hl _ _ Hres). apply (led_csum _ Hl). }
  destruct (proto_cdone _ Hq _ _ Hres)
    as [(e & He & Herr)|(Hwn & Hz & e & He & Herr)].
  - right. destruct (proto_werr _ Hq _ He) as (cs & e0 & -> & _).
    simplify_eq. exists e0. split_and!; try done.
    rewrite (ring_fifo _ Hring). apply prefix_take.
  - left. destruct (is_EOF e) eqn:Heof; simplify_eq.
    destruct (drained_all t0 w s _ Hinv Hres Hwn) as (Hall & Hsum & _).
    destruct (proto_rerr _ Hq _ He) as (ps & perr & Hp).
    destruct (proto_pdone _ Hq _ _ Hp) as [(e' & He' & ->)|(? & _)]; [|congruence].
    assert (e' = e) as -> by congruence. rewrite Heof in Hp.
    exists e. split_and!; try done.
    rewrite Hp. f_equal.
    rewrite (led_pdone _ Hl _ _ Hp), (led_psum _ Hl), Hsum.
    unfold produced, delivered. by rewrite Hall.
Qed.

Lemma Copy_error_origin_witness :
  2 = wrap64 (Z.of_nat (length (snk_taken Crash.r8))) /\
  ((exists e, Errorf "read error" Crash.bad = Errorf "read error" e /\
      is_EOF e = false /\
      readError (shared Crash.r8) = Some e /\
      writeError (shared Crash.r8) = None /\
      producer Crash.r8 = PDone 2 (Some e) /\
      snk_taken Crash.r8 = src_given Crash.r8 /\
      ready (shared Crash.r8) = 0) \/
   (exists e, Errorf "read error" Crash.bad = Errorf "write error" e /\
      writeError (shared Crash.r8) = Some (Errorf "read error" Crash.bad) /\
      snk_taken Crash.r8 `prefix_of` src_given Crash.r8)).
Proof.
  apply (Copy_error_origin any_env 4 (fresh 4) 0 Crash.r8 2
           (Errorf "read error" Crash.bad)).
  - reflexivity.
  - lia.
  - apply crash_reach8.
  - reflexivity.
Defined.

(** X3. For any reader and writer: when [ReadFrom] returns, its count is
    the number of bytes the reader handed over (modulo 2^64), which is also
    [b.totalBytesRead]; and its error is nil exactly after [io.EOF], or the
    reader's own error, unwrapped, or the wrapped write error that
    [WriteTo] has recorded and returned. *)
Theorem ReadFrom_result E size b t0 w s err :
  New size = Some b -> 1 <= size -> reachable E (boot b t0) w ->
  producer w = PDone s err ->
  s = wrap64 (Z.of_nat (length (src_given w))) /\
  totalBytesRead (shared w) = s /\
  ((err = None /\ readError (shared w) = Some EOF) \/
   (exists e, err = Some e /\ is_EOF e = false /\
      readError (shared w) = Some e) \/
   (exists e cs, err = Some (Errorf "write error" e) /\
      readError (shared w) = None /\
      writeError (shared w) = err /\
      consumer w = CDone cs err)).
Proof.
  intros Hnew Hsize Hr Hp.
  pose proof (Copy_Inv E size b t0 w Hnew Hsize Hr) as [Hs Hring Hq Hl _].
  pose proof (led_total _ Hl) as Htot.
  unfold pend_p, produced in Htot. rewrite Hp in Htot. cbn in Htot.
  rewrite Z.sub_0_r in Htot.
  assert (Hsum : s = wrap64 (Z.of_nat (length (src_given w)))).
  { rewrite (led_pdone _ Hl _ _ Hp). apply (led_psum _ Hl). }
  split_and!; [done|congruence|].
  destruct (proto_pdone _ Hq _ _ Hp)
    as [(e & He & ->)|(Hrn & e & He & ->)].
  - destruct (is_EOF e) eqn:Heof.
    + left. by destruct e.
    + right. left. by exists e.
  - right. right.
    destruct (proto_werr _ Hq _ He) as (cs & e0 & -> & Hc).
    by exists e0, cs.
Qed.

Lemma ReadFrom_result_witness :
  16 = wrap64 (Z.of_nat (length (src_given hello_end))) /\
  totalBytesRead (shared hello_end) = 16 /\
  ((@None error = None /\ readError (shared hello_end) = Some EOF) \/
   (exists e, None = Some e /\ is_EOF e = false /\
      readError (shared hello_end) = Some e) \/
   (exists e cs, None = Some (Errorf "write error" e) /\
      readError (shared hello_end) = None /\
      writeError (shared hello_end) = None /\
      consumer hello_end = CDone cs None)).
Proof.
  apply (ReadFrom_result (script_env hello EOF) 16 (fresh 16) 0 hello_end
           16 None).
  - reflexivity.
  - lia.
  - apply hello_end_reachable.
  - by vm_compute.
Defined.

(** ** Failure of the reader *)

(** Once [r.Read] has returned an error, nothing but the return of
    [ReadFrom] can happen on the producer side. *)
Lemma failed_read_step E w w' k x d :
  Shape w -> step E w w' ->
  producer w = PGot k (Some x) d \/
    (producer w = PDone (psum w) (if is_EOF x then None else Some x) /\
     readError (shared w) = Some x) ->
  src_given w' = src_given w /\ psum w' = psum w /\
  (producer w' = PGot k (Some x) d \/
   (producer w' = PDone (psum w') (if is_EOF x then None else Some x) /\
    readError (shared w') = Some x)).
Proof.
  intros Hs Hstep Hp0.
  destruct Hstep as [w w' Hts | w now Hnow]; [|by fields].
  pose proof (tstep_moved E _ _ Hs Hts) as Hm. clear Hts Hs.
  invert_moved Hm; proto_open; split_and!; try done.
  all: try (destruct Hp0 as [Hp0|[Hp0 ?]]; rewrite Hp0 in *; cbn; eauto;
            simplify_eq/=; fail).
  all: try (destruct Hp0 as [Hp0|[Hp0 ?]]; simplify_eq/=; eauto; fail).
  destruct Hp0 as [Hp0|[Hp0 ?]]; rewrite Hp0 in Hp; simplify_eq/=. by right.
Qed.

(** X4. When [r.Read] returns [n] bytes together with an error [e]
    ([io.EOF] included), [ReadFrom] accounts for the [n] bytes, records [e]
    in [b.readError] and returns at once: nil for [io.EOF], [e] otherwise,
    with the count of bytes read; it calls [r.Read] no more. *)
Theorem read_error_ends_reading E size b t0 w n e dur :
  New size = Some b -> 1 <= size -> reachable E (boot b t0) w ->
  producer w = PGot n (Some e) dur ->
  let ret := if is_EOF e then None else Some e in
  readError (shared w) = None /\
  (forall now, clock w <= now ->
     let w' := Read_commit w n (Some e) dur now in
     tstep E w w' /\
     producer w' = PDone (wrap64 (produced w)) ret /\
     readError (shared w') = Some e /\
     ready (shared w') = ready (shared w) + n) /\
  (forall w2, rtc (step E) w w2 ->
     src_given w2 = src_given w /\
     (producer w2 = PGot n (Some e) dur \/
      (producer w2 = PDone (wrap64 (produced w)) ret /\
       readError (shared w2) = Some e))).
Proof.
  intros Hnew Hsize Hr Hp ret.
  pose proof (Copy_Inv E size b t0 w Hnew Hsize Hr) as Hinv.
  pose proof (led_psum _ (inv_ledger _ _ Hinv)) as Hps.
  pose proof (shape_cap _ (inv_shape _ _ Hinv)) as Hcap.
  split_and!.
  - destruct (readError (shared w)) as [re|] eqn:Hre; [|done].
    destruct (proto_rerr _ (inv_proto _ _ Hinv) re Hre) as (? & ? & ?).
    congruence.
  - intros now Hnow w'. subst w'. split_and!.
    + by apply step_Read_commit.
    + unfold Read_commit, read_commit.
      destruct (len (shared w) =? 0) eqn:Hz; [lia|]. fields. by rewrite Hps.
    + unfold Read_commit, read_commit.
      destruct (len (shared w) =? 0) eqn:Hz; [lia|]. by fields.
    + unfold Read_commit, read_commit.
      destruct (len (shared w) =? 0) eqn:Hz; [lia|]. by fields.
  - intros w2 Hrun. rewrite <- Hps.
    assert (Hgen : src_given w2 = src_given w /\ psum w2 = psum w /\
      (producer w2 = PGot n (Some e) dur \/
       (producer w2 = PDone (psum w2) ret /\
        readError (shared w2) = Some e))).
    { assert (Hs : Shape w) by apply Hinv.
      assert (Hstart : producer w = PGot n (Some e) dur \/
        (producer w = PDone (psum w) ret /\
         readError (shared w) = Some e)) by (by left).
      clear Hinv Hps Hr Hp Hcap.
      induction Hrun as [x|x y z Hxy Hyz IH]; [by split_and!|].
      destruct (failed_read_step E x y n e dur Hs Hxy Hstart)
        as (Hq & Hsum & Hcy).
      destruct IH as (? & ? & ?); [by eapply Shape_step|done|].
      split_and!; congruence. }
    destruct Hgen as (? & Hsum & Hcw). rewrite Hsum in Hcw.
    by split_and!.
Qed.

Lemma read_error_ends_reading_witness :
  let ret := if is_EOF Crash.bad then None else Some Crash.bad in
  readError (shared Crash.r2) = None /\
  (forall now, clock Crash.r2 <= now ->
     let w' := Read_commit Crash.r2 2 (Some Crash.bad) 4 now in
     tstep any_env Crash.r2 w' /\
     producer w' = PDone (wrap64 (produced Crash.r2)) ret /\
     readError (shared w') = Some Crash.bad /\
     ready (shared w') = ready (shared Crash.r2) + 2) /\
  (forall w2, rtc (step any_env) Crash.r2 w2 ->
     src_given w2 = src_given Crash.r2 /\
     (producer w2 = PGot 2 (Some Crash.bad) 4 \/
      (producer w2 = PDone (wrap64 (produced Crash.r2)) ret /\
       readError (shared w2) = Some Crash.bad))).
Proof.
  apply (read_error_ends_reading any_env 4 (fresh 4) 0 Crash.r2 2 Crash.bad 4).
  - reflexivity.
  - lia.
  - apply crash_reach2.
  - reflexivity.
Defined.

(** ** A read of no bytes *)

Lemma Spare_step E w w' : Shape w -> Spare w -> step E w w' -> Spare w'.
Proof.
  intros Hs Hsp Hstep. destruct Hstep as [w w' Hts | w now Hnow]; [|done].
  pose proof (tstep_moved E _ _ Hs Hts) as Hm. clear Hts.
  destruct Hs as [Hcap Hidx Hpc Hpp Hroom Hinit Hrd Hwr Hnp Hnc].
  unfold Spare, pend_c, pending_c in *.
  invert_moved Hm; proto_open; try done.
  { destruct (Hrd _ _ Hp) as (-> & ? & ?).
    rewrite store_length by (rewrite ?length_app; lia). lia. }
  all: rewrite Hc in Hpc; cbn in Hpc.
  all: destruct (producer w); cbn [wake_producer]; try done; lia.
Qed.

Lemma Spare_reachable E size t0 w :
  1 <= size -> reachable E (boot (fresh size) t0) w -> Spare w.
Proof.
  intros Hsize Hr.
  assert (H0 : Spare (boot (fresh size) t0)) by done.
  pose proof (Shape_boot size t0 Hsize) as Hs.
  unfold reachable in Hr.
  induction Hr as [|x y z Hxy _ IH]; [done|].
  apply IH; [by eapply Spare_step|by eapply Shape_step].
Qed.

(** X17. A read that returns no bytes and no error changes nothing in the
    ring: when no write error is recorded, [ReadFrom] does not wait but
    calls [r.Read] again at once, with a non-empty slice that starts at the
    same index. *)
Theorem empty_read_is_retried E size b t0 w dur now :
  New size = Some b -> 1 <= size -> reachable E (boot b t0) w ->
  producer w = PGot 0 None dur -> writeError (shared w) = None ->
  clock w <= now ->
  let w' := Read_commit w 0 None dur now in
  tstep E w w' /\
  (exists hi, producer w' = PRead (readIndex (shared w)) hi /\
              readIndex (shared w) < hi <= size) /\
  readIndex (shared w') = readIndex (shared w) /\
  ready (shared w') = ready (shared w) /\
  buf (shared w') = buf (shared w) /\
  totalBytesRead (shared w') = totalBytesRead (shared w) /\
  src_given w' = src_given w.
Proof.
  intros Hnew Hsize Hr Hp Hwe Hnow w'. subst w'.
  pose proof (Copy_Inv E size b t0 w Hnew Hsize Hr) as [Hs _ _ Hl _].
  pose proof (Copy_len E size b t0 w Hnew Hsize Hr) as Hlen.
  assert (Hsp : Spare w).
  { unfold New in Hnew. destruct (size <? 0); simplify_eq.
    by eapply Spare_reachable. }
  unfold Spare in Hsp. rewrite Hp in Hsp.
  pose proof (led_total _ Hl) as Htot.
  destruct Hs as [Hcap Hidx Hpc Hpp Hroom Hinit Hrd Hwr Hnp Hnc].
  split; [by apply step_Read_commit|].
  unfold Read_commit, read_commit.
  destruct (len (shared w) =? 0) eqn:Hz; [lia|].
  unfold after_read, full_wait. fields. rewrite Hwe, !Z.add_0_r.
  assert (Hrem : Z.rem (readIndex (shared w)) (Z.of_nat (length (buf (shared w))))
                 = readIndex (shared w)) by (apply Z.rem_small; lia).
  destruct (ready (shared w) =? Z.of_nat (length (buf (shared w)))) eqn:Hfull;
    [lia|].
  match goal with |- context [offer_free ?b now] =>
    pose proof (until_of_bounds b) as Hu;
    rewrite (offer_free_ok b now)
      by (fields; rewrite ?Z.add_0_r, ?Hrem; lia)
  end.
  fields. rewrite ?Z.add_0_r, ?Hrem in *.
  split_and!; try done.
  - eexists. split; [done|]. destruct Hu as [? _]; lia.
  - by rewrite Htot, add64_wrap, Z.add_0_r.
Qed.

Lemma stalled_reachable : reachable any_env (boot (fresh 4) 0) stalled.
Proof.
  apply (rtc_l _ _ Demo.w1); [apply DemoRun.step01|].
  apply rtc_once, step_transfer.
  by apply step_Read_returns with (hi := 4).
Qed.

Lemma empty_read_is_retried_witness :
  let w' := Read_commit stalled 0 None 5 16 in
  tstep any_env stalled w' /\
  (exists hi, producer w' = PRead (readIndex (shared stalled)) hi /\
              readIndex (shared stalled) < hi <= 4) /\
  readIndex (shared w') = readIndex (shared stalled) /\
  ready (shared w') = ready (shared stalled) /\
  buf (shared w') = buf (shared stalled) /\
  totalBytesRead (shared w') = totalBytesRead (shared stalled) /\
  src_given w' = src_given stalled.
Proof.
  apply (empty_read_is_retried any_env 4 (fresh 4) 0 stalled 5 16).
  - reflexivity.
  - lia.
  - apply stalled_reachable.
  - reflexivity.
  - reflexivity.
  - by vm_compute.
Defined.

(** ** The two calls in flight *)

(** X5. While [r.Read] and [w.Write] are both in flight, the slices of
    [b.buf] they were handed do not overlap. *)
Theorem slices_in_flight_disjoint E size b t0 w lo hi lo' hi' :
  New size = Some b -> 1 <= size -> reachable E (boot b t0) w ->
  producer w = PRead lo hi -> consumer w = CWrite lo' hi' ->
  hi <= lo' \/ hi' <= lo.
Proof.
  intros Hnew Hsize Hr Hp Hc.
  pose proof (Copy_Inv E size b t0 w Hnew Hsize Hr) as [Hs Hring _ _ _].
  destruct Hs as [Hcap Hidx Hpc Hpp Hroom Hinit Hrd Hwr Hnp Hnc].
  destruct Hring as [Hhead Hrdy Hfifo Hdata Htail].
  destruct (Hrd _ _ Hp) as (-> & ? & ?).
  destruct (Hwr _ _ Hc) as (? & ? & ? & ?).
  specialize (Htail _ _ Hc). 
  unfold pend_p, pend_c in *. rewrite Hp, Hc in *. cbn in *.
  set (C := len (shared w)) in *.
  set (P := produced w) in *. set (Q := delivered w) in *.
  rewrite Z.sub_0_r in *.
  assert (HP : P = Q + ready (shared w)) by lia.
  destruct (decide (Q mod C + ready (shared w) < C)) as [Hfit|Hwrap].
  - right. rewrite Hhead, HP, mod_offset by lia. lia.
  - left. rewrite Hhead in *.
    replace P with (Q + ready (shared w) - C + 1 * C) in * by lia.
    rewrite Z.mod_add in * by lia.
    pose proof (Z.mod_pos_bound Q C ltac:(lia)).
    replace (Q + ready (shared w) - C) with (Q + (ready (shared w) - C)) in * by lia.
    rewrite <- Zplus_mod_idemp_l in *.
    rewrite Z.mod_small in * by lia. lia.
Qed.

Lemma slices_in_flight_disjoint_witness :
  producer Demo.w5 = PRead 1 4 /\ consumer Demo.w5 = CWrite 0 1 /\
  (4 <= 0 \/ 1 <= 1).
Proof.
  split_and!; [reflexivity..|].
  apply (slices_in_flight_disjoint any_env 4 (fresh 4) 0 Demo.w5 1 4 0 1).
  - reflexivity.
  - lia.
  - apply DemoRun.reach5.
  - reflexivity.
  - reflexivity.
Defined.

(** The slice handed to [w.Write] shows the bytes of the source that follow
    the delivered ones. *)
Lemma view_is_next (st src : list Byte.byte) Q lo hi :
  let C := Z.of_nat (length st) in
  let P := Z.of_nat (length src) in
  0 < C -> 0 <= Q ->
  (forall i, Q <= i < P -> st !! Z.to_nat (i mod C) = src !! Z.to_nat i) ->
  lo = Q mod C -> lo <= hi -> hi <= C -> hi - lo <= P - Q ->
  view st lo hi = take (Z.to_nat (hi - lo)) (drop (Z.to_nat Q) src).
Proof.
  intros C P HC HQ0 Hdata Hlo Hn Hhi HnP.
  pose proof (Z.mod_pos_bound Q C HC) as HQ.
  apply list_eq. intros j.
  destruct (decide (j < Z.to_nat (hi - lo))%nat) as [Hj|Hj].
  - rewrite lookup_take_lt by done.
    replace j with (Z.to_nat (Z.of_nat j)) at 1 by lia.
    rewrite view_lookup by lia.
    rewrite lookup_drop.
    replace (Z.to_nat Q + j)%nat with (Z.to_nat (Q + Z.of_nat j)) by lia.
    rewrite <- Hdata by lia. f_equal. f_equal.
    rewrite mod_offset; lia.
  - rewrite lookup_take_ge by lia.
    apply lookup_ge_None_2.
    assert (Z.of_nat (length (view st lo hi)) = hi - lo)
      by (apply view_length; lia).
    lia.
Qed.

(** X6. The slice [WriteTo] hands to [w.Write] is never empty and holds
    exactly the bytes the reader handed over right after those the writer
    has already accepted, so a short write is followed by a write of the
    bytes it left. *)
Theorem write_gets_next_bytes E size b t0 w lo hi :
  New size = Some b -> 1 <= size -> reachable E (boot b t0) w ->
  consumer w = CWrite lo hi ->
  view (buf (shared w)) lo hi
  = take (Z.to_nat (hi - lo)) (drop (length (snk_taken w)) (src_given w)) /\
  1 <= hi - lo <= Z.of_nat (length (src_given w))
                  - Z.of_nat (length (snk_taken w)).
Proof.
  intros Hnew Hsize Hr Hc.
  pose proof (Copy_Inv E size b t0 w Hnew Hsize Hr) as [Hs Hring _ _ _].
  destruct Hs as [Hcap Hidx Hpc Hpp Hroom Hinit Hrd Hwr Hnp Hnc].
  destruct Hring as [Hhead Hrdy Hfifo Hdata Htail].
  destruct (Hwr _ _ Hc) as (? & ? & ? & ?).
  specialize (Htail _ _ Hc).
  unfold pend_p, pend_c, produced, delivered, len in *.
  rewrite Hc in *. cbn [pending_c] in *.
  split; [|lia].
  rewrite <- (Nat2Z.id (length (snk_taken w))).
  apply view_is_next; try lia.
  intros i Hi. apply Hdata. lia.
Qed.

Lemma write_gets_next_bytes_witness :
  view (buf (shared Demo.w5)) 0 1
  = take (Z.to_nat (1 - 0))
      (drop (length (snk_taken Demo.w5)) (src_given Demo.w5)) /\
  1 <= 1 - 0 <= Z.of_nat (length (src_given Demo.w5))
                - Z.of_nat (length (snk_taken Demo.w5)).
Proof.
  apply (write_gets_next_bytes any_env 4 (fresh 4) 0 Demo.w5 0 1).
  - reflexivity.
  - lia.
  - apply DemoRun.reach5.
  - reflexivity.
Defined.

(** ** Waiting *)

(** X7. No wake-up is lost: while [WriteTo] is asleep in [cond.Wait],
    [ReadFrom] is neither asleep nor gone, and while [ReadFrom] is asleep,
    [WriteTo] is neither asleep nor gone; so as long as [Copy] has not
    returned, one of the two goroutines can take the mutex, or is inside
    [r.Read] or [w.Write] and moves on when that call returns. *)
Theorem no_lost_wakeup E size b t0 w :
  New size = Some b -> 1 <= size -> reachable E (boot b t0) w ->
  (consumer w = CWait -> p_active (producer w) = true) /\
  (producer w = PWait -> c_active (consumer w) = true) /\
  (Copy_result w = None -> exists w', tstep any_env w w').
Proof.
  intros Hnew Hsize Hr.
  pose proof (Copy_Inv E size b t0 w Hnew Hsize Hr) as [Hs _ Hq _ _].
  destruct Hs as [Hcap Hidx Hpc Hpp Hroom Hinit Hrd Hwr Hnp Hnc].
  destruct Hq as [Hrerr Hwerr Hpdone Hcdone Hpwait Hcwait Hpinit].
  assert (Hcw : consumer w = CWait -> p_active (producer w) = true).
  { intros Hc. destruct (Hcwait Hc) as [Hz Hre].
    destruct (producer w) as [|lo hi|n err dur| | |sum err|] eqn:Hp; try done.
    - destruct (Hpwait eq_refl) as [? _]. lia.
    - destruct (Hpdone _ _ eq_refl) as [(e & He & _)|(_ & e & He & _)];
        [congruence|].
      destruct (Hwerr _ He) as (? & ? & _ & ?). congruence. }
  assert (Hpw : producer w = PWait -> c_active (consumer w) = true).
  { intros Hp. destruct (Hpwait Hp) as [Hfull Hwe].
    destruct (consumer w) as [|lo hi|n err dur| | |sum err|] eqn:Hc; try done.
    - destruct (Hcwait eq_refl) as [? _]. lia.
    - destruct (Hcdone _ _ eq_refl) as [(e & He & _)|(_ & ? & _)];
        [congruence|lia]. }
  split_and!; [done..|].
  intros Hres. unfold Copy_result in Hres.
  assert (Hprod : p_active (producer w) = true -> exists w', tstep any_env w w').
  { destruct (producer w) as [|lo hi|n err dur| | |sum err|] eqn:Hp; try done;
      intros _.
    - exists (ReadFrom_enter w (clock w) (clock w)).
      apply step_ReadFrom_enter; [done|lia..].
    - destruct (Hrd _ _ eq_refl) as (_ & ? & _).
      exists (Read_returns w lo (clock w) []
                (replicate (Z.to_nat (hi - lo)) Byte.x00) None).
      apply step_Read_returns with (hi := hi); [done|lia| |done].
      rewrite length_replicate. cbn. lia.
    - exists (Read_commit w n err dur (clock w)).
      apply step_Read_commit; [done|lia].
    - exists (ReadFrom_wakes w (clock w)).
      apply step_ReadFrom_wakes; [done|lia]. }
  destruct (consumer w) as [|lo hi|n err dur| | |sum err|] eqn:Hc; try done.
  - exists (WriteTo_enter w (clock w) (clock w)).
    apply step_WriteTo_enter; [done|lia..].
  - destruct (Hwr _ _ eq_refl) as (? & ? & _).
    exists (Write_returns w lo hi (clock w) 0 None).
    apply step_Write_returns; [done|lia|lia|done].
  - exists (Write_commit w n err dur (clock w)).
    apply step_Write_commit; [done|lia].
  - by apply Hprod, Hcw.
  - exists (WriteTo_wakes w (clock w)).
    apply step_WriteTo_wakes; [done|lia].
Qed.

Lemma waiting_reachable : reachable any_env (boot (fresh 4) 0) waiting.
Proof.
  apply rtc_once, step_transfer. by apply step_WriteTo_enter.
Qed.

Lemma no_lost_wakeup_witness :
  consumer waiting = CWait /\
  (consumer waiting = CWait -> p_active (producer waiting) = true) /\
  (producer waiting = PWait -> c_active (consumer waiting) = true) /\
  (Copy_result waiting = None -> exists w', tstep any_env waiting w').
Proof.
  split; [reflexivity|].
  apply (no_lost_wakeup any_env 4 (fresh 4) 0 waiting).
  - reflexivity.
  - lia.
  - apply waiting_reachable.
Defined.

(** ** A writer that may fail *)

Lemma Faulty_boot D fin size t0 : Faulty D fin (boot (fresh size) t0).
Proof. split; fields; intros; simplify_eq/=; eauto. Qed.

Lemma Faulty_moved D fin w w' :
  Faulty D fin w -> moved (faulty_env D fin) w w' -> Faulty D fin w'.
Proof.
  intros [Hpre Hcg Hpg Hrer] Hm.
  invert_moved Hm; proto_open.
  all: split; proto_open; intros; unwake'; simplify_eq/=; try done; eauto.
  all: try (destruct Hrule as (rest & -> & Hrest)).
  all: try (by eapply Hpg).
  all: try (by eapply (Hpg _ (Some _))).
  - exists rest. by rewrite app_assoc.
  - destruct err0 as [e|].
    + destruct Hrest as [-> ->]. by rewrite app_nil_r.
    + destruct data; [done|]. cbn. lia.
  - destruct (Hrer _ H) as [? Hd]. split; [done|].
    rewrite <- (app_nil_r (src_given w)) in Hd at 1.
    apply app_inv_head in Hd. symmetry in Hd.
    apply app_eq_nil in Hd as [-> ->]. done.
Qed.

Lemma rank_wake_c' c : rank_c' (wake_consumer c) <= rank_c' c + 2.
Proof. destruct c as [| |? [?|] ?| | | |]; cbn; lia. Qed.

Lemma rank_c'_nonneg c : 0 <= rank_c' c.
Proof. destruct c as [| |? [?|] ?| | | |]; cbn; lia. Qed.

Lemma todo'_nonneg D fin w :
  Ring w -> Shape w -> Faulty D fin w -> 0 <= todo' D w.
Proof.
  intros Hr Hs Hsc. destruct Hsc as [[rest Hrest] _ _ _].
  pose proof (ring_ready _ Hr). pose proof (shape_pend_c _ Hs).
  pose proof (shape_pend_p _ Hs). pose proof (shape_room _ Hs).
  pose proof (rank_p_nonneg (producer w)).
  pose proof (rank_c'_nonneg (consumer w)).
  unfold todo', produced, delivered in *.
  rewrite Hrest, length_app. lia.
Qed.

(** Every step that does not end [WriteTo] leaves less to do. *)
Lemma todo'_moved D fin w w' :
  Shape w -> Faulty D fin w -> moved (faulty_env D fin) w w' ->
  Copy_result w' = None -> todo' D w' < todo' D w.
Proof.
  intros Hs Hsc Hm.
  destruct Hs as [Hcap Hidx Hpc Hpp Hroom Hinit Hrd Hwr Hnp Hnc].
  destruct Hsc as [Hpre Hcg Hpg Hrer].
  unfold todo', produced, delivered, Copy_result.
  invert_moved Hm; proto_open.
  all: try (pose proof (rank_wake_p (producer w))).
  all: try (pose proof (rank_wake_c' (consumer w))).
  all: try rewrite Hp; try rewrite Hc; cbn [rank_p rank_c rank_c'];
    try done; intros _; try lia.
  - destruct Hrule as (rest & _ & Hrest). rewrite length_app.
    destruct err as [?|]; [lia|]. destruct data; [done|]. cbn in *. lia.
  - destruct (Hwr _ _ Hc) as (? & ? & ? & ?). cbn in Hrule.
    pose proof (view_length (buf (shared w)) lo hi
                  ltac:(lia) ltac:(lia) ltac:(lia)).
    rewrite length_app, length_take.
    destruct err as [?|]; cbn [rank_c' rank_c]; [lia|].
    specialize (Hrule eq_refl). lia.
Qed.

Lemma tstep_faulty D fin w w' :
  tstep (script_env D fin) w w' -> tstep (faulty_env D fin) w w'.
Proof.
  intros Hts. destruct Hts.
  - by apply step_ReadFrom_enter.
  - by eapply step_Read_returns.
  - by apply step_Read_commit.
  - by apply step_ReadFrom_wakes.
  - by apply step_WriteTo_enter.
  - apply step_Write_returns; try done. cbn in *. intros _. lia.
  - by apply step_Write_commit.
  - by apply step_WriteTo_wakes.
Qed.

Lemma faulty_progress D fin t0 w :
  Inv t0 w -> Faulty D fin w -> Copy_result w = None ->
  exists w', tstep (faulty_env D fin) w w'.
Proof.
  intros Hinv [Hpre Hcg Hpg Hrer] Hres. unfold Copy_result in Hres.
  assert (Hsk : writeError (shared w) = None).
  { destruct (writeError (shared w)) as [e|] eqn:He; [|done].
    destruct (proto_werr _ (inv_proto _ _ Hinv) e He) as (? & ? & _ & Hc).
    by rewrite Hc in Hres. }
  assert (Hcase : (exists k e d, consumer w = CGot k (Some e) d) \/
            forall k e d, consumer w <> CGot k (Some e) d).
  { destruct (consumer w) as [| |k [e|] d| | | |]; eauto. }
  destruct Hcase as [(k & e & d & Hc)|Hnot].
  { eexists. by apply (step_Write_commit _ w k (Some e) d (clock w)). }
  destruct (script_progress D fin t0 w Hinv) as [w' Hts].
  - split; try done. intros n [e|] dur Hc; [|split; [done|by eapply Hcg]].
    by destruct (Hnot n e dur).
  - intros sum err Hc. by rewrite Hc in Hres.
  - exists w'. by apply tstep_faulty.
Qed.

Lemma Faulty_tstep D fin t0 w w' :
  Inv t0 w /\ Faulty D fin w -> tstep (faulty_env D fin) w w' ->
  Inv t0 w' /\ Faulty D fin w'.
Proof.
  intros [Hinv Hsc] Hts. split.
  - eapply Inv_step; [done|]. by apply step_transfer.
  - eapply Faulty_moved; [done|]. apply tstep_moved; [apply Hinv|done].
Qed.

Lemma Faulty_reachable D fin size t0 w :
  1 <= size -> reachable (faulty_env D fin) (boot (fresh size) t0) w ->
  Inv t0 w /\ Faulty D fin w.
Proof.
  intros Hsize Hr. unfold reachable in Hr.
  assert (H0 : Inv t0 (boot (fresh size) t0)
               /\ Faulty D fin (boot (fresh size) t0)).
  { split; [by apply Inv_boot|apply Faulty_boot]. }
  induction Hr as [|x y z Hxy _ IH]; [done|].
  apply IH. destruct Hxy as [x y Hts|x now Hnow].
  - by eapply Faulty_tstep.
  - destruct H0 as [Hinv Hsc]. split.
    + eapply (Inv_step (faulty_env D fin)); [done|]. by apply step_Stats.
    + destruct Hsc. by split.
Qed.

Lemma faulty_completes D fin t0 w :
  Inv t0 w /\ Faulty D fin w ->
  inevitably (tstep (faulty_env D fin))
    (fun w' => (Inv t0 w' /\ Faulty D fin w') /\
               exists r, Copy_result w' = Some r) w.
Proof.
  intros Hw.
  assert (Hn : exists n : nat, (Z.to_nat (todo' D w) < n)%nat)
    by (exists (S (Z.to_nat (todo' D w))); lia).
  destruct Hn as [n Hn]. revert w Hw Hn.
  induction n as [|n IH]; intros w Hw Hn; [lia|].
  destruct (Copy_result w) as [r|] eqn:Hres.
  { apply inevitably_now. eauto. }
  apply inevitably_later.
  { apply (faulty_progress D fin t0); [apply Hw|apply Hw|done]. }
  intros w' Hts.
  pose proof (Faulty_tstep D fin t0 w w' Hw Hts) as Hw'.
  destruct (Copy_result w') as [r|] eqn:Hres'.
  { apply inevitably_now. eauto. }
  apply IH; [done|].
  destruct Hw as [Hinv Hsc]. destruct Hw' as [Hinv' Hsc'].
  pose proof (todo'_moved D fin w w' (inv_shape _ _ Hinv) Hsc
                (tstep_moved _ w w' (inv_shape _ _ Hinv) Hts) Hres').
  pose proof (todo'_nonneg D fin w' (inv_ring _ _ Hinv')
                (inv_shape _ _ Hinv') Hsc').
  lia.
Qed.

(** X8. With a reader that offers the bytes [D] and then reports [fin], and
    a writer that accepts at least one byte per call or fails, [Copy]
    returns under every schedule; its count is the number of bytes the
    writer accepted, which are a prefix of [D]; and either it returns a
    write error, or the writer holds all of [D] and the result is nil for
    [io.EOF] and the wrapped read error otherwise. *)
Theorem Copy_returns_when_writer_fails D fin size b t0 w :
  New size = Some b -> 1 <= size ->
  reachable (faulty_env D fin) (boot b t0) w ->
  inevitably (tstep (faulty_env D fin))
    (fun w' => exists s err, Copy_result w' = Some (s, err) /\
       s = wrap64 (Z.of_nat (length (snk_taken w'))) /\
       snk_taken w' `prefix_of` D /\
       ((exists e, err = Some (Errorf "write error" e)) \/
        (snk_taken w' = D /\
         err = if is_EOF fin then None
               else Some (Errorf "read error" fin)))) w.
Proof.
  intros Hnew Hsize Hr.
  unfold New in Hnew. destruct (size <? 0); simplify_eq.
  pose proof (Faulty_reachable D fin size t0 w Hsize Hr) as Hw.
  eapply inevitably_mono; [|by apply (faulty_completes D fin t0)].
  intros w' ([Hinv Hsc] & [s err] & Hres).
  exists s, err. split; [done|]. apply Copy_result_done in Hres.
  destruct (Hinv) as [Hs Hring Hq Hl _].
  destruct Hsc as [[rest Hrest] Hcg Hpg Hrer].
  split_and!.
  - rewrite (led_cdone _ Hl _ _ Hres). apply (led_csum _ Hl).
  - rewrite (ring_fifo _ Hring), Hrest.
    etrans; [apply prefix_take|]. by apply prefix_app_r.
  - destruct (proto_cdone _ Hq _ _ Hres)
      as [(e & He & ->)|(Hwn & _ & _)].
    + left. destruct (proto_werr _ Hq _ He) as (? & e0 & -> & _). eauto.
    + right.
      destruct (drained_all t0 w' s err Hinv Hres Hwn)
        as (Hall & _ & e & He & ->).
      destruct (Hrer e He) as [-> HD]. by rewrite Hall.
Qed.

Lemma Copy_returns_when_writer_fails_witness :
  inevitably (tstep (faulty_env hello EOF))
    (fun w' => exists s err, Copy_result w' = Some (s, err) /\
       s = wrap64 (Z.of_nat (length (snk_taken w'))) /\
       snk_taken w' `prefix_of` hello /\
       ((exists e, err = Some (Errorf "write error" e)) \/
        (snk_taken w' = hello /\
         err = if is_EOF EOF then None
               else Some (Errorf "read error" EOF))))
    (boot (fresh 16) 0).
Proof.
  apply (Copy_returns_when_writer_fails hello EOF 16 (fresh 16) 0
           (boot (fresh 16) 0)).
  - reflexivity.
  - lia.
  - apply rtc_refl.
Defined.

(** ** What Stats counts *)

Lemma Counted_step E w w' : Shape w -> Counted w -> step E w w' -> Counted w'.
Proof.
  intros Hs [Hcp Hcc] Hstep. destruct Hstep as [w w' Hts | w now Hnow]; [|done].
  pose proof (tstep_moved E _ _ Hs Hts) as Hm.
  destruct Hs as [Hcap Hidx Hpc Hpp Hroom Hinit Hrd Hwr Hnp Hnc].
  unfold Counted.
  invert_moved Hm; ring_open; rewrite ?length_app; cbn [pending_p pending_c].
  all: try (destruct (Hwr _ _ Hc) as (? & ? & ? & ?);
            match goal with |- context [view ?l ?a ?b] =>
              pose proof (view_length l a b ltac:(lia) ltac:(lia) ltac:(lia))
            end; rewrite length_take).
  all: lia.
Qed.

Lemma Counted_reachable E size t0 w :
  1 <= size -> reachable E (boot (fresh size) t0) w -> Counted w.
Proof.
  intros Hsize Hr. unfold reachable in Hr.
  assert (H0 : Shape (boot (fresh size) t0) /\ Counted (boot (fresh size) t0)).
  { split; [by apply Shape_boot|]. unfold Counted. ring_open. cbn. lia. }
  induction Hr as [|x y z Hxy _ IH]; [by destruct H0|].
  destruct H0 as [Hs Hc].
  apply IH. split; [by eapply Shape_step|by eapply Counted_step].
Qed.

(** X9. As long as fewer than 2^63 bytes have been read: [BytesRead] is the
    number of bytes the reader has handed over, less those of a read that
    has returned but is not yet accounted for; [BytesRead - BufferedBytes]
    is the number of bytes the writer has accepted, less those of a write
    not yet accounted for; and [BufferedBytes] is between zero and
    [BytesRead]. *)
Theorem Stats_byte_counters E size b t0 w now :
  New size = Some b -> 1 <= size -> reachable E (boot b t0) w ->
  Z.of_nat (length (src_given w)) < 2 ^ 63 ->
  let s := Stats (shared w) now in
  BytesRead s = Z.of_nat (length (src_given w)) - pend_p w /\
  BytesRead s - BufferedBytes s
  = Z.of_nat (length (snk_taken w)) - pend_c w /\
  0 <= BufferedBytes s <= BytesRead s.
Proof.
  intros Hnew Hsize Hr Hsmall s. subst s.
  pose proof (Copy_Inv E size b t0 w Hnew Hsize Hr) as [Hs Hring _ Hl _].
  assert (Hcnt : Counted w).
  { unfold New in Hnew. destruct (size <? 0); simplify_eq.
    by eapply Counted_reachable. }
  destruct Hcnt as [Hcp Hcc].
  destruct Hs as [Hcap Hidx Hpc Hpp Hroom Hinit Hrd Hwr Hnp Hnc].
  pose proof (ring_ready _ Hring) as Hrdy.
  pose proof (led_total _ Hl) as Htot.
  unfold produced, delivered in *. cbn [Stats BytesRead BufferedBytes].
  rewrite Htot, wrap64_small by lia. lia.
Qed.

Lemma Stats_byte_counters_witness :
  let s := Stats (shared Demo.w6) 40 in
  BytesRead s = Z.of_nat (length (src_given Demo.w6)) - pend_p Demo.w6 /\
  BytesRead s - BufferedBytes s
  = Z.of_nat (length (snk_taken Demo.w6)) - pend_c Demo.w6 /\
  0 <= BufferedBytes s <= BytesRead s.
Proof.
  apply (Stats_byte_counters any_env 4 (fresh 4) 0 Demo.w6 40).
  - reflexivity.
  - lia.
  - apply DemoRun.reach6.
  - by vm_compute.
Defined.

(** ** The timers against each other *)

Lemma Budget_boot size t0 : Budget (boot (fresh size) t0).
Proof. split; fields; intros; simplify_eq/=; auto 10. Qed.

Ltac budget_open :=
  lazymatch goal with Hnow : clock ?w <= _ |- _ =>
    repeat match goal with
    | H : clock w <= ?t |- _ =>
        lazymatch goal with
        | _ : phase_base (clock w) (timeStarted (shared w)) <= phase_base t _ |- _ => fail
        | _ =>
          pose proof (phase_base_later (clock w) t (timeStarted (shared w)) H);
          pose proof (phase_base_later (clock w) t (lastReadStarted (shared w)) H);
          pose proof (phase_base_later (clock w) t (lastWriteStarted (shared w)) H)
        end
    end;
    try match goal with
    | Hp : producer w = _ |- _ =>
        destruct (consumer w) eqn:?;
        cbn [wake_consumer read_phase write_phase total_phase] in *
    end;
    repeat match goal with
    | H : exists u, _ |- _ => destruct H as (? & ? & ?)
    | H : _ /\ _ |- _ => destruct H
    end;
    repeat match goal with
    | H : lastReadStarted (shared w) = _ |- _ => rewrite H in *; clear H
    | H : lastWriteStarted (shared w) = _ |- _ => rewrite H in *; clear H
    end;
    destruct (timeStarted (shared w)) eqn:?;
    repeat match goal with
    | H : forall u, At _ = At u -> _ |- _ => specialize (H _ eq_refl)
    | H : TimeZero = TimeZero -> _ |- _ => specialize (H eq_refl)
    | H : forall u, TimeZero = At u -> _ |- _ => clear H
    | H : At _ = TimeZero -> _ |- _ => clear H
    end;
    repeat match goal with
    | H : _ /\ _ |- _ => destruct H
    end
  end.

Lemma Budget_moved E t0 w w' :
  Shape w -> Protocol w -> Timed t0 w -> Budgeted t0 w -> moved E w w' ->
  Budgeted t0 w'.
Proof.
  intros Hs Hq Ht Hb Hm Hclk.
  pose proof (moved_clock _ _ _ Hm) as Hmono.
  destruct Ht as [Hck Hst Hrun Hrp Hwp Hrt Hwt Htt]; [lia|].
  destruct Hb as [Hbr Hbi]; [lia|].
  destruct Hs as [Hcap Hidx Hpc Hpp Hroom Hinit Hrd Hwr Hnp Hnc].
  destruct Hq as [Hrerr Hwerr Hpdone Hcdone Hpwait Hcwait Hpinit].
  invert_moved Hm; proto_open.
  all: try (destruct (Hrerr _ Hre) as (? & ? & Hpd); rewrite Hpd in Hrp).
  all: try (pose proof Hp as Hp'; rewrite Hp' in * ).
  all: try (pose proof Hc as Hc'; rewrite Hc' in * ).
  all: cbn [read_phase write_phase total_phase] in *.
  all: repeat match goal with
    | H : exists u, _ |- _ => destruct H as (? & ? & ?)
    | H : _ /\ _ |- _ => destruct H
    end.
  all: split; proto_open; intros.
  all: budget_open.
  all: cbn [phase_base IsZero] in *; simplify_eq/=.
  all: unfold Since, maxDuration, minDuration in *;
       cbn [phase_base IsZero] in *.
  all: repeat (rewrite add64_small by lia).
  all: try done.
  all: try lia.
  all: try (split_and!; solve [done|lia]).
  all: try (destruct Hpinit as (_ & _ & [?|?]); [done|discriminate..]).
  all: try match goal with
       | Hi : producer ?w = PInit, Hrp : read_phase _ _ (producer ?w) _ |- _ =>
           rewrite Hi in Hrp; cbn [read_phase] in Hrp; rewrite Hrp in *;
           cbn [phase_base] in *; split_and!; lia
       end.
  all: split; [done|]; intros Hwn; exfalso.
  all: destruct (Hcdone _ _ eq_refl) as [(? & ? & ?)|(_ & _ & ? & Hre' & _)];
    [congruence|].
  all: destruct (Hrerr _ Hre') as (? & ? & ?); discriminate.
Qed.

Lemma Budgeted_step E t0 w w' :
  Inv t0 w -> Budgeted t0 w -> step E w w' -> Budgeted t0 w'.
Proof.
  intros [Hs _ Hq _ Ht] Hb Hstep.
  destruct Hstep as [w w' Hts | w now Hnow].
  - eapply Budget_moved; eauto using tstep_moved.
  - intros Hclk. fields. destruct Hb as [Hbr Hbi]; [lia|].
    pose proof (phase_base_later (clock w) now (lastReadStarted (shared w)) Hnow).
    pose proof (phase_base_later (clock w) now (lastWriteStarted (shared w)) Hnow).
    split; fields; [|done].
    intros u Hu. destruct (Hbr u Hu) as (? & ? & ?). split_and!; [done|lia..].
Qed.

Lemma Budgeted_reachable E size t0 w :
  1 <= size -> reachable E (boot (fresh size) t0) w -> Budgeted t0 w.
Proof.
  intros Hsize Hr.
  assert (H0 : Budgeted t0 (boot (fresh size) t0))
    by (intros _; apply Budget_boot).
  pose proof (Inv_boot size t0 Hsize) as Hinv.
  unfold reachable in Hr.
  induction Hr as [|x y z Hxy _ IH]; [done|].
  apply IH; [by eapply Budgeted_step|by eapply Inv_step].
Qed.

Lemma Copy_Budget E size b t0 w :
  New size = Some b -> 1 <= size -> reachable E (boot b t0) w ->
  Budgeted t0 w.
Proof.
  unfold New. intros Hnew Hsize Hr. destruct (size <? 0); simplify_eq.
  by eapply Budgeted_reachable.
Qed.

(** What [Stats] reports at a reading [now] of the clock, within the range
    of [time.Duration]. *)
Lemma Stats_timers t0 w now :
  Timing t0 w -> clock w <= now -> now - t0 <= maxDuration ->
  TotalTime (Stats (shared w) now)
    = totalTimeSpent (shared w) + elapsed now (timeStarted (shared w)) /\
  TimeSpentReading (Stats (shared w) now)
    = timeSpentReading (shared w) + elapsed now (lastReadStarted (shared w)) /\
  TimeSpentWriting (Stats (shared w) now)
    = timeSpentWriting (shared w) + elapsed now (lastWriteStarted (shared w)) /\
  0 <= elapsed now (timeStarted (shared w)) /\
  0 <= elapsed now (lastReadStarted (shared w)) /\
  0 <= elapsed now (lastWriteStarted (shared w)).
Proof.
  intros [Hck Hst Hrun Hrp Hwp Hrt Hwt Htt] Hnow Hclk.
  cbn [Stats TotalTime TimeSpentReading TimeSpentWriting].
  assert (Hr' : exists u, lastReadStarted (shared w) = At u /\ t0 <= u <= clock w
                \/ lastReadStarted (shared w) = TimeZero).
  { destruct (producer w); cbn in Hrp; try (exists 0; by right).
    - destruct Hrp as (u & ? & ?). exists u. by left.
    - destruct Hrp as (u & ? & ? & ? & ?). exists u. left. split; [done|lia]. }
  assert (Hw' : exists u, lastWriteStarted (shared w) = At u /\ t0 <= u <= clock w
                \/ lastWriteStarted (shared w) = TimeZero).
  { destruct (consumer w); cbn in Hwp; try (exists 0; by right).
    - destruct Hwp as (u & ? & ?). exists u. by left.
    - destruct Hwp as (u & ? & ? & ? & ?). exists u. left. split; [done|lia]. }
  destruct Hr' as (ur & Hr'). destruct Hw' as (uw & Hw').
  assert (Ht' : exists u, timeStarted (shared w) = At u /\ t0 <= u <= clock w
                \/ timeStarted (shared w) = TimeZero).
  { destruct (timeStarted (shared w)) as [|u]; [exists 0; by right|].
    exists u. left. split; [done|]. by apply Hst. }
  destruct Ht' as (ut & Ht').
  destruct Hr' as [[Hx ?]|Hx]; rewrite Hx in *;
    destruct Hw' as [[Hy ?]|Hy]; rewrite Hy in *;
    destruct Ht' as [[Hz ?]|Hz]; rewrite Hz in *;
    cbn [phase_base elapsed] in *;
    rewrite ?with_open_phase_exact by (cbn; lia);
    cbn [with_open_phase IsZero elapsed]; lia.
Qed.

(** [Copy] has not returned an error of the writer. *)
Lemma no_write_error w :
  Protocol w ->
  (forall s e, Copy_result w <> Some (s, Some (Errorf "write error" e))) ->
  writeError (shared w) = None.
Proof.
  intros Hq Hres.
  destruct (writeError (shared w)) as [x|] eqn:Hx; [|done].
  destruct (proto_werr _ Hq x Hx) as (cs & e0 & -> & Hc).
  destruct (Hres cs e0). unfold Copy_result. by rewrite Hc.
Qed.

(** The shares of the total: what [Stats] reports for writing never
    exceeds what it reports in total, nor does reading unless the writer
    has failed; and the total is within the time since [Copy] began. *)
Lemma Stats_shares t0 w now :
  Protocol w -> Timing t0 w -> Budget w ->
  clock w <= now -> now - t0 <= maxDuration ->
  let s := Stats (shared w) now in
  0 <= TimeSpentWriting s <= TotalTime s /\
  0 <= TimeSpentReading s /\
  TotalTime s <= now - t0 /\
  ((forall cs e, Copy_result w <> Some (cs, Some (Errorf "write error" e))) ->
   TimeSpentReading s <= TotalTime s).
Proof.
  intros Hq Ht [Hbr Hbi] Hnow Hclk s. subst s.
  destruct (Stats_timers t0 w now) as (-> & -> & -> & ? & ? & ?); [done..|].
  pose proof (no_write_error w Hq) as Hnone.
  destruct Ht as [Hck Hst Hrun Hrp Hwp Hrt Hwt Htt].
  pose proof (phase_base_later (clock w) now (lastReadStarted (shared w)) Hnow).
  pose proof (phase_base_later (clock w) now (lastWriteStarted (shared w)) Hnow).
  destruct (timeStarted (shared w)) as [|u] eqn:Hts.
  - specialize (Hbi eq_refl).
    destruct (consumer w) as [| | | | |cs cerr|] eqn:Hc; try done;
      cbn [write_phase] in Hwp; rewrite Hwp in *.
    + destruct Hbi as (Hp & ? & ? & ?). rewrite Hp in Hrp. cbn in Hrp.
      rewrite Hrp. cbn. lia.
    + destruct Hbi as [? Hread]. cbn in *. split_and!; try lia.
      intros Hres. specialize (Hread (Hnone Hres)).
      destruct (proto_cdone _ Hq _ _ Hc) as [(? & Hx & _)|(_ & _ & x & Hx & _)];
        [rewrite (Hnone Hres) in Hx; discriminate|].
      destruct (proto_rerr _ Hq x Hx) as (? & ? & Hp).
      rewrite Hp in Hrp. cbn in Hrp. rewrite Hrp. cbn. lia.
  - destruct (Hbr u eq_refl) as (? & ? & ?). specialize (Hst u eq_refl).
    destruct (lastReadStarted (shared w)), (lastWriteStarted (shared w));
      cbn [elapsed phase_base] in *; lia.
Qed.

(** X10. Within the range of [time.Duration], in every snapshot
    [TimeSpentWriting] is between zero and [TotalTime], [TotalTime] is at
    most the time since [Copy] began, and [TimeSpentReading] is between
    zero and [TotalTime] too, unless [Copy] has returned an error of the
    writer (a read may then still be in flight, with the total timer
    stopped). *)
Theorem timers_within_total E size b t0 w now :
  New size = Some b -> 1 <= size -> reachable E (boot b t0) w ->
  clock w <= now -> now - t0 <= maxDuration ->
  let s := Stats (shared w) now in
  0 <= TimeSpentWriting s <= TotalTime s /\
  0 <= TimeSpentReading s /\
  TotalTime s <= now - t0 /\
  ((forall cs e, Copy_result w <> Some (cs, Some (Errorf "write error" e))) ->
   TimeSpentReading s <= TotalTime s).
Proof.
  intros Hnew Hsize Hr Hnow Hclk.
  pose proof (Copy_Inv E size b t0 w Hnew Hsize Hr) as [_ _ Hq _ Ht].
  pose proof (Copy_Budget E size b t0 w Hnew Hsize Hr) as Hb.
  apply (Stats_shares t0); [done|apply Ht; lia|apply Hb; lia|done..].
Qed.

Lemma timers_within_total_witness :
  let s := Stats (shared Crash.r8) 20 in
  0 <= TimeSpentWriting s <= TotalTime s /\
  0 <= TimeSpentReading s /\
  TotalTime s <= 20 - 0 /\
  ((forall cs e,
      Copy_result Crash.r8 <> Some (cs, Some (Errorf "write error" e))) ->
   TimeSpentReading s <= TotalTime s).
Proof.
  apply (timers_within_total any_env 4 (fresh 4) 0 Crash.r8 20).
  - reflexivity.
  - lia.
  - apply crash_reach8.
  - by vm_compute.
  - by vm_compute.
Defined.

(** After the writer has failed the total timer is stopped, but the read
    in flight still counts: at 50 [Stats] reports 35 of reading in a total
    of 31. *)
Example reading_outlasts_total :
  Copy_result Demo.w8
  = Some (0, Some (Errorf "write error" (Failure "disk full"))) /\
  TimeSpentReading (stats_at Demo.w8) = 35 /\
  TotalTime (stats_at Demo.w8) = 31.
Proof. by vm_compute. Qed.

Lemma Stopped_step E w w' :
  Shape w -> Protocol w -> Stopped w -> step E w w' -> Stopped w'.
Proof.
  intros Hs Hq Hst Hstep.
  destruct Hstep as [w w' Hts | w now Hnow]; [|done].
  pose proof (tstep_moved E _ _ Hs Hts) as Hm. clear Hts.
  destruct Hq as [Hrerr Hwerr Hpdone Hcdone Hpwait Hcwait Hpinit].
  unfold Stopped in *.
  invert_moved Hm; proto_open.
  all: try (rewrite Hc in *; cbn [wake_consumer]; done).
  all: try (destruct (consumer w) eqn:Hc'; cbn [wake_consumer]; try done;
            destruct (Hpinit Hp) as (_ & _ & [?|?]); done).
  all: destruct (consumer w); cbn [wake_consumer]; done.
Qed.

Lemma Stopped_reachable E size t0 w :
  1 <= size -> reachable E (boot (fresh size) t0) w -> Stopped w.
Proof.
  intros Hsize Hr.
  assert (H0 : Stopped (boot (fresh size) t0)) by done.
  pose proof (Inv_boot size t0 Hsize) as Hinv.
  unfold reachable in Hr.
  induction Hr as [|x y z Hxy _ IH]; [done|].
  apply IH.
  - destruct Hinv as [Hs _ Hq _ _]. by eapply Stopped_step.
  - by eapply Inv_step.
Qed.

Lemma returned_step E w w' cs cerr :
  Shape w -> Protocol w -> Stopped w -> consumer w = CDone cs cerr ->
  step E w w' ->
  consumer w' = CDone cs cerr /\
  totalTimeSpent (shared w') = totalTimeSpent (shared w) /\
  timeSpentWriting (shared w') = timeSpentWriting (shared w).
Proof.
  intros Hs Hq Hst Hdone Hstep.
  destruct Hstep as [w w' Hts | w now Hnow]; [|done].
  pose proof (tstep_moved E _ _ Hs Hts) as Hm. clear Hts.
  invert_moved Hm; proto_open; rewrite ?Hdone; cbn [wake_consumer];
    try done; congruence.
Qed.

(** X11. The deferred function of [WriteTo] stops the total timer for
    good: once [Copy] has returned, its result stands and every later call
    of [Stats], at whatever time and whatever [ReadFrom] still does,
    reports the same [TotalTime] and the same [TimeSpentWriting]. *)
Theorem timers_stop_with_Copy E size b t0 w w' s e :
  New size = Some b -> 1 <= size -> reachable E (boot b t0) w ->
  Copy_result w = Some (s, e) -> rtc (step E) w w' ->
  Copy_result w' = Some (s, e) /\
  forall now now',
    TotalTime (Stats (shared w') now') = TotalTime (Stats (shared w) now) /\
    TimeSpentWriting (Stats (shared w') now')
    = TimeSpentWriting (Stats (shared w) now).
Proof.
  intros Hnew Hsize Hr Hres Hrun. apply Copy_result_done in Hres.
  pose proof (Copy_Inv E size b t0 w Hnew Hsize Hr) as Hinv.
  assert (Hst : Stopped w).
  { unfold New in Hnew. destruct (size <? 0); simplify_eq.
    by eapply Stopped_reachable. }
  assert (Hkeep : consumer w' = CDone s e /\ Stopped w' /\
            totalTimeSpent (shared w') = totalTimeSpent (shared w) /\
            timeSpentWriting (shared w') = timeSpentWriting (shared w)).
  { clear Hr. induction Hrun as [x|x y z Hxy Hyz IH]; [done|].
    destruct (Hinv) as [Hs _ Hq _ _].
    destruct (returned_step E x y s e Hs Hq Hst Hres Hxy) as (Hc & Ht & Hw).
    destruct IH as (? & ? & ? & ?);
      [done|by eapply Inv_step|by eapply Stopped_step|].
    split_and!; try done; congruence. }
  destruct Hkeep as (Hc' & Hst' & Ht & Hw).
  split; [by apply Copy_result_done|].
  intros now now'. unfold Stopped in Hst, Hst'. rewrite Hres in Hst.
  rewrite Hc' in Hst'. destruct Hst as [Hl Hs], Hst' as [Hl' Hs'].
  cbn [Stats TotalTime TimeSpentWriting].
  rewrite Hl, Hs, Hl', Hs'. cbn. by rewrite Ht, Hw.
Qed.

Lemma timers_stop_with_Copy_witness :
  Copy_result Demo.w8
  = Some (0, Some (Errorf "write error" (Failure "disk full"))) /\
  forall now now',
    TotalTime (Stats (shared Demo.w8) now')
    = TotalTime (Stats (shared Demo.w7) now) /\
    TimeSpentWriting (Stats (shared Demo.w8) now')
    = TimeSpentWriting (Stats (shared Demo.w7) now).
Proof.
  apply (timers_stop_with_Copy any_env 4 (fresh 4) 0 Demo.w7 Demo.w8 0
           (Some (Errorf "write error" (Failure "disk full")))).
  - reflexivity.
  - lia.
  - apply DemoRun.reach7.
  - reflexivity.
  - apply rtc_once, DemoRun.step78.
Defined.

(** The total timer, once started, keeps its start until [WriteTo]
    returns. *)
Lemma started_step E w w' u :
  Shape w -> step E w w' -> timeStarted (shared w) = At u ->
  Copy_result w' = None -> timeStarted (shared w') = At u.
Proof.
  intros Hs Hstep Hu. unfold Copy_result.
  destruct Hstep as [w w' Hts | w now Hnow]; [|done].
  pose proof (tstep_moved E _ _ Hs Hts) as Hm. clear Hts Hs.
  invert_moved Hm; proto_open; rewrite ?Hu; try done.
Qed.

Lemma running_step E w w' :
  Shape w -> Protocol w -> Stopped w -> step E w w' ->
  Copy_result w' = None -> Copy_result w = None.
Proof.
  intros Hs Hq Hst Hstep Hres'.
  destruct (Copy_result w) as [[cs cerr]|] eqn:Hres; [|done].
  apply Copy_result_done in Hres.
  destruct (returned_step E w w' cs cerr Hs Hq Hst Hres Hstep) as (Hc & _).
  apply Copy_result_done in Hc. congruence.
Qed.

(** X18. From the moment [ReadFrom] or [WriteTo] has started and as long
    as [Copy] has not returned, [TotalTime] is the time on the clock since
    one fixed instant, the first entry: it grows by exactly the time that
    passes between two calls of [Stats]. *)
Theorem TotalTime_follows_clock E size b t0 w w' :
  New size = Some b -> 1 <= size -> reachable E (boot b t0) w ->
  rtc (step E) w w' ->
  producer w <> PInit \/ consumer w <> CInit ->
  Copy_result w' = None ->
  exists u, t0 <= u <= clock w /\
    forall now now', clock w <= now -> clock w' <= now' ->
      now - t0 <= maxDuration -> now' - t0 <= maxDuration ->
      TotalTime (Stats (shared w) now) = now - u /\
      TotalTime (Stats (shared w') now') = now' - u.
Proof.
  intros Hnew Hsize Hr Hrun Hstarted Hres'.
  pose proof (Copy_Inv E size b t0 w Hnew Hsize Hr) as Hinv.
  assert (Hst : Stopped w).
  { unfold New in Hnew. destruct (size <? 0); simplify_eq.
    by eapply Stopped_reachable. }
  pose proof (Copy_Budget E size b t0 w Hnew Hsize Hr) as Hb.
  assert (Hr' : reachable E (boot b t0) w') by (by eapply rtc_trans).
  pose proof (Copy_Inv E size b t0 w' Hnew Hsize Hr') as Hinv'.
  pose proof (Copy_Budget E size b t0 w' Hnew Hsize Hr') as Hb'.
  assert (Hkeep : Copy_result w = None /\
            clock w <= clock w' /\
            forall u, timeStarted (shared w) = At u ->
                      timeStarted (shared w') = At u).
  { clear Hr Hr' Hb Hb' Hinv' Hstarted.
    induction Hrun as [x|x y z Hxy Hyz IH]; [by split_and!|].
    destruct (Hinv) as [Hs _ Hq _ _].
    destruct IH as (Hy & Hclk & Hstay);
      [done|by eapply Inv_step|by eapply Stopped_step|].
    pose proof (step_clock E x y Hs Hxy).
    split_and!; [by eapply running_step|lia|].
    intros u Hu. apply Hstay. by eapply started_step. }
  destruct Hkeep as (Hres & Hmono & Hstay).
  destruct (decide (clock w' - t0 <= maxDuration)) as [Hin|Hout].
  - assert (Hin0 : clock w - t0 <= maxDuration) by lia.
    destruct (Hb Hin0) as [Hbr Hbi].
    pose proof (inv_timed _ _ Hinv Hin0) as Ht.
    pose proof (inv_timed _ _ Hinv' Hin) as Ht'.
    destruct (timeStarted (shared w)) as [|u] eqn:Hts.
    { specialize (Hbi eq_refl). unfold Copy_result in Hres.
      destruct (consumer w); try done. destruct Hbi as [? _].
      destruct Hstarted; done. }
    exists u. split; [by apply (tm_started _ _ Ht)|].
    intros now now' Hnow Hnow' Hclk0 Hclk.
    destruct (Stats_timers t0 w now Ht Hnow Hclk0) as (-> & _).
    destruct (Stats_timers t0 w' now' Ht' Hnow' Hclk) as (-> & _).
    destruct (Hbr u eq_refl) as (-> & _).
    destruct (Hb' Hin) as [Hbr' _].
    destruct (Hbr' u (Hstay u eq_refl)) as (-> & _).
    rewrite (Hstay u eq_refl), Hts. cbn. lia.
  - exists (clock w).
    destruct (decide (clock w - t0 <= maxDuration)) as [Hin0|Hout0].
    + split; [pose proof (tm_clock _ _ (inv_timed _ _ Hinv Hin0)); lia|].
      intros; lia.
    + split; [|intros; lia].
      unfold maxDuration in *. lia.
Qed.

Lemma TotalTime_follows_clock_witness :
  exists u, 0 <= u <= clock Demo.w4 /\
    forall now now', clock Demo.w4 <= now -> clock Demo.w5 <= now' ->
      now - 0 <= maxDuration -> now' - 0 <= maxDuration ->
      TotalTime (Stats (shared Demo.w4) now) = now - u /\
      TotalTime (Stats (shared Demo.w5) now') = now' - u.
Proof.
  apply (TotalTime_follows_clock any_env 4 (fresh 4) 0 Demo.w4 Demo.w5).
  - reflexivity.
  - lia.
  - apply DemoRun.reach4.
  - apply rtc_once, DemoRun.step45.
  - left. discriminate.
  - reflexivity.
Defined.

(** ** Capacity zero, and a buffer used twice *)

Lemma Hollow_tstep E w w' :
  Hollow w -> tstep E w w' ->
  Hollow w' /\ 0 <= hollow_rank w' < hollow_rank w.
Proof.
  intros (Hlen & Hrdy & Hidx & Hre & Hp & Hc) Hstep.
  unfold Hollow, hollow_rank.
  destruct Hstep as
    [w now now' Hp' | w lo hi now data junk err Hp' ? Hlen' ?
    | w n err dur now Hp' | w now Hp'
    | w now now' Hc' | w lo hi now n err Hc' ? Hn ?
    | w n err dur now Hc' | w now Hc'].
  all: rewrite ?Hp', ?Hc' in *; try done.
  - unfold ReadFrom_enter, offer_free, until_of, slice_ok, len in *. fields.
    rewrite Hidx, Hrdy, Hlen. cbn. fields.
    destruct (consumer w); try done; cbn; split_and!; try done; lia.
  - destruct Hp as [-> ->].
    assert (length junk = 0%nat) by lia.
    unfold Read_returns, len in *. fields.
    destruct junk; [|done]. destruct data; [|cbn in *; lia].
    rewrite app_nil_r. unfold store. rewrite drop_0, take_0. cbn [app].
    destruct (consumer w); try done; cbn; split_and!; try done; lia.
  - unfold Read_commit, read_commit. rewrite Hlen. cbn. fields.
    destruct (consumer w); try done; cbn; split_and!; try done; lia.
  - unfold WriteTo_enter, drain, len in *. fields. rewrite Hrdy, Hre. cbn.
    fields.
    destruct (producer w); try done; cbn; split_and!; try done; lia.
Qed.

(** X12. [New] panics on a negative size.  [New(0)] builds a buffer, but
    on it [ReadFrom] always panics: whatever the reader and the schedule,
    it offers the empty slice and then divides by [len(b.buf)], which is
    zero, when it accounts for the first read. *)
Theorem zero_capacity_panics t0 :
  (forall size, size < 0 -> New size = None) /\
  New 0 = Some (fresh 0) /\
  inevitably (tstep any_env) (fun w => producer w = PPanic)
    (boot (fresh 0) t0).
Proof.
  split_and!; [|done|].
  { intros size Hneg. unfold New. by destruct (Z.ltb_spec size 0); [|lia]. }
  assert (H0 : Hollow (boot (fresh 0) t0)) by (by repeat split).
  assert (Hn : exists n : nat,
            (Z.to_nat (hollow_rank (boot (fresh 0) t0)) < n)%nat)
    by (eexists; apply Nat.lt_succ_diag_r).
  destruct Hn as [n Hn]. revert H0 Hn.
  generalize (boot (fresh 0) t0). clear t0.
  induction n as [|n IH]; intros w Hw Hn; [lia|].
  destruct (producer w) as [|lo hi|k err dur| | |sum err|] eqn:Hp.
  7: by apply inevitably_now.
  4-6: destruct Hw as (_ & _ & _ & _ & Hw & _); by rewrite Hp in Hw.
  all: apply inevitably_later;
    [|intros w' Hts; destruct (Hollow_tstep _ _ _ Hw Hts) as [Hw' ?];
      apply IH; [done|lia]].
  - exists (ReadFrom_enter w (clock w) (clock w)).
    apply step_ReadFrom_enter; [done|lia..].
  - destruct Hw as (_ & _ & _ & _ & Hw & _). rewrite Hp in Hw.
    destruct Hw as [-> ->].
    exists (Read_returns w 0 (clock w) [] [] None).
    by apply step_Read_returns with (hi := 0).
  - exists (Read_commit w k err dur (clock w)).
    apply step_Read_commit; [done|lia].
Qed.

(** X13. A buffer is spent after one transfer: [b.readError] is never
    reset, so on a buffer whose [Copy] has returned nil a second [WriteTo]
    that takes the mutex before anything new is buffered, whether or not
    the second [ReadFrom] has started, returns [0, nil] at once. *)
Theorem spent_buffer_copies_nothing E size b t0 w s t1 now now' :
  New size = Some b -> 1 <= size -> reachable E (boot b t0) w ->
  Copy_result w = Some (s, None) ->
  let again := boot (shared w) t1 in
  Copy_result (WriteTo_enter again now now') = Some (0, None) /\
  (forall t t',
     Copy_result (WriteTo_enter (ReadFrom_enter again t t') now now')
     = Some (0, None)).
Proof.
  intros Hnew Hsize Hr Hres again. subst again.
  apply Copy_result_done in Hres.
  pose proof (Copy_Inv E size b t0 w Hnew Hsize Hr) as [_ _ Hq _ _].
  destruct (proto_cdone _ Hq _ _ Hres)
    as [(e & _ & ?)|(_ & Hz & e & He & Herr)]; [done|].
  destruct e; try discriminate.
  split; [|intros t t'].
  - unfold Copy_result, WriteTo_enter, drain. fields. rewrite Hz. cbn. rewrite He. done.
  - unfold Copy_result, WriteTo_enter, ReadFrom_enter, offer_free, drain.
    destruct (slice_ok _ _ _); fields; rewrite Hz; cbn; rewrite He; done.
Qed.

Lemma spent_buffer_copies_nothing_witness :
  let again := boot (shared hello_end) 100 in
  Copy_result (WriteTo_enter again 101 102) = Some (0, None) /\
  (forall t t',
     Copy_result (WriteTo_enter (ReadFrom_enter again t t') 101 102)
     = Some (0, None)).
Proof.
  apply (spent_buffer_copies_nothing (script_env hello EOF) 16 (fresh 16) 0
           hello_end 16 100 101 102).
  - reflexivity.
  - lia.
  - apply hello_end_reachable.
  - by vm_compute.
Defined.

(** ** The lines of fv *)

Lemma column_start_S wd wds i :
  column_start (wd :: wds) (S i) = wd + 1 + column_start wds i.
Proof. done. Qed.

Lemma write_parts_layout widths parts :
  (length parts <= length widths)%nat ->
  exists widths' out,
    write_parts widths parts = Some (widths', out) /\
    length widths' = length widths /\
    (forall i wd, widths !! i = Some wd ->
       exists wd', widths' !! i = Some wd' /\ wd <= wd' /\
         match parts !! i with
         | Some p => wd' = Z.max wd (Z.of_nat (length p))
         | None => wd' = wd
         end) /\
    (forall i p, parts !! i = Some p ->
       0 <= column_start widths' i /\
       take (length p) (drop (Z.to_nat (column_start widths' i)) out) = p) /\
    (forall p, last parts = Some p ->
       Z.of_nat (length out)
       = column_start widths' (length parts - 1) + Z.of_nat (length p)).
Proof.
  revert widths. induction parts as [|p rest IH]; intros widths Hlen.
  { exists widths, []. split_and!; [done|done| | |done].
    - intros i wd Hi. exists wd. rewrite lookup_nil.
      split_and!; [done|lia|done].
    - intros i x Hi. by rewrite lookup_nil in Hi. }
  destruct widths as [|wd wds]; [cbn in Hlen; lia|].
  cbn [write_parts].
  set (wd' := if Z.of_nat (length p) >? wd then Z.of_nat (length p) else wd).
  assert (Hwd : wd' = Z.max wd (Z.of_nat (length p)))
    by (subst wd'; case_match; lia).
  destruct rest as [|q rest].
  - exists (wd' :: wds), p. split_and!; try done.
    + intros [|i] x Hi; cbn in *.
      * simplify_eq. eexists. split_and!; [done|lia|lia].
      * exists x. split_and!; [done|lia|done].
    + intros [|i] x Hi; cbn in *; [|done]. simplify_eq.
      split; [done|]. by rewrite take_ge.
    + intros x Hx. cbn in *. simplify_eq. unfold column_start. cbn. lia.
  - destruct (IH wds) as (wds' & out & Hrun & Hl & Hw & Hcol & Hend);
      [cbn in *; lia|].
    rewrite Hrun.
    assert (Hpad : (wd' + 1 - Z.of_nat (length p) <? 0) = false) by lia.
    rewrite Hpad.
    eexists _, _. split; [done|]. split_and!.
    + cbn. by rewrite Hl.
    + intros [|i] x Hi; cbn in *.
      * simplify_eq. eexists. split_and!; [done|lia|lia].
      * by apply Hw.
    + intros [|i] x Hi.
      * cbn in Hi. simplify_eq. split; [done|].
        unfold column_start. rewrite take_0. cbn [foldr].
        change (Z.to_nat 0) with 0%nat. rewrite drop_0.
        by rewrite take_app_length.
      * destruct (Hcol i x Hi) as [Hnn Htake].
        rewrite column_start_S. split; [lia|].
        rewrite app_assoc, drop_app_ge
          by (rewrite length_app, length_replicate; lia).
        rewrite <- Htake at 2. f_equal. f_equal.
        rewrite length_app, length_replicate. lia.
    + intros x Hx.
      change (last (p :: q :: rest)) with (last (q :: rest)) in Hx.
      specialize (Hend x Hx).
      replace (length (p :: q :: rest) - 1)%nat
        with (S (length (q :: rest) - 1)) by (cbn; lia).
      rewrite column_start_S, !length_app, length_replicate. lia.
Qed.

Lemma printStats_layout_total F widths s lineEnd :
  length widths = 6%nat -> TotalTime s <> 0 ->
  exists widths' line, printStats F widths s lineEnd = Some (widths', line).
Proof.
  intros Hlen Hne. unfold printStats, percent.
  destruct (TotalTime s =? 0) eqn:Hz; [lia|].
  match goal with |- context [write_parts widths ?ps] =>
    destruct (write_parts_layout widths ps) as (widths' & out & Hrun & _);
      [cbn; lia|]
  end.
  rewrite Hrun. eauto.
Qed.

(** X14. With its six widths and a [TotalTime] other than zero,
    [printStats] does not panic; every width becomes the larger of what it
    was and the length of its part, so no column ever gets narrower; in the
    line every part starts at the column the new widths give, the sum of
    the widths before it plus one each; and the line ends with [lineEnd]
    right after the last part. *)
Theorem printStats_columns F widths s lineEnd :
  length widths = 6%nat -> TotalTime s <> 0 ->
  exists widths' line r wr,
    printStats F widths s lineEnd = Some (widths', line) /\
    percent (TimeSpentReading s) (TotalTime s) = Some r /\
    percent (TimeSpentWriting s) (TotalTime s) = Some wr /\
    length widths' = 6%nat /\
    (forall i wd p, widths !! i = Some wd -> parts F s r wr !! i = Some p ->
       widths' !! i = Some (Z.max wd (Z.of_nat (length p)))) /\
    (forall i p, parts F s r wr !! i = Some p ->
       take (length p) (drop (Z.to_nat (column_start widths' i)) line) = p) /\
    Z.of_nat (length line)
    = column_start widths' 5 + Z.of_nat (length (fmt_writing F wr)) + 1 /\
    last line = Some lineEnd.
Proof.
  intros Hlen Hne. unfold printStats, percent.
  destruct (TotalTime s =? 0) eqn:Hz; [lia|].
  set (r := wrap64 (Z.quot (wrap64 (100 * TimeSpentReading s)) (TotalTime s))).
  set (wr := wrap64 (Z.quot (wrap64 (100 * TimeSpentWriting s)) (TotalTime s))).
  destruct (write_parts_layout widths (parts F s r wr))
    as (widths' & out & Hrun & Hl & Hw & Hcol & Hend); [cbn; lia|].
  rewrite Hrun. exists widths', (out ++ [lineEnd]), r, wr.
  specialize (Hend (fmt_writing F wr) eq_refl).
  split_and!; try done.
  - congruence.
  - intros i wd p Hi Hp. destruct (Hw i wd Hi) as (wd' & Hwd' & _ & Hmax).
    rewrite Hp in Hmax. congruence.
  - intros i p Hp. destruct (Hcol i p Hp) as [Hnn Htake].
    destruct p as [|x p]; [done|].
    assert (Hin : (Z.to_nat (column_start widths' i) + length (x :: p)
                   <= length out)%nat).
    { apply (f_equal length) in Htake.
      rewrite length_take, length_drop in Htake. cbn [length] in *. lia. }
    rewrite drop_app_le by lia. rewrite take_app_le; [done|].
    rewrite length_drop. lia.
  - rewrite length_app.
    change (length (parts F s r wr) - 1)%nat with 5%nat in Hend.
    cbn [length]. lia.
  - by rewrite last_snoc.
Qed.

Lemma printStats_columns_witness :
  exists widths' line r wr,
    printStats tags [0; 0; 0; 0; 0; 0] (Stats (shared Demo.w5) 35) Byte.x0a
    = Some (widths', line) /\
    percent (TimeSpentReading (Stats (shared Demo.w5) 35))
      (TotalTime (Stats (shared Demo.w5) 35)) = Some r /\
    percent (TimeSpentWriting (Stats (shared Demo.w5) 35))
      (TotalTime (Stats (shared Demo.w5) 35)) = Some wr /\
    length widths' = 6%nat /\
    (forall i wd p, [0; 0; 0; 0; 0; 0] !! i = Some wd ->
       parts tags (Stats (shared Demo.w5) 35) r wr !! i = Some p ->
       widths' !! i = Some (Z.max wd (Z.of_nat (length p)))) /\
    (forall i p, parts tags (Stats (shared Demo.w5) 35) r wr !! i = Some p ->
       take (length p) (drop (Z.to_nat (column_start widths' i)) line) = p) /\
    Z.of_nat (length line)
    = column_start widths' 5 + Z.of_nat (length (fmt_writing tags wr)) + 1 /\
    last line = Some Byte.x0a.
Proof.
  apply (printStats_columns tags [0; 0; 0; 0; 0; 0]
           (Stats (shared Demo.w5) 35) Byte.x0a).
  - reflexivity.
  - by vm_compute.
Defined.

Example printStats_line :
  printStats tags [0; 0; 0; 0; 0; 0] (Stats (shared Demo.w5) 35) Byte.x0a
  = Some ([1; 1; 1; 1; 1; 1],
          [Byte.x42; Byte.x20; Byte.x54; Byte.x20; Byte.x4e; Byte.x20;
           Byte.x53; Byte.x20; Byte.x52; Byte.x20; Byte.x57; Byte.x0a]).
Proof. by vm_compute. Qed.

(** X15. [printStats] panics (integer divide by zero) exactly when
    [TotalTime] is zero, as it is in the [Stats] of a buffer on which no
    transfer has started. *)
Theorem printStats_needs_total_time F widths s lineEnd :
  length widths = 6%nat ->
  (printStats F widths s lineEnd = None <-> TotalTime s = 0) /\
  (forall size b now, New size = Some b ->
     printStats F widths (Stats b now) lineEnd = None).
Proof.
  intros Hlen.
  assert (Hiff : forall s', printStats F widths s' lineEnd = None
                            <-> TotalTime s' = 0).
  { intros s'. split.
    - intros Hnone. destruct (decide (TotalTime s' = 0)) as [|Hne]; [done|].
      destruct (printStats_layout_total F widths s' lineEnd Hlen Hne)
        as (? & ? & ?). congruence.
    - intros Hz. unfold printStats, percent. by rewrite Hz. }
  split; [apply Hiff|].
  intros size b now Hnew. apply Hiff.
  unfold New in Hnew. destruct (size <? 0); by simplify_eq.
Qed.

Lemma printStats_needs_total_time_witness :
  (printStats tags [0; 0; 0; 0; 0; 0] (Stats (fresh 4) 7) Byte.x0d = None
   <-> TotalTime (Stats (fresh 4) 7) = 0) /\
  (forall size b now, New size = Some b ->
     printStats tags [0; 0; 0; 0; 0; 0] (Stats b now) Byte.x0d = None).
Proof.
  apply (printStats_needs_total_time tags [0; 0; 0; 0; 0; 0]
           (Stats (fresh 4) 7) Byte.x0d).
  reflexivity.
Defined.

Lemma percent_within t0 w now x :
  0 <= x <= TotalTime (Stats (shared w) now) ->
  TotalTime (Stats (shared w) now) <= now - t0 ->
  100 * (now - t0) <= maxDuration ->
  TotalTime (Stats (shared w) now) <> 0 ->
  exists p, percent x (TotalTime (Stats (shared w) now)) = Some p /\
            0 <= p <= 100.
Proof.
  set (T := TotalTime (Stats (shared w) now)).
  intros Hx HT Hclk Hne. unfold percent, maxDuration in *.
  destruct (T =? 0) eqn:Hz; [lia|].
  eexists. split; [done|].
  rewrite (wrap64_small (100 * x)) by lia.
  assert (0 <= Z.quot (100 * x) T <= 100).
  { rewrite Z.quot_div_nonneg by lia. split.
    - apply Z.div_pos; lia.
    - apply Z.div_le_upper_bound; lia. }
  rewrite wrap64_small; lia.
Qed.

(** X16. The percentages [printStats] shows for a snapshot of a transfer:
    when [TotalTime] is not zero and a hundred times the time since [Copy]
    began fits a [time.Duration], the writing percentage is between 0 and
    100, and so is the reading percentage unless [Copy] has returned an
    error of the writer. *)
Theorem percentages_in_range E size b t0 w now :
  New size = Some b -> 1 <= size -> reachable E (boot b t0) w ->
  clock w <= now -> 100 * (now - t0) <= maxDuration ->
  TotalTime (Stats (shared w) now) <> 0 ->
  let s := Stats (shared w) now in
  (exists wr, percent (TimeSpentWriting s) (TotalTime s) = Some wr /\
              0 <= wr <= 100) /\
  ((forall cs e, Copy_result w <> Some (cs, Some (Errorf "write error" e))) ->
   exists r, percent (TimeSpentReading s) (TotalTime s) = Some r /\
             0 <= r <= 100).
Proof.
  intros Hnew Hsize Hr Hnow Hclk Hne s. subst s.
  pose proof (Copy_Inv E size b t0 w Hnew Hsize Hr) as [_ _ Hq _ Ht].
  pose proof (Copy_Budget E size b t0 w Hnew Hsize Hr) as Hb.
  assert (Hcw : clock w - t0 <= maxDuration)
    by (unfold maxDuration in *; lia).
  pose proof (tm_clock _ _ (Ht Hcw)).
  assert (Hrange : now - t0 <= maxDuration) by (unfold maxDuration in *; lia).
  destruct (Stats_shares t0 w now) as (HW & HR & HT & Hshare);
    [done|apply Ht; lia|apply Hb; lia|done..|].
  split.
  - by apply (percent_within t0).
  - intros Hres. apply (percent_within t0); try done.
    split; [lia|by apply Hshare].
Qed.

Lemma percentages_in_range_witness :
  let s := Stats (shared Crash.r8) 20 in
  (exists wr, percent (TimeSpentWriting s) (TotalTime s) = Some wr /\
              0 <= wr <= 100) /\
  ((forall cs e,
      Copy_result Crash.r8 <> Some (cs, Some (Errorf "write error" e))) ->
   exists r, percent (TimeSpentReading s) (TotalTime s) = Some r /\
             0 <= r <= 100).
Proof.
  apply (percentages_in_range any_env 4 (fresh 4) 0 Crash.r8 20).
  - reflexivity.
  - lia.
  - apply crash_reach8.
  - by vm_compute.
  - by vm_compute.
  - by vm_compute.
Defined.

(** The shares at the end of the run in which the reader fails: of the ten
    units from 1 to 11, four were spent reading and two writing. *)
Example crash_shares :
  TotalTime (stats_at Crash.r8) = 10 /\
  percent (TimeSpentReading (stats_at Crash.r8)) (TotalTime (stats_at Crash.r8))
  = Some 40 /\
  percent (TimeSpentWriting (stats_at Crash.r8)) (TotalTime (stats_at Crash.r8))
  = Some 20.
Proof. by vm_compute. Qed.
